(** * Choreo-VIB3: the audio analyzer, the rotation patterns, the hybrid
      parameter engine and the choreography engine

    A shallow embedding of the composition core of the repository:

    - [Analyzer]  : [AudioAnalyzer] (onset detection, BPM estimation, the
                    silent fallback frame, and the functions that read the
                    byte buffers);
    - [Loudness]  : [AudioAnalyzer.calcRMS];
    - [Rotation]  : the [bass_momentum] and [beat_locked] patterns of
                    [RotationChoreographer];
    - [Hybrid]    : [HybridParameterEngine.calculate];
    - [Engine]    : [ChoreographyEngine] (memory, triggers, active
                    sequences, stage application);
    - [Holographic] : [HolographicVisualizer.updateParameter].

    Number model.  JavaScript and Dart numbers are IEEE doubles; rounding is
    not modelled.  Where the code only uses field operations and comparisons
    the numbers are rationals ([Q], executable); the choreography engine calls
    [Math.pow] with a fractional exponent and [calcRMS] takes a square root,
    so their numbers are reals ([R]).

    Host model.  The engine hands trigger texts to JavaScript's [eval]; the
    embedding takes [eval] and the printing of numbers as services of a host
    ([Engine.Host]) and states its results for every host.  The tick is
    modelled with an [eval] that leaves the engine alone; [Engine.DirectEval]
    is [eval] with what it does to the engine, for [evaluateTrigger] and the
    callback of [checkTriggers]. *)

From Stdlib Require Import QArith Qminmax Qabs Qround Qpower Reals Lra Lqa Lia List String Sorted.
From stdpp Require Import gmap strings.

Set Default Proof Using "Type".

(** ** Rational helpers *)

Definition Qltb (x y : Q) : bool := negb (Qle_bool y x).

(** ** AudioAnalyzer (src/audio/AudioAnalyzer.js) *)

Module Analyzer.
Local Open Scope Q_scope.

(** One entry of [this.bands] / [this.smoothedBands]. *)
Record Band := mkBand { low : Q; high : Q; value : Q }.

(** [{ detected, strength, time }] *)
Record OnsetEvent := mkOnset { detected : bool; strength : Q; time : Q }.

(** The object returned by [analyze()] and [createSilentFrame()]. *)
Module Frame.
Record t := mk {
  bands : gmap string Q;
  bandDetails : gmap string Band;
  spectralCentroid : Q;
  spectralRolloff : Q;
  spectralFlux : Q;
  rms : Q;
  onset : Q;
  onsetEvent : OnsetEvent;
  bpm : Q
}.
End Frame.

(** The fields of an [AudioAnalyzer] that outlive a frame.  [analyser] is
    [false] when [this.analyser] is unset. *)
Record t := mk {
  analyser : bool;
  smoothedBands : gmap string Band;
  smoothingFactor : Q;
  spectralCentroid : Q;
  spectralRolloff : Q;
  spectralFlux : Q;
  rms : Q;
  onsetHistory : list Q;
  lastOnsetTime : Q;
  onsetThreshold : Q;
  lastOnsetEvent : OnsetEvent;
  estimatedBPM : Q;
  maxOnsetHistory : nat
}.

(** The options of the constructor that the model keeps. *)
Record Options := mkOptions {
  bandSmoothing : Q;
  opt_onsetThreshold : Q;
  opt_maxOnsetHistory : nat
}.

Definition defaultOptions : Options :=
  {| bandSmoothing := 8 # 10; opt_onsetThreshold := 15 # 100;
     opt_maxOnsetHistory := 32 |}.

(** [this.bands] as the constructor writes it. *)
Definition canonicalBands : list (string * Band) :=
  [ ("subBass"%string,  mkBand 20 60 0);
    ("bass"%string,     mkBand 60 250 0);
    ("lowMid"%string,   mkBand 250 500 0);
    ("mid"%string,      mkBand 500 2000 0);
    ("highMid"%string,  mkBand 2000 4000 0);
    ("high"%string,     mkBand 4000 8000 0);
    ("air"%string,      mkBand 8000 12000 0);
    ("ultraHigh"%string, mkBand 12000 20000 0) ].

Definition bandNames : list string := map fst canonicalBands.

(** The state the constructor leaves (it throws when there is no audio input,
    so an analyzer that exists has its [analyser]). *)
Definition new (o : Options) : t :=
  {| analyser := true;
     smoothedBands := list_to_map canonicalBands;
     smoothingFactor := bandSmoothing o;
     spectralCentroid := 0;
     spectralRolloff := 0;
     spectralFlux := 0;
     rms := 0;
     onsetHistory := [];
     lastOnsetTime := 0;
     onsetThreshold := opt_onsetThreshold o;
     lastOnsetEvent := mkOnset false 0 0;
     estimatedBPM := 120;
     maxOnsetHistory := opt_maxOnsetHistory o |}.

(** What one call of the clock can do: [getNow] is [None] when the time
    provider throws, and then [getCurrentTime] falls back on [Date.now()]. *)
Record Clock := mkClock { getNow : option Q; dateNow : Q }.

Definition getCurrentTime (c : Clock) : Q :=
  match getNow c with
  | Some v => v
  | None => dateNow c
  end.

(** The values the signal-processing pass of a frame assigns
    ([analyzeBands]'s per-band average before smoothing, [calcSpectralCentroid],
    [calcSpectralRolloff], [calcSpectralFlux], [calcRMS]).  The byte-buffer
    arithmetic that produces them is not modelled: it is the input of a frame. *)
Record Measurement := mkMeasurement {
  avgValue : string -> Q;
  m_spectralCentroid : Q;
  m_spectralRolloff : Q;
  m_spectralFlux : Q;
  m_rms : Q
}.

(** [smoothed.value = smoothingFactor * smoothed.value + (1 - smoothingFactor) * avgValue] *)
Definition smoothBand (alpha : Q) (m : Measurement) (name : string) (b : Band)
  : option Band :=
  Some (mkBand (low b) (high b)
          (alpha * value b + (1 - alpha) * avgValue m name)).

Definition analyzeFeatures (a : t) (m : Measurement) : t :=
  {| analyser := analyser a;
     smoothedBands := map_imap (smoothBand (smoothingFactor a) m) (smoothedBands a);
     smoothingFactor := smoothingFactor a;
     spectralCentroid := m_spectralCentroid m;
     spectralRolloff := m_spectralRolloff m;
     spectralFlux := m_spectralFlux m;
     rms := m_rms m;
     onsetHistory := onsetHistory a;
     lastOnsetTime := lastOnsetTime a;
     onsetThreshold := onsetThreshold a;
     lastOnsetEvent := lastOnsetEvent a;
     estimatedBPM := estimatedBPM a;
     maxOnsetHistory := maxOnsetHistory a |}.

(** [this.onsetHistory.push(now)], then one [shift()] when the history is
    longer than [maxOnsetHistory]. *)
Definition pushOnset (cap : nat) (h : list Q) (now : Q) : list Q :=
  let h' := h ++ [now] in
  if (cap <? length h')%nat then tl h' else h'.

Definition detectOnset (a : t) (c : Clock) : OnsetEvent * t :=
  let now := getCurrentTime c in
  if Qltb (onsetThreshold a) (spectralFlux a)
     && Qltb 100 (now - lastOnsetTime a)
  then
    let ev := mkOnset true (spectralFlux a) now in
    (ev,
     {| analyser := analyser a;
        smoothedBands := smoothedBands a;
        smoothingFactor := smoothingFactor a;
        spectralCentroid := spectralCentroid a;
        spectralRolloff := spectralRolloff a;
        spectralFlux := spectralFlux a;
        rms := rms a;
        onsetHistory := pushOnset (maxOnsetHistory a) (onsetHistory a) now;
        lastOnsetTime := now;
        onsetThreshold := onsetThreshold a;
        lastOnsetEvent := ev;
        estimatedBPM := estimatedBPM a;
        maxOnsetHistory := maxOnsetHistory a |})
  else
    let ev := mkOnset false (spectralFlux a) now in
    (ev,
     {| analyser := analyser a;
        smoothedBands := smoothedBands a;
        smoothingFactor := smoothingFactor a;
        spectralCentroid := spectralCentroid a;
        spectralRolloff := spectralRolloff a;
        spectralFlux := spectralFlux a;
        rms := rms a;
        onsetHistory := onsetHistory a;
        lastOnsetTime := lastOnsetTime a;
        onsetThreshold := onsetThreshold a;
        lastOnsetEvent := ev;
        estimatedBPM := estimatedBPM a;
        maxOnsetHistory := maxOnsetHistory a |}).

(** [intervals.push(onsetHistory[i] - onsetHistory[i - 1])] for [i >= 1]. *)
Fixpoint intervals (h : list Q) : list Q :=
  match h with
  | x :: t =>
      match t with
      | y :: _ => (y - x) :: intervals t
      | [] => []
      end
  | [] => []
  end.

(** [intervals.sort((a, b) => a - b)]: ascending numeric order. *)
Fixpoint insertAscending (x : Q) (l : list Q) : list Q :=
  match l with
  | [] => [x]
  | y :: l' => if Qle_bool x y then x :: l else y :: insertAscending x l'
  end.

Definition sortAscending (l : list Q) : list Q :=
  fold_right insertAscending [] l.

(** [intervals[Math.floor(intervals.length / 2)]] of the sorted intervals. *)
Definition medianInterval (iv : list Q) : Q :=
  nth (length iv / 2) (sortAscending iv) 0.

(** The quotient [60000 / medianInterval] of two finite numbers: finite, or
    [Infinity] when the interval is zero. *)
Inductive Quotient := Finite (q : Q) | Infinity.

Definition bpmOfInterval (m : Q) : Quotient :=
  if Qeq_bool m 0 then Infinity else Finite (60000 / m).

(** [Math.max(60, Math.min(200, bpm))] *)
Definition clampBPM (b : Quotient) : Q :=
  match b with
  | Finite q => Qmax 60 (Qmin 200 q)
  | Infinity => Qmax 60 200
  end.

(** [estimateBPM()]: the returned number and the analyzer afterwards. *)
Definition estimateBPM (a : t) : Q * t :=
  if (length (onsetHistory a) <? 4)%nat then (120, a)
  else
    let est := clampBPM (bpmOfInterval (medianInterval (intervals (onsetHistory a)))) in
    (est,
     {| analyser := analyser a;
        smoothedBands := smoothedBands a;
        smoothingFactor := smoothingFactor a;
        spectralCentroid := spectralCentroid a;
        spectralRolloff := spectralRolloff a;
        spectralFlux := spectralFlux a;
        rms := rms a;
        onsetHistory := onsetHistory a;
        lastOnsetTime := lastOnsetTime a;
        onsetThreshold := onsetThreshold a;
        lastOnsetEvent := lastOnsetEvent a;
        estimatedBPM := est;
        maxOnsetHistory := maxOnsetHistory a |}).

Definition createSilentFrame (a : t) (c : Clock) : Frame.t :=
  {| Frame.bands := (fun _ => 0) <$> smoothedBands a;
     Frame.bandDetails := (fun b => mkBand (low b) (high b) 0) <$> smoothedBands a;
     Frame.spectralCentroid := 0;
     Frame.spectralRolloff := 0;
     Frame.spectralFlux := 0;
     Frame.rms := 0;
     Frame.onset := 0;
     Frame.onsetEvent := mkOnset false 0 (getCurrentTime c);
     Frame.bpm := estimatedBPM a |}.

(** [band.value || 0] *)
Definition orZero (q : Q) : Q := if Qeq_bool q 0 then 0 else q.

(** The frame [analyze()] builds at its end. *)
Definition frameOf (a : t) (ev : OnsetEvent) : Frame.t :=
  {| Frame.bands := (fun b => orZero (value b)) <$> smoothedBands a;
     Frame.bandDetails :=
       (fun b => mkBand (low b) (high b) (orZero (value b))) <$> smoothedBands a;
     Frame.spectralCentroid := spectralCentroid a;
     Frame.spectralRolloff := spectralRolloff a;
     Frame.spectralFlux := spectralFlux a;
     Frame.rms := rms a;
     Frame.onset := strength ev;
     Frame.onsetEvent := ev;
     Frame.bpm := estimatedBPM a |}.

(** One call of [analyze()].  [pull] is the outcome of the two
    [getByte...Data] calls: [None] when one of them throws, else the
    measurement of the buffers they filled. [c] is the clock as the onset
    detector (or the silent frame) reads it. *)
Definition analyze (a : t) (pull : option Measurement) (c : Clock) : Frame.t * t :=
  if negb (analyser a) then (createSilentFrame a c, a)
  else
    match pull with
    | None => (createSilentFrame a c, a)
    | Some m =>
        let a1 := analyzeFeatures a m in
        let '(ev, a2) := detectOnset a1 c in
        let a3 := if (4 <=? length (onsetHistory a2))%nat
                  then snd (estimateBPM a2) else a2 in
        (frameOf a3 ev, a3)
    end.

(** Frames of a session: [analyze()] called once per input. *)
Fixpoint run (a : t) (inputs : list (option Measurement * Clock))
  : list Frame.t * t :=
  match inputs with
  | [] => ([], a)
  | (pull, c) :: rest =>
      let '(f, a1) := analyze a pull c in
      let '(fs, a2) := run a1 rest in
      (f :: fs, a2)
  end.

(** The times of the onsets a list of frames reports. *)
Definition onsetTimes (fs : list Frame.t) : list Q :=
  map time (List.filter detected (map Frame.onsetEvent fs)).

(** Analyzer states a program can be in: a constructed analyzer after any
    number of frames. *)
Inductive reachable : t -> Prop :=
| reachable_new (o : Options) : reachable (new o)
| reachable_analyze a pull c :
    reachable a -> reachable (snd (analyze a pull c)).

(** *** Notions the statements about the analyzer use *)

(** How many entries of [l] are at most [m], and how many at least [m]. *)
Definition countLe (m : Q) (l : list Q) : nat :=
  length (List.filter (fun x => Qle_bool x m) l).

Definition countGe (m : Q) (l : list Q) : nat :=
  length (List.filter (fun x => Qle_bool m x) l).

(** [m] is a median of [l]: an entry of [l] with at least half of the entries
    on either side of it (itself included). *)
Definition isMedian (m : Q) (l : list Q) : Prop :=
  In m l /\ (length l <= 2 * countLe m l)%nat /\ (length l <= 2 * countGe m l)%nat.

(** Membership of a time in the closed window of 100 ms that starts at [w]. *)
Definition inWindow (w t : Q) : bool := Qle_bool w t && Qle_bool t (w + 100).

Definition onsetsInWindow (w : Q) (ts : list Q) : nat :=
  length (List.filter (inWindow w) ts).

(** Each time is more than 100 ms after the one before it, [prev] before the
    first. *)
Fixpoint spaced (prev : Q) (ts : list Q) : Prop :=
  match ts with
  | [] => True
  | t :: rest => prev + 100 < t /\ spaced t rest
  end.

(** A measurement with the given flux and nothing else, and a clock whose
    time provider returns [now]. *)
Definition fluxOnly (flux : Q) : Measurement :=
  mkMeasurement (fun _ => 0) 0 0 flux 0.

Definition clockAt (now : Q) : Clock := mkClock (Some now) now.

(** An analyzer that heard four onsets, 500 ms apart. *)
Definition fourOnsets : t :=
  snd (run (new defaultOptions)
         [ (Some (fluxOnly (1 # 2)), clockAt 500);
           (Some (fluxOnly (1 # 2)), clockAt 1000);
           (Some (fluxOnly (1 # 2)), clockAt 1500);
           (Some (fluxOnly (1 # 2)), clockAt 2000) ]).

(** An analyzer whose last onset was at 1000 ms and that measures a flux of
    one half in the frame at hand. *)
Definition heardAt1000 : t :=
  analyzeFeatures
    (snd (analyze (new defaultOptions) (Some (fluxOnly (1 # 2))) (clockAt 1000)))
    (fluxOnly (1 # 2)).

(** Frames every 40 ms from 1000 ms on, the flux above the threshold in each. *)
Definition every40ms : list (option Measurement * Clock) :=
  map (fun k => (Some (fluxOnly (1 # 2)), clockAt (1000 + 40 * inject_Z (Z.of_nat k))))
    (seq 0 11).

(** A new analyzer whose onset history is [h]. *)
Definition withHistory (h : list Q) : t :=
  let a := new defaultOptions in
  {| analyser := analyser a;
     smoothedBands := smoothedBands a;
     smoothingFactor := smoothingFactor a;
     spectralCentroid := spectralCentroid a;
     spectralRolloff := spectralRolloff a;
     spectralFlux := spectralFlux a;
     rms := rms a;
     onsetHistory := h;
     lastOnsetTime := List.last h 0;
     onsetThreshold := onsetThreshold a;
     lastOnsetEvent := lastOnsetEvent a;
     estimatedBPM := estimatedBPM a;
     maxOnsetHistory := maxOnsetHistory a |}.

(** *** The signal-processing functions, on their own

    [freqData], [prevFreqData] and [timeData] are [Uint8Array]s of
    [binCount] entries: lists of integers from 0 to 255.  [binCount] is the
    length of [freqData].  What these functions compute is what a frame takes
    as its [Measurement]. *)

Definition isByte (z : Z) : Prop := (0 <= z <= 255)%Z.

(** [Math.round(x)]: the nearest integer, halves upwards. *)
Definition Math_round (x : Q) : Z := Qfloor (x + (1 # 2)).

(** [freqToBin(frequency)] *)
Definition freqToBin (sampleRate : Q) (binCount : Z) (frequency : Q) : Z :=
  Math_round (frequency / (sampleRate / 2) * inject_Z binCount).

(** [binToFreq(bin)] *)
Definition binToFreq (sampleRate : Q) (binCount : Z) (bin : Z) : Q :=
  inject_Z bin * (sampleRate / 2) / inject_Z binCount.

(** The sum of the positive differences [freqData[i] - prevFreqData[i]]. *)
Fixpoint fluxSum (freqData prevFreqData : list Z) : Z :=
  match freqData, prevFreqData with
  | f :: fs, p :: ps =>
      ((if (0 <? f - p)%Z then f - p else 0) + fluxSum fs ps)%Z
  | _, _ => 0%Z
  end.

(** [calcSpectralFlux()]: [Math.min(1, flux / (binCount * 128))].  For an
    empty buffer the quotient is 0/0 and the result is not a number: [None]. *)
Definition calcSpectralFlux (freqData prevFreqData : list Z) : option Q :=
  match freqData with
  | [] => None
  | _ :: _ =>
      Some (Qmin 1 (inject_Z (fluxSum freqData prevFreqData)
                    / (inject_Z (Z.of_nat (length freqData)) * 128)))
  end.

Definition sumZ (l : list Z) : Z := fold_right Z.add 0%Z l.

(** The second loop of [calcSpectralRolloff()]: the first index at which the
    cumulative energy reaches the threshold. *)
Fixpoint rolloffFrom (threshold : Q) (cumulativeEnergy : Z) (i : nat) (data : list Z)
  : option nat :=
  match data with
  | [] => None
  | x :: rest =>
      let c := (cumulativeEnergy + x)%Z in
      if Qle_bool threshold (inject_Z c) then Some i
      else rolloffFrom threshold c (S i) rest
  end.

(** [calcSpectralRolloff()]: [i / binCount] at that index, [1.0] when the loop
    ends without one. *)
Definition calcSpectralRolloff (freqData : list Z) : Q :=
  let threshold := inject_Z (sumZ freqData) * (85 # 100) in
  match rolloffFrom threshold 0 0 freqData with
  | Some i => inject_Z (Z.of_nat i) / inject_Z (Z.of_nat (length freqData))
  | None => 1
  end.

(** The two running sums of [calcSpectralCentroid()], from bin [i] on. *)
Fixpoint centroidSums (sampleRate : Q) (binCount : Z) (i : Z) (data : list Z)
  : Q * Z :=
  match data with
  | [] => (0, 0%Z)
  | magnitude :: rest =>
      let '(weightedSum, sum) := centroidSums sampleRate binCount (i + 1) rest in
      (binToFreq sampleRate binCount i * inject_Z magnitude + weightedSum,
       (magnitude + sum)%Z)
  end.

(** [calcSpectralCentroid()] *)
Definition calcSpectralCentroid (sampleRate : Q) (freqData : list Z) : Q :=
  let binCount := Z.of_nat (length freqData) in
  let '(weightedSum, sum) := centroidSums sampleRate binCount 0 freqData in
  if (0 <? sum)%Z then Qmin 1 (weightedSum / inject_Z sum / 10000) else 0.

(** The inner loop of [analyzeBands()], [sum += freqData[i]] for [i] from
    [lowBin] up to [highBin], with the count of its rounds.  An index outside
    the buffer reads [undefined] and the sum is [NaN] from then on: [None]. *)
Fixpoint sumBins (freqData : list Z) (i : Z) (rounds : nat) : option Z :=
  match rounds with
  | O => Some 0%Z
  | S k =>
      if (i <? 0)%Z then None
      else
        match nth_error freqData (Z.to_nat i), sumBins freqData (i + 1) k with
        | Some x, Some rest => Some (x + rest)%Z
        | _, _ => None
        end
  end.

(** [avgValue] of [analyzeBands()]: [count > 0 ? sum / count / 255 : 0]. *)
Definition bandAverage (freqData : list Z) (lowBin highBin : Z) : option Q :=
  let count := Z.to_nat (highBin - lowBin + 1) in
  match count with
  | O => Some 0
  | S _ =>
      match sumBins freqData lowBin count with
      | Some sum => Some (inject_Z sum / inject_Z (Z.of_nat count) / 255)
      | None => None
      end
  end.

(** *** Notions the statements about reachable analyzers use *)

(** Every interval between successive onsets of the history is above 100 ms. *)
Definition gapped (h : list Q) : Prop :=
  Forall (fun d => 100 < d) (intervals h).

End Analyzer.

(** ** AudioAnalyzer: the loudness

    [calcRMS()] takes a square root, so its numbers are reals. *)

Module Loudness.
Local Open Scope R_scope.

(** [(this.timeData[i] - 128) / 128] *)
Definition normalized (sample : Z) : R := (IZR sample - 128) / 128.

(** The loop of [calcRMS()]. *)
Definition sumSquares (timeData : list Z) : R :=
  fold_left (fun acc sample => acc + normalized sample * normalized sample)
    timeData 0.

(** [calcRMS()]: [Math.sqrt(sumSquares / this.timeData.length)].  For an empty
    buffer the quotient is 0/0 and the result is not a number: [None]. *)
Definition calcRMS (timeData : list Z) : option R :=
  match timeData with
  | [] => None
  | _ :: _ => Some (sqrt (sumSquares timeData / INR (length timeData)))
  end.

End Loudness.

(** ** RotationChoreographer (src/choreographers/RotationChoreographer.js) *)

Module Rotation.
Local Open Scope Q_scope.

(** [this.momentum] *)
Record Momentum := mkMomentum { xw : Q; yw : Q; zw : Q }.

(** [{ rot4dXW, rot4dYW, rot4dZW }] *)
Record Rotations := mkRotations { rot4dXW : Q; rot4dYW : Q; rot4dZW : Q }.

(** [Math.PI]: the double nearest to pi, which is this rational. *)
Definition Math_PI : Q := 884279719003555 # 281474976710656.

(** The choreographer's fields the [bass_momentum] pattern reads and writes.
    The pattern's [update] is an arrow function, so its [this.momentum] is the
    choreographer's. *)
Record t := mk { currentPattern : string; momentum : Momentum }.

Definition new : t :=
  {| currentPattern := "smooth"; momentum := mkMomentum 0 0 0 |}.

(** [patterns.bass_momentum.update(bassHit, decay)] *)
Definition bass_momentum_update (bassHit decay : Q) (m : Momentum)
  : Rotations * Momentum :=
  let m1 :=
    if Qltb (6 # 10) bassHit
    then mkMomentum (xw m + bassHit * (1 # 10)) (yw m) (zw m + bassHit * (3 # 10))
    else m in
  let m2 := mkMomentum (xw m1 * decay) (yw m1 * decay) (zw m1 * decay) in
  (mkRotations (xw m2 * Math_PI) (yw m2 * Math_PI) (zw m2 * Math_PI * 2), m2).

(** [audioData.bands?.bass || 0] *)
Definition bassOf (bass : option Q) : Q :=
  match bass with
  | Some b => if Qeq_bool b 0 then 0 else b
  | None => 0
  end.

(** The [case 'bass_momentum'] branch of [update(audioData, ...)]:
    [pattern.update(audioData.bands?.bass || 0, 0.98)]. *)
Definition update_bass_momentum (s : t) (bass : option Q) : Rotations * t :=
  let '(r, m) := bass_momentum_update (bassOf bass) (98 # 100) (momentum s) in
  (r, {| currentPattern := currentPattern s; momentum := m |}).

(** [momentum] after each update of a sequence of bass values. *)
Fixpoint momentumTrace (decay : Q) (m : Momentum) (hits : list Q) : list Momentum :=
  match hits with
  | [] => []
  | b :: rest =>
      let m' := snd (bass_momentum_update b decay m) in
      m' :: momentumTrace decay m' rest
  end.

(** *** Notions the statements about the pattern use *)

Definition zeroMomentum : Momentum := mkMomentum 0 0 0.

(** [zw] after each update of a sequence of bass values, from no momentum. *)
Definition zwTrace (decay : Q) (hits : list Q) : list Q :=
  map zw (momentumTrace decay zeroMomentum hits).

(** Two lists agree entry by entry up to [eps]. *)
Definition agree (eps : Q) (xs ys : list Q) : Prop :=
  Forall2 (fun x y => Qabs (x - y) <= eps) xs ys.

(** *** The pattern over a session, and the beat-locked pattern *)

(** The choreographer after [update] ran, with the [bass_momentum] pattern
    set, on the audio data of each frame of a list; a frame is given by its
    [audioData.bands?.bass]. *)
Fixpoint updates (s : t) (basses : list (option Q)) : t :=
  match basses with
  | [] => s
  | bass :: rest => updates (snd (update_bass_momentum s bass)) rest
  end.

(** The momentum stays within the limits that the decay of 0.98 sets for bass
    values up to 1. *)
Definition bounded (m : Momentum) : Prop :=
  0 <= xw m <= 49 # 10 /\ yw m == 0 /\ 0 <= zw m <= 147 # 10.

(** [patterns.beat_locked.update(beatIndex, bpm, intensity)] for a whole
    number of beats; [%] is the remainder with the sign of the dividend. *)
Definition beat_locked_update (beatIndex : Z) (bpm intensity : Q) : Rotations :=
  let angle := inject_Z (Z.rem beatIndex 16) * (Math_PI * 2 / 16) in
  mkRotations (angle * intensity)
              (angle * (5 # 10) * intensity)
              (- angle * (25 # 100) * intensity).

End Rotation.

(** ** HybridParameterEngine (the Dart class of the hybrid-system document) *)

Module Hybrid.
Local Open Scope Q_scope.

(** The cases [_getBandValue] lists. *)
Inductive AudioBand := bass | mid | high | rms | spectralFlux.

Inductive RoutingCurve := linear | exponential | logarithmic.

(** The fields of [AudioFrame] that [_getBandValue] reads. *)
Record AudioFrame := mkAudioFrame {
  bands : gmap string Q;
  frame_rms : Q;
  frame_spectralFlux : Q
}.

Record AudioRouting := mkRouting {
  parameter : string;
  sourceBand : AudioBand;
  amount : Q;
  threshold : Q;
  curve : RoutingCurve
}.

Record t := mk {
  baseParameters : gmap string Q;
  choreographyOffsets : gmap string Q;
  reactionOffsets : gmap string Q;
  manualAmount : Q;
  choreographyAmount : Q;
  reactionAmount : Q;
  routings : list AudioRouting
}.

(** [m[k] ?? 0] *)
Definition orZero (o : option Q) : Q := default 0 o.

Definition _getBandValue (audio : AudioFrame) (band : AudioBand) : Q :=
  match band with
  | bass => orZero (bands audio !! "bass"%string)
  | mid => orZero (bands audio !! "mid"%string)
  | high => orZero (bands audio !! "high"%string)
  | rms => frame_rms audio
  | spectralFlux => frame_spectralFlux audio
  end.

Section Calculate.

(** The source defines neither [RoutingCurve.apply] nor [_clampParameter].
    The logarithmic curve, [log(1+x)/log(2)], is not a rational function: it
    and the clamp are taken as given. *)
Variable log2_1p : Q -> Q.
Variable _clampParameter : string -> Q -> Q.

(** Modelled from the spec: [RoutingCurve.apply], which the source calls and
    does not define: linear [x], exponential [x * x], logarithmic
    [log(1+x)/log(2)]. *)
Definition curve_apply (c : RoutingCurve) (x : Q) : Q :=
  match c with
  | linear => x
  | exponential => x * x
  | logarithmic => log2_1p x
  end.

(** Step 1: [result[param] = value * manualAmount] for every base parameter. *)
Definition applyBase (e : t) : gmap string Q :=
  (fun v => v * manualAmount e) <$> baseParameters e.

(** Step 2: [result[param] = (result[param] ?? 0) + offset * choreographyAmount]. *)
Definition addChoreography (e : t) (result : gmap string Q) : gmap string Q :=
  map_fold
    (fun param offset (r : gmap string Q) =>
       <[param := orZero (r !! param) + offset * choreographyAmount e]> r)
    result (choreographyOffsets e).

(** The body of the loop over [routings] (step 3). *)
Definition applyRouting (e : t) (audio : AudioFrame)
    (result : gmap string Q) (routing : AudioRouting) : gmap string Q :=
  let bandValue := _getBandValue audio (sourceBand routing) in
  if Qltb bandValue (threshold routing) then result
  else
    let curved := curve_apply (curve routing) bandValue in
    let reactionOffset := curved * amount routing * reactionAmount e in
    <[parameter routing := orZero (result !! parameter routing) + reactionOffset]> result.

Definition applyReactions (e : t) (audio : AudioFrame)
    (result : gmap string Q) : gmap string Q :=
  fold_left (applyRouting e audio) (routings e) result.

(** Step 4: [result[param] = _clampParameter(param, value)]. *)
Definition clampAll (result : gmap string Q) : gmap string Q :=
  map_imap (fun param v => Some (_clampParameter param v)) result.

Definition calculate (e : t) (audio : AudioFrame) : gmap string Q :=
  clampAll (applyReactions e audio (addChoreography e (applyBase e))).

(** What one routing contributes to its parameter, in the words of the
    specification: nothing below the threshold, else the curved band value
    times the routing's amount times the global reaction amount. *)
Definition contribution (e : t) (audio : AudioFrame) (r : AudioRouting) : Q :=
  let v := _getBandValue audio (sourceBand r) in
  if Qltb v (threshold r) then 0
  else curve_apply (curve r) v * amount r * reactionAmount e.

(** The specification's [reactionOffset] of a parameter: the sum of the
    contributions of the routings that target it. *)
Definition reactionOffset (e : t) (audio : AudioFrame) (p : string) : Q :=
  fold_right Qplus 0
    (map (contribution e audio)
       (List.filter (fun r => bool_decide (parameter r = p)) (routings e))).

End Calculate.

(** The two routings on "intensity" of the specification's example, and a
    frame with bass 0.4 and mid 0.6. *)
Definition intensityRoutings : list AudioRouting :=
  [ mkRouting "intensity" bass 1 0 linear;
    mkRouting "intensity" mid (1 # 2) 0 linear ].

Definition intensityEngine : t :=
  {| baseParameters := ∅; choreographyOffsets := ∅; reactionOffsets := ∅;
     manualAmount := 1; choreographyAmount := 7 # 10; reactionAmount := 1;
     routings := intensityRoutings |}.

Definition bassMidFrame : AudioFrame :=
  mkAudioFrame (<["bass"%string := 4 # 10]> (<["mid"%string := 6 # 10]> ∅)) 0 0.

(** A routing takes part in a frame when its band value is not below its
    threshold. *)
Definition passes (audio : AudioFrame) (r : AudioRouting) : bool :=
  negb (Qltb (_getBandValue audio (sourceBand r)) (threshold r)).

End Hybrid.

(** ** ChoreographyEngine (src/core/ChoreographyEngine.js) *)

(** Comparisons of reals as booleans. *)
Definition Rltb (x y : R) : bool := if Rlt_dec x y then true else false.
Definition Rleb (x y : R) : bool := if Rle_dec x y then true else false.
Definition Reqb (x y : R) : bool := if Req_dec_T x y then true else false.

(** [s.replace(/pat/g, rep)] for a literal, non-empty pattern: every match,
    leftmost first, without overlap.  [skip] counts the characters of a match
    still to be dropped. *)
Fixpoint replaceFrom (pat rep : string) (skip : nat) (s : string) : string :=
  match s with
  | EmptyString => EmptyString
  | String c s' =>
      match skip with
      | S k => replaceFrom pat rep k s'
      | O =>
          if String.prefix pat s
          then String.append rep (replaceFrom pat rep (String.length pat - 1) s')
          else String c (replaceFrom pat rep 0 s')
      end
  end.

Definition replaceAll (pat rep s : string) : string := replaceFrom pat rep 0 s.

(** [pat] occurs in [s]. *)
Definition occursIn (pat s : string) : Prop :=
  exists u v, s = String.append u (String.append pat v).

(** The same as a test: [pat] is a prefix of [s] or of what follows one of
    its characters. *)
Fixpoint occursb (pat s : string) : bool :=
  String.prefix pat s
  || match s with
     | EmptyString => false
     | String _ s' => occursb pat s'
     end.

(** The names that [evaluateTrigger] replaces. *)
Definition triggerNames : list string :=
  ["bass"; "mid"; "high"; "energy"; "onset"]%string.

Module Engine.
Local Open Scope R_scope.

(** The values a trigger expression can evaluate to. *)
Inductive JsValue :=
| JsBool (b : bool)
| JsNumber (r : R)
| JsString (s : string)
| JsUndefined
| JsNull
| JsObject.

(** What [if (v)] tests. *)
Definition truthy (v : JsValue) : bool :=
  match v with
  | JsBool b => b
  | JsNumber r => negb (Reqb r 0)
  | JsString s => negb (String.eqb s "")
  | JsUndefined => false
  | JsNull => false
  | JsObject => true
  end.

(** A call either returns or throws. *)
Inductive Completion (A : Type) :=
| Normal (a : A)
| Throw.
Arguments Normal {A} a.
Arguments Throw {A}.

Definition bind {A B} (c : Completion A) (k : A -> Completion B) : Completion B :=
  match c with
  | Normal a => k a
  | Throw => Throw
  end.

Notation "'let*' x ':=' c 'in' k" := (bind c (fun x => k))
  (at level 10, x name, c at level 100, k at level 200).

(** [try { body } catch (error) { return handler }] *)
Definition tryCatch {A} (body : Completion A) (handler : A) : Completion A :=
  match body with
  | Normal a => Normal a
  | Throw => Normal handler
  end.

Record OnsetEvent := mkOnset { detected : bool; strength : R; time : R }.

(** The audio data of a tick, as [normalizeAudioData] hands it on.  A field
    is [None] when the property is [undefined]. *)
Record AudioData := mkAudioData {
  bands : option (gmap string R);
  rms : option R;
  onset : option R;
  onsetEvent : option OnsetEvent
}.

Record Momentum := mkMomentum { xw : R; yw : R; zw : R }.

(** [this.memory] *)
Record Memory := mkMemory {
  recentBassHits : list R;
  predictedNextBass : option R;
  colorJourneyPosition : R;
  geometrySequence : list nat;
  rotationMomentum : Momentum;
  energyTrend : string;
  lastOnsetTime : R;
  lastOnsetEvent : option OnsetEvent;
  energyHistory : list R
}.

(** An endpoint of an interpolation: a number or the string ['current']. *)
Inductive Endpoint := Current | Value (r : R).

(** The object under a parameter name in a stage; a field is [None] when the
    property is [undefined]. *)
Record Change := mkChange {
  from : option Endpoint;
  to : option Endpoint;
  easing : option string;
  spike : option R;
  decay : option R;
  jump : option R
}.

(** The three shapes of the specification's [ChangeSpec]. *)
Definition Interpolate (f t : Endpoint) (e : option string) : Change :=
  mkChange (Some f) (Some t) e None None None.
Definition SpikeDecay (s d : R) : Change :=
  mkChange None None None (Some s) (Some d) None.
Definition Jump (v : R) : Change :=
  mkChange None None None None None (Some v).

(** A stage: [start], [duration], and the other keys in order. *)
Record Stage := mkStage {
  stage_start : option R;
  stage_duration : R;
  changes : list (string * Change)
}.

(** [sequence.trigger]: a function of the audio data and the memory (taken
    here with the truth value of what it returns, and as leaving the memory
    it receives alone), a string, or anything else. *)
Inductive Trigger :=
| TriggerFunction (f : AudioData -> Memory -> bool)
| TriggerString (expression : string)
| TriggerOther.

Record Sequence := mkSequence {
  name : string;
  duration : R;
  trigger : Trigger;
  stages : option (list Stage)
}.

(** An entry of [this.activeSequences]: [{...sequence, startTime, currentStage}]. *)
Module Active.
Record t := mk { sequence : Sequence; startTime : R; currentStage : nat }.
End Active.

(** A visualizer as the engine uses it: whether it has [updateParameter], and
    its [params]. *)
Record Visualizer := mkVisualizer {
  hasUpdateParameter : bool;
  params : gmap string R
}.

(** The engine.  [sequences] is the [Map] in insertion order, keyed by the
    sequences' names. *)
Record t := mk {
  visualizers : list Visualizer;
  bpm : R;
  beatDuration : R;
  running : bool;
  startTime : option R;
  currentBeat : Z;
  currentMeasure : Z;
  beatsPerMeasure : Z;
  sequences : list Sequence;
  activeSequences : list Active.t;
  sequenceHistory : list (string * R);
  memory : Memory;
  lastFrameTime : R;
  deltaTime : R
}.

(** What [eval] sees besides its text: the method's [this] and its
    parameters. *)
Record EvalScope := mkScope {
  scope_this : t;
  scope_expression : string;
  scope_audioData : AudioData
}.

(** The two services of the JavaScript host the engine relies on: [eval] of
    an expression text and the conversion of a number to a string.
    [js_eval] is [eval] for the texts whose evaluation leaves the engine as
    it was: its value, or an error.  ([DirectEval] below is [eval] with what
    it does to the engine.) *)
Class Host := {
  js_eval : EvalScope -> string -> Completion JsValue;
  numberToString : R -> string
}.

(** Direct [eval] as [evaluateTrigger] calls it: the text runs with [this]
    bound to the engine, so besides a value or an error it leaves an engine,
    which it may have changed (a text can call [this.startSequence] or write
    a field before it returns or throws).  An evaluation that does not end
    has no place here. *)
Class DirectEval := {
  direct_eval : EvalScope -> string -> t * Completion JsValue
}.

(** The [eval] of a [Host] as a direct one: the engine stays as it was. *)
Definition withoutEffects `{H : Host} : DirectEval :=
  {| direct_eval := fun scope text => (scope_this scope, js_eval scope text) |}.

(** [config.bpm || 120] and the other fields as the constructor sets them. *)
Definition new (vizs : list Visualizer) (configBpm : option R) : t :=
  let b := match configBpm with
           | Some v => if Reqb v 0 then 120 else v
           | None => 120
           end in
  {| visualizers := vizs;
     bpm := b;
     beatDuration := (60 / b) * 1000;
     running := false;
     startTime := None;
     currentBeat := 0;
     currentMeasure := 0;
     beatsPerMeasure := 4;
     sequences := [];
     activeSequences := [];
     sequenceHistory := [];
     memory :=
       {| recentBassHits := [];
          predictedNextBass := None;
          colorJourneyPosition := 0;
          geometrySequence := [];
          rotationMomentum := mkMomentum 0 0 0;
          energyTrend := "neutral";
          lastOnsetTime := 0;
          lastOnsetEvent := None;
          energyHistory := [] |};
     lastFrameTime := 0;
     deltaTime := 0 |}.

(** Field updates. *)
Definition set_visualizers (e : t) (v : list Visualizer) : t :=
  mk v (bpm e) (beatDuration e) (running e) (startTime e) (currentBeat e)
     (currentMeasure e) (beatsPerMeasure e) (sequences e) (activeSequences e)
     (sequenceHistory e) (memory e) (lastFrameTime e) (deltaTime e).

Definition set_running (e : t) (r : bool) : t :=
  mk (visualizers e) (bpm e) (beatDuration e) r (startTime e) (currentBeat e)
     (currentMeasure e) (beatsPerMeasure e) (sequences e) (activeSequences e)
     (sequenceHistory e) (memory e) (lastFrameTime e) (deltaTime e).

Definition set_started (e : t) (now : R) : t :=
  mk (visualizers e) (bpm e) (beatDuration e) true (Some now) (currentBeat e)
     (currentMeasure e) (beatsPerMeasure e) (sequences e) (activeSequences e)
     (sequenceHistory e) (memory e) now (deltaTime e).

Definition set_beat (e : t) (beat measure : Z) : t :=
  mk (visualizers e) (bpm e) (beatDuration e) (running e) (startTime e) beat
     measure (beatsPerMeasure e) (sequences e) (activeSequences e)
     (sequenceHistory e) (memory e) (lastFrameTime e) (deltaTime e).

Definition set_sequences (e : t) (s : list Sequence) : t :=
  mk (visualizers e) (bpm e) (beatDuration e) (running e) (startTime e)
     (currentBeat e) (currentMeasure e) (beatsPerMeasure e) s (activeSequences e)
     (sequenceHistory e) (memory e) (lastFrameTime e) (deltaTime e).

Definition set_active (e : t) (a : list Active.t) (h : list (string * R)) : t :=
  mk (visualizers e) (bpm e) (beatDuration e) (running e) (startTime e)
     (currentBeat e) (currentMeasure e) (beatsPerMeasure e) (sequences e) a
     h (memory e) (lastFrameTime e) (deltaTime e).

Definition set_memory (e : t) (m : Memory) : t :=
  mk (visualizers e) (bpm e) (beatDuration e) (running e) (startTime e)
     (currentBeat e) (currentMeasure e) (beatsPerMeasure e) (sequences e)
     (activeSequences e) (sequenceHistory e) m (lastFrameTime e) (deltaTime e).

Definition set_frameTime (e : t) (now : R) : t :=
  mk (visualizers e) (bpm e) (beatDuration e) (running e) (startTime e)
     (currentBeat e) (currentMeasure e) (beatsPerMeasure e) (sequences e)
     (activeSequences e) (sequenceHistory e) (memory e) now (now - lastFrameTime e).

(** [this.sequences.set(sequence.name, ...)]: an entry of that name keeps its
    place and takes the new value, a new name goes last. *)
Fixpoint mapSet (l : list Sequence) (s : Sequence) : list Sequence :=
  match l with
  | [] => [s]
  | x :: rest =>
      if String.eqb (name x) (name s) then s :: rest else x :: mapSet rest s
  end.

(** [defineSequence(sequence)]; the generated [id] is not kept. *)
Definition defineSequence (e : t) (s : Sequence) : Completion t :=
  if String.eqb (name s) "" then Throw
  else Normal (set_sequences e (mapSet (sequences e) s)).

(** [start()], up to its first call of [animate()]. *)
Definition start (e : t) (now : R) : t :=
  if running e then e else set_started e now.

Definition stop (e : t) : t := set_running e false.

(** *** Beat tracking *)

(** [onOnset(intensity, time, event)]: the two writes to the memory. (The
    [triggerClick] it sends to the visualizers does not touch their
    [params].) *)
Definition onOnset (e : t) (time : R) (event : OnsetEvent) : t :=
  let m := memory e in
  set_memory e
    {| recentBassHits := recentBassHits m;
       predictedNextBass := predictedNextBass m;
       colorJourneyPosition := colorJourneyPosition m;
       geometrySequence := geometrySequence m;
       rotationMomentum := rotationMomentum m;
       energyTrend := energyTrend m;
       lastOnsetTime := time;
       lastOnsetEvent := Some event;
       energyHistory := energyHistory m |}.

Definition updateBeatTracking (e : t) (currentTime : R) (audioData : AudioData) : t :=
  let elapsed := currentTime - default 0 (startTime e) in
  let beatNumber := Int_part (elapsed / beatDuration e) in
  let e1 :=
    if (currentBeat e <? beatNumber)%Z
    then set_beat e beatNumber (beatNumber / beatsPerMeasure e)%Z
    else e in
  match onsetEvent audioData with
  | Some ev =>
      if detected ev && Rltb 0 (strength ev) then onOnset e1 currentTime ev else e1
  | None => e1
  end.

(** *** Memory *)

(** [audioData.bands.<name>], [undefined] when either is missing. *)
Definition bandValue (a : AudioData) (n : string) : option R :=
  match bands a with
  | Some b => b !! n
  | None => None
  end.

(** [v > threshold], false when [v] is [undefined]. *)
Definition above (v : option R) (threshold : R) : bool :=
  match v with
  | Some x => Rltb threshold x
  | None => false
  end.

(** [x || 0] *)
Definition orZero (o : option R) : R :=
  match o with
  | Some v => v
  | None => 0
  end.

(** [hits[i] - hits[i - 1]] for [i >= 1]. *)
Fixpoint differences (l : list R) : list R :=
  match l with
  | x :: rest =>
      match rest with
      | y :: _ => (y - x) :: differences rest
      | [] => []
      end
  | [] => []
  end.

(** [intervals.reduce((a, b) => a + b)] *)
Definition reduceSum (l : list R) : R :=
  match l with
  | [] => 0
  | x :: rest => fold_left Rplus rest x
  end.

(** [push(x)] and one [shift()] when longer than [cap]. *)
Definition pushCapped (cap : nat) (l : list R) (x : R) : list R :=
  let l' := l ++ [x] in
  if (cap <? length l')%nat then tl l' else l'.

(** The four running sums of [calculateSlope]. *)
Fixpoint slopeSums (i : nat) (data : list R) (acc : R * R * R * R) : R * R * R * R :=
  match data with
  | [] => acc
  | y :: rest =>
      let '(sumX, sumY, sumXY, sumX2) := acc in
      slopeSums (S i) rest
        (sumX + INR i, sumY + y, sumXY + INR i * y, sumX2 + INR i * INR i)
  end.

Definition calculateSlope (data : list R) : R :=
  if (length data <? 2)%nat then 0
  else
    let n := INR (length data) in
    let '(sumX, sumY, sumXY, sumX2) := slopeSums 0 data (0, 0, 0, 0) in
    (n * sumXY - sumX * sumY) / (n * sumX2 - sumX * sumX).

(** The bass-hit part of [updateMemory]. *)
Definition trackBassHits (m : Memory) (audioData : AudioData) (currentTime : R)
  : list R * option R :=
  if above (bandValue audioData "bass") (7 / 10) then
    let hits := pushCapped 10 (recentBassHits m) currentTime in
    if (3 <=? length hits)%nat then
      let intervals := differences hits in
      let avgInterval := reduceSum intervals / INR (length intervals) in
      (hits, Some (currentTime + avgInterval))
    else (hits, predictedNextBass m)
  else (recentBassHits m, predictedNextBass m).

(** The energy-trend part of [updateMemory]. *)
Definition trackEnergy (m : Memory) (audioData : AudioData) : list R * string :=
  let history := pushCapped 20 (energyHistory m) (orZero (rms audioData)) in
  if (10 <=? length history)%nat then
    let slope := calculateSlope history in
    if Rltb (1 / 100) slope then (history, "building"%string)
    else if Rltb slope (- (1 / 100)) then (history, "releasing"%string)
    else (history, "stable"%string)
  else (history, energyTrend m).

(** The rotation-momentum part of [updateMemory]. *)
Definition accumulateMomentum (mo : Momentum) (audioData : AudioData) : Momentum :=
  let zw1 :=
    if above (bandValue audioData "bass") (5 / 10)
    then zw mo + orZero (bandValue audioData "bass") * (1 / 10)
    else zw mo in
  mkMomentum (xw mo) (yw mo) (zw1 * (98 / 100)).

Definition updateMemory (e : t) (audioData : AudioData) (currentTime : R) : t :=
  let m := memory e in
  let '(hits, predicted) := trackBassHits m audioData currentTime in
  let '(history, trend) := trackEnergy m audioData in
  set_memory e
    {| recentBassHits := hits;
       predictedNextBass := predicted;
       colorJourneyPosition := colorJourneyPosition m;
       geometrySequence := geometrySequence m;
       rotationMomentum := accumulateMomentum (rotationMomentum m) audioData;
       energyTrend := trend;
       lastOnsetTime := lastOnsetTime m;
       lastOnsetEvent := lastOnsetEvent m;
       energyHistory := history |}.

(** *** Triggers *)

(** The body of the [try] of [evaluateTrigger]: reading a property of a
    missing [audioData] throws; so may [eval]. *)
Definition evaluateBody `{Host} (e : t) (expression : string)
    (audioData : option AudioData) : Completion JsValue :=
  match audioData with
  | None => Throw
  | Some a =>
      let bass := orZero (bandValue a "bass") in
      let mid := orZero (bandValue a "mid") in
      let high := orZero (bandValue a "high") in
      let energy := orZero (rms a) in
      let onset := orZero (onset a) in
      let safeExpr :=
        replaceAll "onset" (numberToString onset)
          (replaceAll "energy" (numberToString energy)
             (replaceAll "high" (numberToString high)
                (replaceAll "mid" (numberToString mid)
                   (replaceAll "bass" (numberToString bass) expression)))) in
      js_eval (mkScope e expression a) safeExpr
  end.

Definition evaluateTrigger `{Host} (e : t) (expression : string)
    (audioData : option AudioData) : Completion JsValue :=
  tryCatch (evaluateBody e expression audioData) (JsBool false).

(** [this.activeSequences.find(as => as.name === name)] finds something. *)
Definition isActive (e : t) (n : string) : bool :=
  existsb (fun a => String.eqb (name (Active.sequence a)) n) (activeSequences e).

Definition startSequence (e : t) (n : string) (startTime : R) : t :=
  match List.find (fun s => String.eqb (name s) n) (sequences e) with
  | None => e
  | Some s =>
      set_active e
        (activeSequences e ++ [Active.mk s startTime 0])
        (sequenceHistory e ++ [(n, startTime)])
  end.

(** Whether the trigger of a sequence is met on this tick. *)
Definition triggered `{Host} (e : t) (s : Sequence) (audioData : AudioData)
  : Completion bool :=
  match trigger s with
  | TriggerFunction f => Normal (f audioData (memory e))
  | TriggerString expression =>
      let* v := evaluateTrigger e expression (Some audioData) in
      Normal (truthy v)
  | TriggerOther => Normal false
  end.

(** The callback of [this.sequences.forEach] in [checkTriggers]. *)
Definition checkTrigger `{Host} (audioData : AudioData) (currentTime : R)
    (e : t) (s : Sequence) : Completion t :=
  if isActive e (name s) then Normal e
  else
    let* fired := triggered e s audioData in
    if (fired : bool) then Normal (startSequence e (name s) currentTime)
    else Normal e.

(** [evaluateTrigger] with direct [eval]: the value it returns (it cannot
    throw: the [catch] returns [false]) and the engine the evaluation
    leaves, on both paths. *)
Definition evaluateTriggerDirect `{H : Host} `{D : DirectEval} (e : t)
    (expression : string) (audioData : option AudioData) : t * JsValue :=
  match audioData with
  | None => (e, JsBool false)
  | Some a =>
      let bass := orZero (bandValue a "bass") in
      let mid := orZero (bandValue a "mid") in
      let high := orZero (bandValue a "high") in
      let energy := orZero (rms a) in
      let onset := orZero (onset a) in
      let safeExpr :=
        replaceAll "onset" (numberToString onset)
          (replaceAll "energy" (numberToString energy)
             (replaceAll "high" (numberToString high)
                (replaceAll "mid" (numberToString mid)
                   (replaceAll "bass" (numberToString bass) expression)))) in
      let '(e', result) := direct_eval (mkScope e expression a) safeExpr in
      match result with
      | Normal v => (e', v)
      | Throw => (e', JsBool false)
      end
  end.

(** The callback of [checkTriggers] with direct [eval]. *)
Definition checkTriggerDirect `{H : Host} `{D : DirectEval} (audioData : AudioData)
    (currentTime : R) (e : t) (s : Sequence) : t :=
  if isActive e (name s) then e
  else
    match trigger s with
    | TriggerFunction f =>
        if f audioData (memory e) then startSequence e (name s) currentTime else e
    | TriggerString expression =>
        let '(e', v) := evaluateTriggerDirect e expression (Some audioData) in
        if truthy v then startSequence e' (name s) currentTime else e'
    | TriggerOther => e
    end.

Fixpoint forEachSequence `{Host} (audioData : AudioData) (currentTime : R)
    (l : list Sequence) (e : t) : Completion t :=
  match l with
  | [] => Normal e
  | s :: rest =>
      let* e' := checkTrigger audioData currentTime e s in
      forEachSequence audioData currentTime rest e'
  end.

Definition checkTriggers `{Host} (e : t) (audioData : AudioData) (currentTime : R)
  : Completion t :=
  forEachSequence audioData currentTime (sequences e) e.

(** *** Stages *)

(** [Math.pow(x, y)] for a positive base [x] (for the other bases JavaScript
    gives [NaN], [0] or an infinity, which the number model does not have). *)
Definition Math_pow (x y : R) : R := Rpower x y.

Definition getEasingFunction (n : string) : R -> R :=
  if String.eqb n "linear" then fun t => t
  else if String.eqb n "easeIn" then fun t => t * t
  else if String.eqb n "easeOut" then fun t => t * (2 - t)
  else if String.eqb n "easeInOut" then
    fun t => if Rltb t (5 / 10) then 2 * t * t else -1 + (4 - 2 * t) * t
  else if String.eqb n "exponential" then
    fun t => if Reqb t 0 then 0 else Math_pow 2 (10 * (t - 1))
  else fun t => t.

(** [getCurrentParam(param)]: "Would need to query visualizers for current
    value. For now return default". *)
Definition getCurrentParam (e : t) (param : string) : R := 0.

(** [change.from === 'current' ? this.getCurrentParam(param) : change.from] *)
Definition resolveEndpoint (e : t) (param : string) (p : Endpoint) : R :=
  match p with
  | Current => getCurrentParam e param
  | Value v => v
  end.

(** [change.easing || 'linear'] *)
Definition easingName (o : option string) : string :=
  match o with
  | Some n => if String.eqb n "" then "linear"%string else n
  | None => "linear"%string
  end.

(** [change.decay || 0.95] *)
Definition decayOf (o : option R) : R :=
  match o with
  | Some d => if Reqb d 0 then 95 / 100 else d
  | None => 95 / 100
  end.

(** The [value] that [applyStage] computes for one parameter; [None] is the
    [null] it starts from. *)
Definition changeValue (e : t) (param : string) (change : Change) (progress : R)
  : option R :=
  match from change, to change with
  | Some f, Some t_ =>
      let ease := getEasingFunction (easingName (easing change)) in
      let t := ease progress in
      let from := resolveEndpoint e param f in
      let to := resolveEndpoint e param t_ in
      Some (from + (to - from) * t)
  | _, _ =>
      match spike change with
      | Some s => Some (s * Math_pow (decayOf (decay change)) (progress * 100))
      | None =>
          match jump change with
          | Some j => Some j
          | None => None
          end
      end
  end.

(** [viz.updateParameter(param, value)] on every visualizer that has it. *)
Definition setChoreographedParam (e : t) (param : string) (value : R) : t :=
  set_visualizers e
    (map (fun viz =>
            if hasUpdateParameter viz
            then mkVisualizer true (<[param := value]> (params viz))
            else viz)
       (visualizers e)).

Definition applyChange (progress : R) (e : t) (pc : string * Change) : t :=
  match changeValue e (fst pc) (snd pc) progress with
  | Some value => setChoreographedParam e (fst pc) value
  | None => e
  end.

Definition applyStage (e : t) (stage : Stage) (progress : R) : t :=
  fold_left (applyChange progress) (changes stage) e.

(** The loop of [updateSequence]: the first stage whose window holds
    [elapsed], with the progress in it. *)
Fixpoint findStage (l : list Stage) (accumulatedTime elapsed : R)
  : option (Stage * R) :=
  match l with
  | [] => None
  | stage :: rest =>
      let stageStart :=
        match stage_start stage with
        | Some v => if Reqb v 0 then accumulatedTime else v
        | None => accumulatedTime
        end in
      let stageDuration := stage_duration stage in
      if Rleb stageStart elapsed && Rltb elapsed (stageStart + stageDuration)
      then Some (stage, (elapsed - stageStart) / stageDuration)
      else findStage rest (stageStart + stageDuration) elapsed
  end.

Definition updateSequence (e : t) (a : Active.t) (elapsed : R) : t :=
  match stages (Active.sequence a) with
  | None => e
  | Some l =>
      match findStage l 0 elapsed with
      | Some (stage, stageProgress) => applyStage e stage stageProgress
      | None => e
      end
  end.

(** The [filter] of [updateActiveSequences]: which entries stay, and the
    engine after the stages of those that stay were applied. *)
Fixpoint filterActive (currentTime : R) (l : list Active.t) (e : t)
  : list Active.t * t :=
  match l with
  | [] => ([], e)
  | a :: rest =>
      let elapsed := currentTime - Active.startTime a in
      if Rleb (duration (Active.sequence a)) elapsed
      then filterActive currentTime rest e
      else
        let '(kept, e') := filterActive currentTime rest (updateSequence e a elapsed) in
        (a :: kept, e')
  end.

Definition updateActiveSequences (e : t) (currentTime : R) : t :=
  let '(kept, e') := filterActive currentTime (activeSequences e) e in
  set_active e' kept (sequenceHistory e').

(** *** The tick *)

(** One run of [animate()] at time [currentTime], on the audio data of the
    frame as [normalizeAudioData] returned it. *)
Definition animate `{Host} (e : t) (currentTime : R) (audioData : AudioData)
  : Completion t :=
  if negb (running e) then Normal e
  else
    let e1 := set_frameTime e currentTime in
    let e2 := updateBeatTracking e1 currentTime audioData in
    let e3 := updateMemory e2 audioData currentTime in
    let* e4 := checkTriggers e3 audioData currentTime in
    Normal (updateActiveSequences e4 currentTime).

(** What the program around the engine does with it.  [startSequence] is a
    public method as the others are: besides [checkTriggers] the program can
    call it, to start a sequence by hand. *)
Inductive Call :=
| CallDefineSequence (s : Sequence)
| CallStart (now : R)
| CallStop
| CallAnimate (currentTime : R) (audioData : AudioData)
| CallStartSequence (n : string) (startTime : R).

Definition call `{Host} (e : t) (c : Call) : Completion t :=
  match c with
  | CallDefineSequence s => defineSequence e s
  | CallStart now => Normal (start e now)
  | CallStop => Normal (stop e)
  | CallAnimate currentTime audioData => animate e currentTime audioData
  | CallStartSequence n startTime => Normal (startSequence e n startTime)
  end.

(** The engines a program can hold: a constructed one after any calls that
    returned. *)
Inductive reachable `{Host} : t -> Prop :=
| reachable_new vizs configBpm : reachable (new vizs configBpm)
| reachable_call e c e' : reachable e -> call e c = Normal e' -> reachable e'.

(** The engine after a list of ticks. *)
Fixpoint ticks `{Host} (e : t) (l : list (R * AudioData)) : Completion t :=
  match l with
  | [] => Normal e
  | (currentTime, audioData) :: rest =>
      let* e' := animate e currentTime audioData in
      ticks e' rest
  end.

(** *** Notions the statements about the engine use *)

(** The names of the active sequences. *)
Definition activeNames (e : t) : list string :=
  map (fun a => name (Active.sequence a)) (activeSequences e).

(** The test of [updateActiveSequences]: the entry stays. *)
Definition stillRunning (currentTime : R) (a : Active.t) : bool :=
  negb (Rleb (duration (Active.sequence a)) (currentTime - Active.startTime a)).

(** The value a visualizer holds for a parameter: what a query of the
    visualizers would read. *)
Definition liveValue (viz : Visualizer) (param : string) : option R :=
  params viz !! param.

(** The text handed to [eval]. *)
Definition safeExpr `{Host} (expression : string) (a : AudioData) : string :=
  replaceAll "onset" (numberToString (orZero (onset a)))
    (replaceAll "energy" (numberToString (orZero (rms a)))
       (replaceAll "high" (numberToString (orZero (bandValue a "high")))
          (replaceAll "mid" (numberToString (orZero (bandValue a "mid")))
             (replaceAll "bass" (numberToString (orZero (bandValue a "bass")))
                expression)))).

(** A host whose [eval] is disabled (it throws on every text). *)
Definition strictHost : Host :=
  {| js_eval := fun _ _ => Throw; numberToString := fun _ => "0"%string |}.

(** A sequence that its trigger always starts, and one with a text that is
    not an expression. *)
Definition alwaysSequence : Sequence :=
  mkSequence "always" 1000 (TriggerFunction (fun _ _ => true)) None.

Definition brokenSequence : Sequence :=
  mkSequence "broken" 1000 (TriggerString "bass >") None.

Definition silence : AudioData := mkAudioData (Some ∅) (Some 0) (Some 0) None.

(** An engine with one visualizer that holds 0.5 for "intensity". *)
Definition halfIntensity : t :=
  new [mkVisualizer true (<["intensity"%string := 1 / 2]> ∅)] None.

(** [e'] is [e] but for what the visualizers hold. *)
Definition onlyVisualizers (e e' : t) : Prop :=
  e' = set_visualizers e (visualizers e').

(** A frame with a loud bass, a started engine without sequences, and an
    engine with [alwaysSequence] defined. *)
Definition loud : AudioData :=
  mkAudioData (Some (<["bass"%string := 9 / 10]> ∅)) (Some (1 / 2)) (Some 0) None.

Definition startedEngine : t := start (new [] None) 0.

Definition withAlways : t := set_sequences (new [] None) [alwaysSequence].

(** A host that can evaluate one comparison and writes 0.9 as "0.9" (and any
    other number as "0"); every other text is an error to it. *)
Definition comparingHost : Host :=
  {| js_eval := fun _ text =>
       if String.eqb text "0.9 > 0.8" then Normal (JsBool true) else Throw;
     numberToString := fun r =>
       if Reqb r (9 / 10) then "0.9"%string else "0"%string |}.

(** The call starts, by hand, a sequence that has an active instance. *)
Definition startsActive (e : t) (c : Call) : bool :=
  match c with
  | CallStartSequence n _ => isActive e n
  | _ => false
  end.

(** The engines a program reaches when it never starts by hand a sequence
    that has an active instance. *)
Inductive reachableGuarded `{Host} : t -> Prop :=
| guarded_new vizs configBpm : reachableGuarded (new vizs configBpm)
| guarded_call e c e' :
    reachableGuarded e -> startsActive e c = false -> call e c = Normal e' ->
    reachableGuarded e'.

(** [alwaysSequence] started by hand at 0 and again at 5. *)
Definition startedOnce : t := startSequence withAlways "always" 0.

Definition startedTwice : t := startSequence startedOnce "always" 5.

(** A host that evaluates the number literals "1", "0.9" and "0" and writes
    0.9 as "0.9" (and any other number as "0"); every other text is an error
    to it. *)
Definition literalHost : Host :=
  {| js_eval := fun _ text =>
       if String.eqb text "1" then Normal (JsNumber 1)
       else if String.eqb text "0.9" then Normal (JsNumber (9 / 10))
       else if String.eqb text "0" then Normal (JsNumber 0)
       else Throw;
     numberToString := fun r =>
       if Reqb r (9 / 10) then "0.9"%string else "0"%string |}.

(** Sequences whose trigger texts are a number and a feature name, and an
    engine with the two defined. *)
Definition literalSequence : Sequence :=
  mkSequence "literal" 1000 (TriggerString "1") None.

Definition bassSequence : Sequence :=
  mkSequence "bassline" 1000 (TriggerString "bass") None.

Definition withLiterals : t :=
  set_sequences (new [] None) [literalSequence; bassSequence].

(** A trigger text that calls [startSequence] for its own sequence and then
    reads a name that is not defined, the sequence with this trigger, an
    engine with the sequence defined, and a direct [eval] that evaluates this
    one text: it leaves the engine after the call and throws. *)
Definition selfStartingText : string := "this.startSequence('self', 0), nope".

Definition selfStarting : Sequence :=
  mkSequence "self" 1000 (TriggerString selfStartingText) None.

Definition withSelfStarting : t := set_sequences (new [] None) [selfStarting].

Definition callingEval : DirectEval :=
  {| direct_eval := fun scope text =>
       if String.eqb text selfStartingText
       then (startSequence (scope_this scope) "self" 0, Throw)
       else (scope_this scope, Throw) |}.

(** *** Notions the further statements about the engine use *)

(** [this.sequences.get(name)] *)
Definition sequencesGet (e : t) (n : string) : option Sequence :=
  List.find (fun s => String.eqb (name s) n) (sequences e).

(** The names [getEasingFunction] has an entry for. *)
Definition easingNames : list string :=
  ["linear"; "easeIn"; "easeOut"; "easeInOut"; "exponential"]%string.

(** A stage without a start of its own: [start] is missing, or is 0, which
    [stage.start || accumulatedTime] takes for missing. *)
Definition autoStart (s : Stage) : bool :=
  match stage_start s with
  | Some v => Reqb v 0
  | None => true
  end.

(** The sum of the durations of a list of stages. *)
Definition totalDuration (l : list Stage) : R :=
  fold_right (fun s acc => stage_duration s + acc) 0 l.

(** The values [a * i + b] for [i] from 0 to [n - 1]. *)
Definition line (a b : R) (n : nat) : list R :=
  map (fun i => a * INR i + b) (seq 0 n).

(** What the stage writes into the parameters of a visualizer that has
    [updateParameter]. *)
Definition writeChange (e : t) (progress : R) (ps : gmap string R)
    (pc : string * Change) : gmap string R :=
  match changeValue e (fst pc) (snd pc) progress with
  | Some value => <[fst pc := value]> ps
  | None => ps
  end.

End Engine.

(** ** HolographicVisualizer (src/visualizers/holographic/HolographicVisualizer.js)

    One of the visualizers whose [updateParameter] the engine calls. *)

Module Holographic.
Local Open Scope Q_scope.

(** The fields [updateParameter] writes: the three colour settings and the
    numeric entries of [this.variantParams] ([None] when it is unset). *)
Record t := mk {
  colorStyle : Q;
  colorProfile : Q;
  colorVibrance : Q;
  variantParams : option (gmap string Q)
}.

(** [paramMap] of [mapParameterName]. *)
Definition paramMap : list (string * string) :=
  [ ("gridDensity", "density"); ("morphFactor", "morph");
    ("rot4dXW", "rot4dXW"); ("rot4dYW", "rot4dYW"); ("rot4dZW", "rot4dZW");
    ("hue", "hue"); ("intensity", "intensity"); ("saturation", "saturation");
    ("chaos", "chaos"); ("speed", "speed"); ("geometry", "geometryType") ]%string.

Definition colorNames : list string :=
  ["colorStyle"; "colorProfile"; "colorVibrance"]%string.

(** [mapParameterName(globalParam)]; [None] is [null].  (A name that is a
    property of every object, such as "constructor", is outside the model.) *)
Definition mapParameterName (globalParam : string) : option string :=
  if existsb (String.eqb globalParam) colorNames then None
  else
    match List.find (fun entry => String.eqb (fst entry) globalParam) paramMap with
    | Some entry => Some (snd entry)
    | None => Some globalParam
    end.

(** [0.3 + (parseFloat(value) - 5) / 95 * 2.2], the density of a grid density. *)
Definition scaledGridDensity (value : Q) : Q :=
  (3 # 10) + (value - 5) / 95 * (22 # 10).

(** [updateParameter(name, value)] for a number [value]. *)
Definition updateParameter (v : t) (name : string) (value : Q) : t :=
  if String.eqb name "colorStyle"
  then mk value (colorProfile v) (colorVibrance v) (variantParams v)
  else if String.eqb name "colorProfile"
  then mk (colorStyle v) value (colorVibrance v) (variantParams v)
  else if String.eqb name "colorVibrance"
  then mk (colorStyle v) (colorProfile v) value (variantParams v)
  else
    match mapParameterName name, variantParams v with
    | Some mappedParam, Some vp =>
        let scaledValue :=
          if String.eqb name "gridDensity"
          then scaledGridDensity value
          else value in
        mk (colorStyle v) (colorProfile v) (colorVibrance v)
           (Some (<[mappedParam := scaledValue]> vp))
    | _, _ => v
    end.

End Holographic.

(** * Properties *)

(** ** The analyzer *)

Section AnalyzerFacts.
Import Analyzer.
Local Open Scope Q_scope.

Lemma Qltb_lt (x y : Q) : Qltb x y = true <-> x < y.
Proof.
  unfold Qltb. rewrite negb_true_iff. split; intros H.
  - apply Qnot_le_lt. intros Hle. apply Qle_bool_iff in Hle. congruence.
  - destruct (Qle_bool y x) eqn:E; [|reflexivity].
    apply Qle_bool_iff in E. lra.
Qed.

Lemma Qltb_ge (x y : Q) : Qltb x y = false <-> y <= x.
Proof.
  unfold Qltb. rewrite negb_false_iff. apply Qle_bool_iff.
Qed.

Lemma Qle_bool_false (x y : Q) : Qle_bool x y = false -> y < x.
Proof.
  intros H. apply Qnot_le_lt. intros Hle. apply Qle_bool_iff in Hle. congruence.
Qed.

(** *** Sorting *)

Lemma insertAscending_In (x y : Q) (l : list Q) :
  In y (insertAscending x l) <-> y = x \/ In y l.
Proof.
  induction l as [|z l IH]; simpl.
  - intuition.
  - destruct (Qle_bool x z); simpl; [intuition|].
    rewrite IH. intuition.
Qed.

Lemma sortAscending_In (y : Q) (l : list Q) :
  In y (sortAscending l) <-> In y l.
Proof.
  induction l as [|x l IH]; simpl; [tauto|].
  rewrite insertAscending_In, IH. intuition.
Qed.

Lemma insertAscending_length (x : Q) (l : list Q) :
  length (insertAscending x l) = S (length l).
Proof.
  induction l as [|z l IH]; simpl; [reflexivity|].
  destruct (Qle_bool x z); simpl; congruence.
Qed.

Lemma sortAscending_length (l : list Q) :
  length (sortAscending l) = length l.
Proof.
  induction l as [|x l IH]; simpl; [reflexivity|].
  rewrite insertAscending_length. congruence.
Qed.

Lemma insertAscending_filter_length (f : Q -> bool) (x : Q) (l : list Q) :
  length (List.filter f (insertAscending x l)) = length (List.filter f (x :: l)).
Proof.
  induction l as [|z l IH]; [reflexivity|].
  simpl insertAscending. destruct (Qle_bool x z); [reflexivity|].
  simpl in *. destruct (f z), (f x); simpl in *; lia.
Qed.

Lemma sortAscending_filter_length (f : Q -> bool) (l : list Q) :
  length (List.filter f (sortAscending l)) = length (List.filter f l).
Proof.
  induction l as [|x l IH]; [reflexivity|].
  simpl sortAscending. rewrite insertAscending_filter_length.
  simpl. destruct (f x); simpl; lia.
Qed.

Lemma insertAscending_sorted (x : Q) (l : list Q) :
  StronglySorted Qle l -> StronglySorted Qle (insertAscending x l).
Proof.
  induction 1 as [|z l Hs IH Hall]; simpl.
  - constructor; constructor.
  - rewrite List.Forall_forall in Hall.
    destruct (Qle_bool x z) eqn:E.
    + apply Qle_bool_iff in E. constructor.
      * constructor; [assumption|]. apply List.Forall_forall. assumption.
      * constructor; [assumption|].
        apply List.Forall_forall. intros y Hy.
        apply Qle_trans with z; [assumption|]. apply Hall. assumption.
    + apply Qle_bool_false in E. constructor; [assumption|].
      apply List.Forall_forall. intros y Hy.
      apply insertAscending_In in Hy. destruct Hy as [->|Hy].
      * lra.
      * apply Hall. assumption.
Qed.

Lemma sortAscending_sorted (l : list Q) : StronglySorted Qle (sortAscending l).
Proof.
  induction l as [|x l IH]; simpl; [constructor|].
  apply insertAscending_sorted. assumption.
Qed.

(** *** The median *)

Lemma filter_all_length (f : Q -> bool) (l : list Q) :
  (forall y, In y l -> f y = true) -> length (List.filter f l) = length l.
Proof.
  induction l as [|x l IH]; intros H; simpl; [reflexivity|].
  rewrite (H x (or_introl eq_refl)). simpl. rewrite IH; [reflexivity|].
  intros y Hy. apply H. right. assumption.
Qed.

Lemma sorted_nth_counts (s : list Q) :
  StronglySorted Qle s ->
  forall k, (k < length s)%nat ->
    (k + 1 <= countLe (nth k s 0%Q) s)%nat /\
    (length s - k <= countGe (nth k s 0%Q) s)%nat.
Proof.
  induction 1 as [|a s Hs IH Hall]; intros k Hk; simpl in Hk; [lia|].
  rewrite List.Forall_forall in Hall.
  destruct k as [|k]; unfold countLe, countGe; simpl.
  - assert (Haa : Qle_bool a a = true) by (apply Qle_bool_iff; apply Qle_refl).
    rewrite Haa. simpl. split; [lia|].
    rewrite filter_all_length; [lia|].
    intros y Hy. apply Qle_bool_iff. apply Hall. assumption.
  - assert (Hin : In (nth k s 0) s) by (apply nth_In; lia).
    assert (Ham : Qle_bool a (nth k s 0) = true)
      by (apply Qle_bool_iff; apply Hall; assumption).
    rewrite Ham. simpl.
    destruct (IH k ltac:(lia)) as [H1 H2]. unfold countLe, countGe in H1, H2.
    split; [lia|].
    destruct (Qle_bool (nth k s 0) a); simpl; lia.
Qed.

Lemma medianInterval_isMedian (iv : list Q) :
  iv <> [] -> isMedian (medianInterval iv) iv.
Proof.
  intros Hne. unfold medianInterval.
  assert (Hlen : (0 < length iv)%nat) by (destruct iv; simpl; [congruence|lia]).
  pose proof (Nat.div_mod_eq (length iv) 2) as Hdm.
  pose proof (Nat.mod_upper_bound (length iv) 2 ltac:(lia)) as Hmod.
  set (k := (length iv / 2)%nat) in *.
  assert (Hk : (k < length (sortAscending iv))%nat)
    by (rewrite sortAscending_length; lia).
  destruct (sorted_nth_counts _ (sortAscending_sorted iv) k Hk) as [Hle Hge].
  unfold countLe, countGe in Hle, Hge.
  rewrite sortAscending_filter_length in Hle, Hge.
  rewrite sortAscending_length in Hge.
  repeat split.
  - apply sortAscending_In. apply nth_In. assumption.
  - unfold countLe. lia.
  - unfold countGe. lia.
Qed.

Lemma intervals_length (h : list Q) :
  length (intervals h) = (length h - 1)%nat.
Proof.
  induction h as [|x h IH]; [reflexivity|].
  destruct h as [|y h]; [reflexivity|].
  change (intervals (x :: y :: h)) with ((y - x) :: intervals (y :: h)).
  simpl length in *. lia.
Qed.

(** *** The clamp *)

Lemma clampBPM_range (b : Quotient) : 60 <= clampBPM b <= 200.
Proof.
  destruct b as [q|]; simpl.
  - split.
    + apply Q.le_max_l.
    + apply Q.max_lub; [lra|]. apply Q.le_min_l.
  - split; [apply Q.le_max_l|]. apply Q.max_lub; lra.
Qed.

Lemma bpmOfInterval_finite (m : Q) :
  ~ m == 0 -> bpmOfInterval m = Finite (60000 / m).
Proof.
  intros H. unfold bpmOfInterval.
  destruct (Qeq_bool m 0) eqn:E; [|reflexivity].
  apply Qeq_bool_iff in E. contradiction.
Qed.

Lemma clampBPM_fast (m : Q) : 0 < m -> m <= 300 -> clampBPM (bpmOfInterval m) == 200.
Proof.
  intros H0 H1. rewrite bpmOfInterval_finite by lra. simpl.
  assert (H : 200 <= 60000 / m).
  { apply Qle_shift_div_l; [assumption|]. lra. }
  rewrite (Q.min_l 200 (60000 / m)) by assumption.
  apply Q.max_r. lra.
Qed.

Lemma clampBPM_slow (m : Q) : 1000 <= m -> clampBPM (bpmOfInterval m) == 60.
Proof.
  intros H. rewrite bpmOfInterval_finite by lra. simpl.
  assert (Hq : 60000 / m <= 60).
  { apply Qle_shift_div_r; [lra|]. lra. }
  rewrite (Q.min_r 200 (60000 / m)) by lra.
  apply Q.max_l. assumption.
Qed.

(** *** [estimateBPM] *)

Lemma estimateBPM_history (a : t) :
  onsetHistory (snd (estimateBPM a)) = onsetHistory a.
Proof.
  unfold estimateBPM. destruct (length (onsetHistory a) <? 4)%nat; reflexivity.
Qed.

Lemma estimateBPM_enough (a : t) :
  (4 <= length (onsetHistory a))%nat ->
  estimateBPM a =
    (clampBPM (bpmOfInterval (medianInterval (intervals (onsetHistory a)))),
     snd (estimateBPM a)) /\
  estimatedBPM (snd (estimateBPM a)) =
    clampBPM (bpmOfInterval (medianInterval (intervals (onsetHistory a)))).
Proof.
  intros H. unfold estimateBPM.
  destruct (length (onsetHistory a) <? 4)%nat eqn:E.
  - apply Nat.ltb_lt in E. lia.
  - split; reflexivity.
Qed.

Lemma estimateBPM_few (a : t) :
  (length (onsetHistory a) < 4)%nat -> estimateBPM a = (120, a).
Proof.
  intros H. unfold estimateBPM.
  destruct (length (onsetHistory a) <? 4)%nat eqn:E; [reflexivity|].
  apply Nat.ltb_ge in E. lia.
Qed.

Lemma detectOnset_estimate (a : t) (c : Clock) :
  estimatedBPM (snd (detectOnset a c)) = estimatedBPM a.
Proof.
  unfold detectOnset.
  destruct (Qltb (onsetThreshold a) (spectralFlux a)
            && Qltb 100 (getCurrentTime c - lastOnsetTime a)); reflexivity.
Qed.

(** What [analyze()] does to the estimate. *)
Lemma analyze_bpm (a : t) (pull : option Measurement) (c : Clock) :
  let f := fst (analyze a pull c) in
  let a' := snd (analyze a pull c) in
  Frame.bpm f = estimatedBPM a' /\
  ((length (onsetHistory a') < 4)%nat -> estimatedBPM a' = estimatedBPM a) /\
  (analyser a = true -> pull <> None -> (4 <= length (onsetHistory a'))%nat ->
   estimatedBPM a' =
     clampBPM (bpmOfInterval (medianInterval (intervals (onsetHistory a'))))).
Proof.
  unfold analyze. destruct (analyser a) eqn:Ha; simpl negb; cbv iota.
  2:{ simpl. repeat split; congruence. }
  destruct pull as [m|].
  2:{ simpl. repeat split; congruence. }
  pose proof (detectOnset_estimate (analyzeFeatures a m) c) as Hd.
  destruct (detectOnset (analyzeFeatures a m) c) as [ev a2]. simpl in Hd.
  destruct (4 <=? length (onsetHistory a2))%nat eqn:E; simpl.
  - apply Nat.leb_le in E. rewrite estimateBPM_history.
    repeat split.
    + intros Hlt. lia.
    + intros _ _ _. apply estimateBPM_enough. assumption.
  - apply Nat.leb_gt in E. repeat split.
    + intros _. exact Hd.
    + intros _ _ Hge. lia.
Qed.

(** C2. With at least four recorded onsets [estimateBPM] sets the estimate to
    60000 divided by the median of the consecutive inter-onset intervals,
    clamped to the range from 60 to 200 (intervals of 10 ms give 200, of
    2000 ms give 60); with fewer the estimate, 120 at first, stays as it
    was, in [estimateBPM] and in the [analyze()] that would call it. *)
Theorem estimateBPM_median_clamped (a : Analyzer.t) :
  ((4 <= length (onsetHistory a))%nat ->
   let iv := intervals (onsetHistory a) in
   let m := medianInterval iv in
   let a' := snd (estimateBPM a) in
   isMedian m iv /\
   fst (estimateBPM a) = estimatedBPM a' /\
   estimatedBPM a' = clampBPM (bpmOfInterval m) /\
   (~ m == 0 -> estimatedBPM a' = Qmax 60 (Qmin 200 (60000 / m))) /\
   60 <= estimatedBPM a' <= 200 /\
   ((forall d, In d iv -> d == 10) -> estimatedBPM a' == 200) /\
   ((forall d, In d iv -> d == 2000) -> estimatedBPM a' == 60))
  /\
  ((length (onsetHistory a) < 4)%nat -> snd (estimateBPM a) = a)
  /\
  (forall pull c,
     let f := fst (analyze a pull c) in
     let a' := snd (analyze a pull c) in
     Frame.bpm f = estimatedBPM a' /\
     ((length (onsetHistory a') < 4)%nat -> estimatedBPM a' = estimatedBPM a) /\
     (analyser a = true -> pull <> None -> (4 <= length (onsetHistory a'))%nat ->
      estimatedBPM a' =
        clampBPM (bpmOfInterval (medianInterval (intervals (onsetHistory a'))))))
  /\
  (forall o, estimatedBPM (new o) = 120).
Proof.
  split; [|split; [|split]].
  - intros Hlen iv m a'.
    destruct (estimateBPM_enough a Hlen) as [Hpair Hest].
    assert (Hne : iv <> []).
    { intros E. apply (f_equal (@length Q)) in E. unfold iv in E.
      rewrite intervals_length in E. simpl in E. lia. }
    pose proof (medianInterval_isMedian iv Hne) as Hmed.
    fold iv m in Hest, Hpair. fold a' in Hest.
    repeat split.
    + apply Hmed.
    + apply Hmed.
    + apply Hmed.
    + rewrite Hpair. simpl. symmetry. exact Hest.
    + exact Hest.
    + intros Hm. rewrite Hest, bpmOfInterval_finite by assumption. reflexivity.
    + rewrite Hest. apply clampBPM_range.
    + rewrite Hest. apply clampBPM_range.
    + intros Hall. rewrite Hest.
      assert (Hm : m == 10) by (apply Hall; apply Hmed).
      apply clampBPM_fast; lra.
    + intros Hall. rewrite Hest.
      assert (Hm : m == 2000) by (apply Hall; apply Hmed).
      apply clampBPM_slow; lra.
  - intros Hlen. rewrite estimateBPM_few by assumption. reflexivity.
  - intros pull c. apply analyze_bpm.
  - reflexivity.
Qed.

Lemma estimateBPM_median_clamped_witness :
  (4 <= length (onsetHistory fourOnsets))%nat /\
  estimatedBPM (snd (estimateBPM fourOnsets)) == 120 /\
  estimatedBPM (snd (estimateBPM (withHistory [0; 10; 20; 30; 40]))) == 200 /\
  estimatedBPM (snd (estimateBPM (withHistory [0; 2000; 4000; 6000]))) == 60 /\
  (length (onsetHistory (new defaultOptions)) < 4)%nat /\
  snd (estimateBPM (new defaultOptions)) = new defaultOptions.
Proof.
  assert (H4 : (4 <= length (onsetHistory fourOnsets))%nat) by (vm_compute; lia).
  assert (H0 : (length (onsetHistory (new defaultOptions)) < 4)%nat)
    by (vm_compute; lia).
  destruct (estimateBPM_median_clamped fourOnsets) as [Hmany _].
  destruct (estimateBPM_median_clamped (withHistory [0; 10; 20; 30; 40]))
    as [Hfast _].
  destruct (estimateBPM_median_clamped (withHistory [0; 2000; 4000; 6000]))
    as [Hslow _].
  destruct (estimateBPM_median_clamped (new defaultOptions)) as [_ [Hfew _]].
  split; [exact H4|]. split; [|split; [|split; [|split]]].
  - destruct (Hmany H4) as [_ [_ [Hest _]]]. rewrite Hest. vm_compute. reflexivity.
  - destruct (Hfast ltac:(simpl; lia)) as [_ [_ [_ [_ [_ [H10 _]]]]]].
    apply H10. simpl. intros d Hd.
    repeat (destruct Hd as [<-|Hd]; [reflexivity|]). destruct Hd.
  - destruct (Hslow ltac:(simpl; lia)) as [_ [_ [_ [_ [_ [_ H2000]]]]]].
    apply H2000. simpl. intros d Hd.
    repeat (destruct Hd as [<-|Hd]; [reflexivity|]). destruct Hd.
  - exact H0.
  - exact (Hfew H0).
Defined.

(** *** Reachable analyzers *)

Lemma bandNames_lookup (n : string) :
  is_Some ((list_to_map canonicalBands : gmap string Band) !! n) <-> In n bandNames.
Proof.
  rewrite <- elem_of_dom, dom_list_to_map_L, elem_of_list_to_set.
  unfold bandNames. rewrite list_elem_of_In. reflexivity.
Qed.

Lemma analyze_bands (a : t) (pull : option Measurement) (c : Clock) (n : string) :
  is_Some (smoothedBands (snd (analyze a pull c)) !! n) <->
  is_Some (smoothedBands a !! n).
Proof.
  unfold analyze. destruct (analyser a); simpl negb; cbv iota; [|reflexivity].
  destruct pull as [m|]; [|reflexivity].
  assert (Hf : is_Some (smoothedBands (analyzeFeatures a m) !! n) <->
               is_Some (smoothedBands a !! n)).
  { simpl. rewrite map_lookup_imap.
    destruct (smoothedBands a !! n); simpl; split; intros [x Hx];
      try discriminate; eauto. }
  assert (Hd : smoothedBands (snd (detectOnset (analyzeFeatures a m) c)) =
               smoothedBands (analyzeFeatures a m)).
  { unfold detectOnset. destruct (_ && _); reflexivity. }
  destruct (detectOnset (analyzeFeatures a m) c) as [ev a2]. simpl in Hd.
  assert (He : smoothedBands (snd (estimateBPM a2)) = smoothedBands a2).
  { unfold estimateBPM. destruct (_ <? _)%nat; reflexivity. }
  destruct (4 <=? length (onsetHistory a2))%nat; simpl.
  - rewrite He, Hd. exact Hf.
  - rewrite Hd. exact Hf.
Qed.

Lemma reachable_bands (a : t) :
  reachable a -> forall n, is_Some (smoothedBands a !! n) <-> In n bandNames.
Proof.
  induction 1 as [o|a pull c Hr IH]; intros n.
  - apply bandNames_lookup.
  - rewrite analyze_bands. apply IH.
Qed.

Lemma reachable_bpm_range (a : t) :
  reachable a -> 60 <= estimatedBPM a <= 200.
Proof.
  induction 1 as [o|a pull c Hr IH].
  - simpl. lra.
  - destruct (analyze_bpm a pull c) as [_ [Hfew Hmany]].
    destruct (analyser a) eqn:Ha.
    2:{ unfold analyze. rewrite Ha. exact IH. }
    destruct pull as [m|].
    2:{ unfold analyze. rewrite Ha. exact IH. }
    destruct (Nat.lt_ge_cases
                (length (onsetHistory (snd (analyze a (Some m) c)))) 4)
      as [Hlt|Hge].
    + rewrite (Hfew Hlt). exact IH.
    + rewrite (Hmany eq_refl ltac:(discriminate) Hge). apply clampBPM_range.
Qed.

Lemma pushOnset_length (cap : nat) (h : list Q) (now : Q) :
  (length h <= cap)%nat -> (length (pushOnset cap h now) <= cap)%nat.
Proof.
  intros H. unfold pushOnset.
  assert (Hl : length (h ++ [now]) = S (length h))
    by (rewrite length_app; simpl; lia).
  destruct (cap <? length (h ++ [now]))%nat eqn:E.
  - destruct (h ++ [now]) as [|x l]; simpl in *; lia.
  - apply Nat.ltb_ge in E. exact E.
Qed.

Lemma detectOnset_cap (a : t) (c : Clock) :
  (length (onsetHistory a) <= maxOnsetHistory a)%nat ->
  (length (onsetHistory (snd (detectOnset a c)))
   <= maxOnsetHistory (snd (detectOnset a c)))%nat.
Proof.
  intros H. unfold detectOnset. destruct (_ && _); simpl; [|exact H].
  apply pushOnset_length. exact H.
Qed.

Lemma analyze_cap (a : t) (pull : option Measurement) (c : Clock) :
  (length (onsetHistory a) <= maxOnsetHistory a)%nat ->
  (length (onsetHistory (snd (analyze a pull c)))
   <= maxOnsetHistory (snd (analyze a pull c)))%nat.
Proof.
  intros H. unfold analyze. destruct (analyser a); simpl negb; cbv iota; [|exact H].
  destruct pull as [m|]; [|exact H].
  pose proof (detectOnset_cap (analyzeFeatures a m) c H) as Hd.
  destruct (detectOnset (analyzeFeatures a m) c) as [ev a2]. simpl in Hd.
  destruct (4 <=? length (onsetHistory a2))%nat; simpl; [|exact Hd].
  unfold estimateBPM. destruct (_ <? _)%nat; simpl; exact Hd.
Qed.

Lemma reachable_history_cap (a : t) :
  reachable a -> (length (onsetHistory a) <= maxOnsetHistory a)%nat.
Proof.
  induction 1 as [o|a pull c Hr IH].
  - simpl. lia.
  - apply analyze_cap. exact IH.
Qed.

(** *** The silent frame *)

Lemma bandNames_NoDup : NoDup bandNames.
Proof.
  apply (bool_decide_unpack _). vm_compute. exact I.
Qed.

(** C5. When the raw audio data cannot be obtained (no analyser node, or
    pulling the buffers throws) [analyze()] returns, without an error and
    without changing the analyzer, the silent frame: each of the eight bands
    zero, the spectral centroid, rolloff and flux zero, the rms zero, the
    onset strength zero and an onset event that is not detected (its time is
    the clock's, or [Date.now()] when the time provider throws); the frame's
    bpm is the estimate held so far. *)
Theorem analyze_without_audio_is_silent
    (a : Analyzer.t) (pull : option Measurement) (c : Clock) :
  reachable a ->
  analyser a = false \/ pull = None ->
  let f := fst (analyze a pull c) in
  snd (analyze a pull c) = a /\
  f = createSilentFrame a c /\
  (NoDup bandNames /\ length bandNames = 8%nat) /\
  (forall n, is_Some (Frame.bands f !! n) <-> In n bandNames) /\
  (forall n, In n bandNames -> Frame.bands f !! n = Some 0) /\
  (forall n, In n bandNames ->
     exists b, Frame.bandDetails f !! n = Some b /\ value b = 0) /\
  Frame.spectralCentroid f = 0 /\
  Frame.spectralRolloff f = 0 /\
  Frame.spectralFlux f = 0 /\
  Frame.rms f = 0 /\
  Frame.onset f = 0 /\
  Frame.onsetEvent f =
    mkOnset false 0 (match getNow c with Some v => v | None => dateNow c end) /\
  Frame.bpm f = estimatedBPM a /\
  60 <= Frame.bpm f <= 200.
Proof.
  intros Hr Hfail f.
  assert (Han : analyze a pull c = (createSilentFrame a c, a)).
  { unfold analyze. destruct Hfail as [Ha| ->].
    - rewrite Ha. reflexivity.
    - destruct (analyser a); reflexivity. }
  unfold f. rewrite Han. simpl.
  pose proof (reachable_bands a Hr) as Hb.
  repeat split.
  - apply bandNames_NoDup.
  - intros [x Hx]. apply Hb. rewrite lookup_fmap in Hx.
    destruct (smoothedBands a !! n); [eauto|discriminate].
  - intros Hin. apply Hb in Hin. destruct Hin as [b Hbn].
    rewrite lookup_fmap, Hbn. simpl. eauto.
  - intros n Hin. apply Hb in Hin. destruct Hin as [b Hbn].
    rewrite lookup_fmap, Hbn. reflexivity.
  - intros n Hin. apply Hb in Hin. destruct Hin as [b Hbn].
    rewrite lookup_fmap, Hbn. simpl. eauto.
  - apply (reachable_bpm_range a Hr).
  - apply (reachable_bpm_range a Hr).
Qed.

Lemma analyze_without_audio_is_silent_witness :
  let f := fst (analyze (new defaultOptions) None (mkClock None 42)) in
  snd (analyze (new defaultOptions) None (mkClock None 42)) = new defaultOptions /\
  Frame.bands f !! "bass"%string = Some 0 /\
  Frame.onsetEvent f = mkOnset false 0 42 /\
  Frame.bpm f = 120.
Proof.
  destruct (analyze_without_audio_is_silent (new defaultOptions) None
              (mkClock None 42) (reachable_new defaultOptions) (or_intror eq_refl))
    as [Hs [_ [_ [_ [Hz [_ [_ [_ [_ [_ [_ [He [Hb _]]]]]]]]]]]]].
  split; [exact Hs|]. split.
  - apply Hz. unfold bandNames. simpl. tauto.
  - split; [exact He|exact Hb].
Defined.

(** *** Onsets *)

Lemma detectOnset_fires (a : t) (c : Clock) :
  detected (fst (detectOnset a c)) = true <->
  onsetThreshold a < spectralFlux a /\ 100 < getCurrentTime c - lastOnsetTime a.
Proof.
  unfold detectOnset.
  destruct (Qltb (onsetThreshold a) (spectralFlux a)
            && Qltb 100 (getCurrentTime c - lastOnsetTime a)) eqn:E; simpl.
  - apply andb_true_iff in E. rewrite !Qltb_lt in E. tauto.
  - split; [discriminate|]. intros [H1 H2].
    apply Qltb_lt in H1, H2. rewrite H1, H2 in E. discriminate.
Qed.

Lemma detectOnset_effect (a : t) (c : Clock) :
  let now := getCurrentTime c in
  let ev := fst (detectOnset a c) in
  let a' := snd (detectOnset a c) in
  strength ev = spectralFlux a /\ time ev = now /\ lastOnsetEvent a' = ev /\
  (detected ev = true ->
   lastOnsetTime a' = now /\
   onsetHistory a' = pushOnset (maxOnsetHistory a) (onsetHistory a) now) /\
  (detected ev = false ->
   lastOnsetTime a' = lastOnsetTime a /\ onsetHistory a' = onsetHistory a).
Proof.
  unfold detectOnset. destruct (_ && _); simpl; repeat split; discriminate.
Qed.

(** An onset reported by [analyze()] is more than 100 ms after the onset
    recorded last, and becomes the onset recorded last. *)
Lemma analyze_onset (a : t) (pull : option Measurement) (c : Clock) :
  let ev := Frame.onsetEvent (fst (analyze a pull c)) in
  let a' := snd (analyze a pull c) in
  (detected ev = true ->
   lastOnsetTime a + 100 < time ev /\ lastOnsetTime a' = time ev) /\
  (detected ev = false -> lastOnsetTime a' = lastOnsetTime a).
Proof.
  unfold analyze. destruct (analyser a); simpl negb; cbv iota.
  2:{ simpl. split; [discriminate|reflexivity]. }
  destruct pull as [m|].
  2:{ simpl. split; [discriminate|reflexivity]. }
  pose proof (detectOnset_fires (analyzeFeatures a m) c) as Hf.
  pose proof (detectOnset_effect (analyzeFeatures a m) c) as He.
  destruct (detectOnset (analyzeFeatures a m) c) as [ev a2].
  simpl in Hf, He. destruct He as [_ [Ht [_ [Hyes Hno]]]].
  assert (Hl : lastOnsetTime (snd (estimateBPM a2)) = lastOnsetTime a2).
  { unfold estimateBPM. destruct (_ <? _)%nat; reflexivity. }
  destruct (4 <=? length (onsetHistory a2))%nat; simpl; rewrite ?Hl; split.
  - intros Hd. destruct (Hyes Hd) as [Hlast _].
    apply Hf in Hd. destruct Hd as [_ Hgap].
    rewrite Ht, Hlast. split; [lra|reflexivity].
  - intros Hd. apply Hno. exact Hd.
  - intros Hd. destruct (Hyes Hd) as [Hlast _].
    apply Hf in Hd. destruct Hd as [_ Hgap].
    rewrite Ht, Hlast. split; [lra|reflexivity].
  - intros Hd. apply Hno. exact Hd.
Qed.

Lemma run_spaced (inputs : list (option Measurement * Clock)) (a : t) :
  spaced (lastOnsetTime a) (onsetTimes (fst (run a inputs))).
Proof.
  revert a. induction inputs as [|[pull c] rest IH]; intros a; simpl; [exact I|].
  pose proof (analyze_onset a pull c) as [Hyes Hno].
  destruct (analyze a pull c) as [f a1]. simpl in Hyes, Hno.
  specialize (IH a1). destruct (run a1 rest) as [fs a2]. simpl in IH |- *.
  unfold onsetTimes in *. simpl.
  destruct (detected (Frame.onsetEvent f)) eqn:Hd; simpl.
  - destruct (Hyes eq_refl) as [Hgap Hlast]. rewrite Hlast in IH. tauto.
  - rewrite (Hno eq_refl) in IH. exact IH.
Qed.

Lemma spaced_after (prev : Q) (ts : list Q) :
  spaced prev ts -> forall t, In t ts -> prev + 100 < t.
Proof.
  revert prev. induction ts as [|u ts IH]; intros prev Hs t Hin; [destruct Hin|].
  destruct Hs as [Hu Hs]. destruct Hin as [->|Hin]; [exact Hu|].
  specialize (IH u Hs t Hin). lra.
Qed.

Lemma filter_none (f : Q -> bool) (l : list Q) :
  (forall u, In u l -> f u = false) -> List.filter f l = [].
Proof.
  induction l as [|x l IH]; intros H; simpl; [reflexivity|].
  rewrite (H x (or_introl eq_refl)). apply IH.
  intros u Hu. apply H. right. exact Hu.
Qed.

Lemma spaced_window (w prev : Q) (ts : list Q) :
  spaced prev ts -> (onsetsInWindow w ts <= 1)%nat.
Proof.
  unfold onsetsInWindow. revert prev.
  induction ts as [|t ts IH]; intros prev Hs; simpl; [lia|].
  destruct Hs as [Ht Hs].
  destruct (inWindow w t) eqn:E; [|apply (IH t Hs)].
  simpl. apply andb_true_iff in E. destruct E as [E0 E].
  apply Qle_bool_iff in E0, E.
  rewrite filter_none; [simpl; lia|].
  intros u Hu. pose proof (spaced_after t ts Hs u Hu) as Hlt.
  unfold inWindow. apply andb_false_iff. right.
  destruct (Qle_bool u (w + 100)) eqn:E2; [|reflexivity].
  apply Qle_bool_iff in E2. lra.
Qed.

(** C6, as the code has it.  [detectOnset] reports an onset exactly when the
    spectral flux exceeds the onset threshold and MORE than 100 ms have passed
    since the onset recorded last; it then records the time and appends it
    to the onset history, which drops its oldest entry when it would exceed
    [maxOnsetHistory] (32 by default); otherwise time and history stay.  So
    in the frames of any session, whatever the flux and the clock, no window
    of 100 ms holds two onsets. *)
Theorem detectOnset_fires_after_more_than_100ms (a : Analyzer.t) (c : Clock) :
  let now := getCurrentTime c in
  let ev := fst (detectOnset a c) in
  let a' := snd (detectOnset a c) in
  (detected ev = true <->
   onsetThreshold a < spectralFlux a /\ 100 < now - lastOnsetTime a) /\
  strength ev = spectralFlux a /\ time ev = now /\ lastOnsetEvent a' = ev /\
  (detected ev = true ->
   lastOnsetTime a' = now /\
   onsetHistory a' =
     if (maxOnsetHistory a <? length (onsetHistory a ++ [now]))%nat
     then tl (onsetHistory a ++ [now]) else onsetHistory a ++ [now]) /\
  (detected ev = false ->
   lastOnsetTime a' = lastOnsetTime a /\ onsetHistory a' = onsetHistory a) /\
  ((length (onsetHistory a) <= maxOnsetHistory a)%nat ->
   (length (onsetHistory a') <= maxOnsetHistory a')%nat) /\
  (reachable a -> (length (onsetHistory a) <= maxOnsetHistory a)%nat) /\
  maxOnsetHistory (new defaultOptions) = 32%nat /\
  (forall inputs w,
     (onsetsInWindow w (onsetTimes (fst (run a inputs))) <= 1)%nat).
Proof.
  intros now ev a'.
  destruct (detectOnset_effect a c) as [Hs [Ht [Hl [Hyes Hno]]]].
  split; [apply detectOnset_fires|].
  split; [exact Hs|]. split; [exact Ht|]. split; [exact Hl|].
  split; [exact Hyes|]. split; [exact Hno|].
  split; [apply detectOnset_cap|].
  split; [apply reachable_history_cap|].
  split; [reflexivity|].
  intros inputs w. apply (spaced_window w (lastOnsetTime a)). apply run_spaced.
Qed.

Lemma detectOnset_fires_after_more_than_100ms_witness :
  detected (fst (detectOnset heardAt1000 (clockAt 1101))) = true /\
  (length (onsetHistory (snd (detectOnset heardAt1000 (clockAt 1101)))) <= 32)%nat /\
  (onsetsInWindow 1000
     (onsetTimes (fst (run (new defaultOptions) every40ms))) <= 1)%nat.
Proof.
  destruct (detectOnset_fires_after_more_than_100ms heardAt1000 (clockAt 1101))
    as [Hiff [_ [_ [_ [_ [_ [Hcap _]]]]]]].
  destruct (detectOnset_fires_after_more_than_100ms (new defaultOptions) (clockAt 0))
    as [_ [_ [_ [_ [_ [_ [_ [_ [_ Hwin]]]]]]]]].
  split.
  - apply Hiff. vm_compute. split; reflexivity.
  - split.
    + apply Hcap. vm_compute. lia.
    + apply Hwin.
Defined.

(** C6 as stated fails at exactly 100 ms: the flux is above the threshold and
    100 ms have passed since the onset at 1000 ms, and no onset is reported,
    in [detectOnset] and in the frames of [analyze()]. *)
Lemma detectOnset_silent_at_exactly_100ms :
  onsetThreshold heardAt1000 < spectralFlux heardAt1000 /\
  100 <= getCurrentTime (clockAt 1100) - lastOnsetTime heardAt1000 /\
  detected (fst (detectOnset heardAt1000 (clockAt 1100))) = false /\
  onsetTimes
    (fst (run (new defaultOptions)
            [ (Some (fluxOnly (1 # 2)), clockAt 1000);
              (Some (fluxOnly (1 # 2)), clockAt 1100) ])) = [1000].
Proof.
  repeat split; vm_compute; congruence.
Qed.

(** Frames every 40 ms with the flux above the threshold in each: an onset
    every third frame. *)
Example onsets_every_40ms :
  Forall2 Qeq (onsetTimes (fst (run (new defaultOptions) every40ms)))
    [1000; 1120; 1240; 1360].
Proof.
  vm_compute. repeat constructor.
Qed.

End AnalyzerFacts.

(** ** The bass-momentum pattern *)

Section RotationFacts.
Import Rotation.
Local Open Scope Q_scope.

(** C3, as the code has it.  An update of [bass_momentum] adds 0.3 times the
    bass to [momentum.zw] and 0.1 times the bass to [momentum.xw] only when the
    bass is above 0.6, and then, in the same update, multiplies the three
    components by the decay.  From no momentum the bass values 0.9, 0, 0, 0, 0
    with decay 0.98 leave [momentum.zw] at 0.2646, 0.259308, 0.25412184,
    0.2490394032 and 0.244058615136 after the successive updates, which is
    0.2646, 0.2593, 0.2541, 0.2490, 0.2441 to four places. *)
Theorem bass_momentum_accumulates_then_decays (bassHit decay : Q) (m : Momentum) :
  let m' := snd (bass_momentum_update bassHit decay m) in
  (6 # 10 < bassHit ->
   zw m' = (zw m + bassHit * (3 # 10)) * decay /\
   xw m' = (xw m + bassHit * (1 # 10)) * decay /\
   yw m' = yw m * decay) /\
  (bassHit <= 6 # 10 ->
   zw m' = zw m * decay /\ xw m' = xw m * decay /\ yw m' = yw m * decay) /\
  (forall s bass,
     momentum (snd (update_bass_momentum s bass)) =
     snd (bass_momentum_update (bassOf bass) (98 # 100) (momentum s))) /\
  Forall2 Qeq (zwTrace (98 # 100) [9 # 10; 0; 0; 0; 0])
    [2646 # 10000; 259308 # 1000000; 25412184 # 100000000;
     2490394032 # 10000000000; 244058615136 # 1000000000000] /\
  agree (5 # 100000) (zwTrace (98 # 100) [9 # 10; 0; 0; 0; 0])
    [2646 # 10000; 2593 # 10000; 2541 # 10000; 2490 # 10000; 2441 # 10000].
Proof.
  intros m'. split; [|split; [|split; [|split]]].
  - intros H. apply Qltb_lt in H. unfold m', bass_momentum_update.
    rewrite H. simpl. repeat split.
  - intros H. apply Qltb_ge in H. unfold m', bass_momentum_update.
    rewrite H. simpl. repeat split.
  - intros s bass. unfold update_bass_momentum.
    destruct (bass_momentum_update (bassOf bass) (98 # 100) (momentum s)).
    reflexivity.
  - vm_compute. repeat constructor.
  - unfold agree. vm_compute. repeat constructor; discriminate.
Qed.

Lemma bass_momentum_accumulates_then_decays_witness :
  zw (snd (bass_momentum_update (9 # 10) (98 # 100) zeroMomentum)) ==
    2646 # 10000 /\
  zw (snd (bass_momentum_update 0 (98 # 100) (mkMomentum 0 0 (2646 # 10000)))) ==
    259308 # 1000000.
Proof.
  destruct (bass_momentum_accumulates_then_decays (9 # 10) (98 # 100) zeroMomentum)
    as [Hhit _].
  destruct (bass_momentum_accumulates_then_decays 0 (98 # 100)
              (mkMomentum 0 0 (2646 # 10000))) as [_ [Hquiet _]].
  split.
  - destruct (Hhit ltac:(reflexivity)) as [Hz _]. rewrite Hz. reflexivity.
  - destruct (Hquiet ltac:(discriminate)) as [Hz _]. rewrite Hz. reflexivity.
Defined.

(** C3 as stated fails: after the first update [momentum.zw] is 0.2646, not
    0.27, and the claimed list is off by about 0.005 at every place. *)
Lemma bass_momentum_trace_is_not_the_claimed_one :
  nth 0 (zwTrace (98 # 100) [9 # 10; 0; 0; 0; 0]) 0 == 2646 # 10000 /\
  ~ agree (1 # 1000) (zwTrace (98 # 100) [9 # 10; 0; 0; 0; 0])
      [27 # 100; 2646 # 10000; 2593 # 10000; 2541 # 10000; 2490 # 10000].
Proof.
  split; [reflexivity|].
  unfold agree. intros H. inversion H as [|x y xs ys Hxy Hrest]; subst.
  vm_compute in Hxy. apply Hxy. reflexivity.
Qed.

End RotationFacts.

(** ** The hybrid parameter engine *)

Section HybridFacts.
Import Hybrid.
Local Open Scope Q_scope.

Variable log2_1p : Q -> Q.
Variable _clampParameter : string -> Q -> Q.

Local Abbreviation applyRouting := (applyRouting log2_1p).
Local Abbreviation applyReactions := (applyReactions log2_1p).
Local Abbreviation contribution := (contribution log2_1p).
Local Abbreviation reactionOffset := (reactionOffset log2_1p).
Local Abbreviation calculate := (calculate log2_1p _clampParameter).

Lemma applyRouting_lookup (e : t) (audio : AudioFrame)
    (result : gmap string Q) (r : AudioRouting) (p : string) :
  orZero (applyRouting e audio result r !! p) ==
  orZero (result !! p) +
  (if bool_decide (parameter r = p) then contribution e audio r else 0).
Proof.
  unfold Hybrid.applyRouting, Hybrid.contribution.
  destruct (Qltb (_getBandValue audio (sourceBand r)) (threshold r)).
  - destruct (bool_decide (parameter r = p)); lra.
  - case_bool_decide as Hp.
    + subst p. rewrite lookup_insert_eq. simpl. reflexivity.
    + rewrite lookup_insert_ne by assumption. lra.
Qed.

Lemma fold_applyRouting_lookup (e : t) (audio : AudioFrame)
    (rs : list AudioRouting) (result : gmap string Q) (p : string) :
  orZero (fold_left (applyRouting e audio) rs result !! p) ==
  orZero (result !! p) +
  fold_right Qplus 0
    (map (contribution e audio)
       (List.filter (fun r => bool_decide (parameter r = p)) rs)).
Proof.
  revert result. induction rs as [|r rs IH]; intros result; simpl.
  - lra.
  - rewrite IH, applyRouting_lookup.
    destruct (bool_decide (parameter r = p)); simpl; lra.
Qed.

Lemma addChoreography_lookup (e : t) (result : gmap string Q) (p : string) :
  orZero (addChoreography e result !! p) ==
  orZero (result !! p) + orZero (choreographyOffsets e !! p) * choreographyAmount e.
Proof.
  unfold addChoreography.
  apply (map_fold_weak_ind
           (fun (r : gmap string Q) (m : gmap string Q) =>
              orZero (r !! p) ==
              orZero (result !! p) + orZero (m !! p) * choreographyAmount e)).
  - rewrite lookup_empty. simpl. lra.
  - intros k x m r Hk IH.
    destruct (decide (k = p)) as [->|Hne].
    + rewrite !lookup_insert_eq. simpl. rewrite IH, Hk. simpl. lra.
    + rewrite !lookup_insert_ne by assumption. exact IH.
Qed.

(** C1. The loop over the routings adds to a parameter's entry the sum, over
    the routings that target the parameter, of zero when the routing's band
    value is below its threshold and otherwise of the curved band value times
    the routing's amount times the global reaction amount; [calculate]
    returns the clamp of base, choreography and that sum.  With bass at 1.0
    and mid at 0.5, both linear with threshold 0, on "intensity", and a frame
    with bass 0.4 and mid 0.6, the sum is 0.7. *)
Theorem reactionOffset_sums_routings (e : Hybrid.t) (audio : AudioFrame) (p : string) :
  (forall result : gmap string Q,
     orZero (applyReactions e audio result !! p) ==
     orZero (result !! p) + reactionOffset e audio p) /\
  reactionOffset e audio p =
    fold_right Qplus 0
      (map (fun r =>
              if Qltb (_getBandValue audio (sourceBand r)) (threshold r) then 0
              else curve_apply log2_1p (curve r) (_getBandValue audio (sourceBand r))
                   * amount r * reactionAmount e)
         (List.filter (fun r => bool_decide (parameter r = p)) (routings e))) /\
  calculate e audio !! p =
    _clampParameter p <$>
      (applyReactions e audio (addChoreography e (applyBase e)) !! p) /\
  orZero (applyReactions e audio (addChoreography e (applyBase e)) !! p) ==
    orZero (baseParameters e !! p) * manualAmount e +
    orZero (choreographyOffsets e !! p) * choreographyAmount e +
    reactionOffset e audio p /\
  reactionOffset intensityEngine bassMidFrame "intensity" == 7 # 10 /\
  orZero (applyReactions intensityEngine bassMidFrame ∅ !! "intensity"%string) == 7 # 10.
Proof.
  split; [|split; [|split; [|split; [|split]]]].
  - intros result. apply fold_applyRouting_lookup.
  - reflexivity.
  - unfold Hybrid.calculate, clampAll. rewrite map_lookup_imap.
    destruct (_ !! p); reflexivity.
  - unfold Hybrid.applyReactions. rewrite fold_applyRouting_lookup, addChoreography_lookup.
    unfold applyBase. rewrite lookup_fmap.
    fold (Hybrid.reactionOffset log2_1p e audio p).
    destruct (baseParameters e !! p); simpl; lra.
  - vm_compute. reflexivity.
  - vm_compute. reflexivity.
Qed.

End HybridFacts.

(** ** Texts: the replacement of a name *)

Section TextFacts.

Lemma prefix_append (p v : string) : String.prefix p (String.append p v) = true.
Proof.
  induction p as [|c p IH]; simpl; [destruct v; reflexivity|].
  destruct (Ascii.ascii_dec c c) as [_|Hne]; [exact IH|congruence].
Qed.

Lemma prefix_split (p s : string) :
  String.prefix p s = true -> exists v, s = String.append p v.
Proof.
  revert s. induction p as [|c p IH]; intros s H.
  - exists s. reflexivity.
  - destruct s as [|d s]; simpl in H; [discriminate|].
    destruct (Ascii.ascii_dec c d) as [->|Hne]; [|discriminate].
    destruct (IH s H) as [v ->]. exists v. reflexivity.
Qed.

Lemma occursIn_occursb (pat s : string) : occursIn pat s -> occursb pat s = true.
Proof.
  assert (Hp : forall t, String.prefix pat t = true -> occursb pat t = true).
  { intros t H. destruct t; cbn [occursb]; rewrite H; reflexivity. }
  intros [u [v ->]]. induction u as [|c u IH].
  - change (String.append "" (String.append pat v)) with (String.append pat v).
    apply Hp. apply prefix_append.
  - change (String.append (String c u) (String.append pat v))
      with (String c (String.append u (String.append pat v))).
    cbn [occursb]. rewrite IH. apply orb_true_r.
Qed.

Lemma replaceFrom_skip (pat rep u s : string) :
  replaceFrom pat rep (String.length u) (String.append u s) = replaceFrom pat rep 0 s.
Proof.
  induction u as [|c u IH]; simpl; [|exact IH].
  destruct s; reflexivity.
Qed.

Lemma replaceAll_match (pat rep s : string) :
  pat <> ""%string ->
  replaceAll pat rep (String.append pat s) = String.append rep (replaceAll pat rep s).
Proof.
  intros Hpat. destruct pat as [|c p]; [congruence|].
  unfold replaceAll.
  change (String.append (String c p) s) with (String c (String.append p s)).
  change (replaceFrom (String c p) rep 0 (String c (String.append p s)))
    with (if String.prefix (String c p) (String c (String.append p s))
          then String.append rep
                 (replaceFrom (String c p) rep (String.length (String c p) - 1)
                    (String.append p s))
          else String c (replaceFrom (String c p) rep 0 (String.append p s))).
  change (String c (String.append p s)) with (String.append (String c p) s).
  rewrite prefix_append.
  replace (String.length (String c p) - 1)%nat with (String.length p)
    by (simpl; lia).
  rewrite replaceFrom_skip. reflexivity.
Qed.

Lemma replaceAll_absent (pat rep s : string) :
  ~ occursIn pat s -> replaceAll pat rep s = s.
Proof.
  unfold replaceAll. induction s as [|c s IH]; intros Hno; [reflexivity|].
  assert (Hstep :
    replaceFrom pat rep 0 (String c s) =
    if String.prefix pat (String c s)
    then String.append rep (replaceFrom pat rep (String.length pat - 1) s)
    else String c (replaceFrom pat rep 0 s)) by reflexivity.
  rewrite Hstep. destruct (String.prefix pat (String c s)) eqn:E.
  - exfalso. apply Hno. destruct (prefix_split _ _ E) as [v Hv].
    exists ""%string, v. exact Hv.
  - rewrite IH; [reflexivity|]. intros [u [v Huv]]. apply Hno.
    exists (String c u), v. simpl. rewrite Huv. reflexivity.
Qed.

Lemma append_empty_r (s : string) : String.append s "" = s.
Proof.
  induction s as [|c s IH]; [reflexivity|].
  change (String c (String.append s "") = String c s). rewrite IH. reflexivity.
Qed.

Lemma occursb_false (pat s : string) : occursb pat s = false -> ~ occursIn pat s.
Proof.
  intros H Hocc. apply occursIn_occursb in Hocc. rewrite H in Hocc. discriminate.
Qed.

(** A text that is the name becomes the replacement. *)
Lemma replaceAll_whole (pat rep : string) :
  pat <> ""%string -> replaceAll pat rep pat = rep.
Proof.
  intros Hpat. rewrite <- (append_empty_r pat) at 2.
  rewrite replaceAll_match by exact Hpat.
  change (replaceAll pat rep "") with ""%string. apply append_empty_r.
Qed.

End TextFacts.

(** ** The choreography engine *)

Section EngineFacts.
Import Engine.
Local Open Scope R_scope.
Context {host : Host}.

Local Ltac rlra := Lra.lra.

Lemma Rltb_lt (x y : R) : Rltb x y = true <-> x < y.
Proof. unfold Rltb. destruct (Rlt_dec x y); split; intros; try discriminate; tauto. Qed.

Lemma Rltb_ge (x y : R) : Rltb x y = false <-> y <= x.
Proof.
  unfold Rltb. destruct (Rlt_dec x y); split; intros; try discriminate;
    try reflexivity; rlra.
Qed.

Lemma Rleb_le (x y : R) : Rleb x y = true <-> x <= y.
Proof. unfold Rleb. destruct (Rle_dec x y); split; intros; try discriminate; tauto. Qed.

Lemma Rleb_gt (x y : R) : Rleb x y = false <-> y < x.
Proof.
  unfold Rleb. destruct (Rle_dec x y); split; intros; try discriminate;
    try reflexivity; rlra.
Qed.

Lemma Reqb_eq (x y : R) : Reqb x y = true <-> x = y.
Proof. unfold Reqb. destruct (Req_dec_T x y); split; intros; try discriminate; tauto. Qed.

Lemma Reqb_neq (x y : R) : Reqb x y = false <-> x <> y.
Proof.
  unfold Reqb. destruct (Req_dec_T x y); split; intros; try discriminate;
    try reflexivity; tauto.
Qed.

(** *** Stage values *)

Lemma decayOf_positive (d : R) : 0 < d -> decayOf (Some d) = d.
Proof.
  intros H. unfold decayOf. destruct (Reqb d 0) eqn:E; [|reflexivity].
  apply Reqb_eq in E. rlra.
Qed.

Lemma Rpower_decreasing (d x y : R) :
  0 < d < 1 -> x < y -> Rpower d y < Rpower d x.
Proof.
  intros [H0 H1] Hxy. unfold Rpower. apply exp_increasing.
  assert (Hln : ln d < 0).
  { rewrite <- ln_1. apply ln_increasing; assumption. }
  assert (Hpos : 0 < (y - x) * (- ln d)) by (apply Rmult_lt_0_compat; rlra).
  rlra.
Qed.

(** C9. The value applied for a spike-and-decay change is the spike times
    the decay to the power of a hundred times the stage progress.  A spike of
    2.0 with decay 0.9 gives exactly 2.0 at progress 0 and about 0.0103 at
    progress 0.5, and for a decay below 1 (and a positive spike, as here) the
    value falls strictly as the progress grows. *)
Theorem spikeDecay_value (e : Engine.t) (param : string) (s d : R) :
  0 < d ->
  (forall progress,
     changeValue e param (SpikeDecay s d) progress =
       Some (s * Rpower d (progress * 100)) /\
     applyChange progress e (param, SpikeDecay s d) =
       setChoreographedParam e param (s * Rpower d (progress * 100))) /\
  (forall n : nat,
     changeValue e param (SpikeDecay s d) (INR n / 100) = Some (s * d ^ n)) /\
  changeValue e param (SpikeDecay s d) 0 = Some s /\
  (d < 1 -> 0 < s ->
   forall t1 t2 v1 v2, t1 < t2 ->
     changeValue e param (SpikeDecay s d) t1 = Some v1 ->
     changeValue e param (SpikeDecay s d) t2 = Some v2 ->
     v2 < v1) /\
  changeValue e param (SpikeDecay 2 (9 / 10)) 0 = Some 2 /\
  (exists v, changeValue e param (SpikeDecay 2 (9 / 10)) (1 / 2) = Some v /\
             v = 2 * (9 / 10) ^ 50 /\ Rabs (v - 103 / 10000) < 1 / 100000) /\
  (forall t1 t2 v1 v2, t1 < t2 ->
     changeValue e param (SpikeDecay 2 (9 / 10)) t1 = Some v1 ->
     changeValue e param (SpikeDecay 2 (9 / 10)) t2 = Some v2 ->
     v2 < v1).
Proof.
  intros Hd.
  assert (Hval : forall s' d' progress, 0 < d' ->
            changeValue e param (SpikeDecay s' d') progress =
              Some (s' * Rpower d' (progress * 100))).
  { intros s' d' progress Hd'. unfold changeValue, SpikeDecay, Math_pow.
    cbn [from to spike decay]. rewrite decayOf_positive by assumption.
    reflexivity. }
  assert (Hpow : forall s' d' (n : nat), 0 < d' ->
            changeValue e param (SpikeDecay s' d') (INR n / 100) = Some (s' * d' ^ n)).
  { intros s' d' n Hd'. rewrite Hval by assumption.
    replace (INR n / 100 * 100) with (INR n) by (field).
    rewrite Rpower_pow by assumption. reflexivity. }
  assert (Hdec : forall s' d', 0 < d' < 1 -> 0 < s' ->
            forall t1 t2 v1 v2, t1 < t2 ->
              changeValue e param (SpikeDecay s' d') t1 = Some v1 ->
              changeValue e param (SpikeDecay s' d') t2 = Some v2 ->
              v2 < v1).
  { intros s' d' Hd' Hs' t1 t2 v1 v2 Ht H1 H2.
    rewrite Hval in H1, H2 by apply Hd'.
    injection H1 as <-. injection H2 as <-.
    apply Rmult_lt_compat_l; [assumption|].
    apply Rpower_decreasing; [assumption|rlra]. }
  split; [|split; [|split; [|split; [|split; [|split]]]]].
  - intros progress. split; [apply Hval; assumption|].
    unfold applyChange. simpl fst. simpl snd. rewrite Hval by assumption. reflexivity.
  - intros n. apply Hpow. assumption.
  - replace 0 with (INR 0 / 100) by (simpl; field).
    rewrite Hpow by assumption. f_equal. simpl. ring.
  - intros Hd1 Hs. apply Hdec; [split; assumption|assumption].
  - replace 0 with (INR 0 / 100) by (simpl; field).
    rewrite Hpow by rlra. f_equal. simpl. ring.
  - exists (2 * (9 / 10) ^ 50). split; [|split; [reflexivity|]].
    + replace (1 / 2) with (INR 50 / 100)
        by (rewrite INR_IZR_INZ; simpl; field).
      apply Hpow. rlra.
    + apply Rabs_def1; rlra.
  - apply Hdec; rlra.
Qed.

Lemma spikeDecay_value_witness :
  changeValue halfIntensity "intensity" (SpikeDecay 2 (9 / 10)) 0 = Some 2.
Proof.
  assert (Hd : 0 < 9 / 10) by rlra.
  destruct (spikeDecay_value halfIntensity "intensity" 2 (9 / 10) Hd)
    as [_ [_ [H0 _]]].
  exact H0.
Defined.

(** *** What each phase of a tick leaves alone *)

Lemma bind_normal {A B} (c : Completion A) (k : A -> Completion B) (b : B) :
  bind c k = Normal b -> exists a, c = Normal a /\ k a = Normal b.
Proof. destruct c as [a|]; simpl; [eauto|discriminate]. Qed.

Lemma onlyVisualizers_refl (e : Engine.t) : onlyVisualizers e e.
Proof. destruct e. reflexivity. Qed.

Lemma onlyVisualizers_trans (e1 e2 e3 : Engine.t) :
  onlyVisualizers e1 e2 -> onlyVisualizers e2 e3 -> onlyVisualizers e1 e3.
Proof.
  unfold onlyVisualizers. intros H12 H23. rewrite H23, H12. reflexivity.
Qed.

Lemma setChoreographedParam_only (e : Engine.t) (param : string) (v : R) :
  onlyVisualizers e (setChoreographedParam e param v).
Proof. reflexivity. Qed.

Lemma applyChange_only (progress : R) (e : Engine.t) (pc : string * Change) :
  onlyVisualizers e (applyChange progress e pc).
Proof.
  unfold applyChange. destruct (changeValue e pc.1 pc.2 progress).
  - apply setChoreographedParam_only.
  - apply onlyVisualizers_refl.
Qed.

Lemma applyStage_only (e : Engine.t) (stage : Stage) (progress : R) :
  onlyVisualizers e (applyStage e stage progress).
Proof.
  unfold applyStage. generalize (changes stage). intros l. revert e.
  induction l as [|pc l IH]; intros e; simpl.
  - apply onlyVisualizers_refl.
  - eapply onlyVisualizers_trans; [apply (applyChange_only progress e pc)|apply IH].
Qed.

Lemma updateSequence_only (e : Engine.t) (a : Active.t) (elapsed : R) :
  onlyVisualizers e (updateSequence e a elapsed).
Proof.
  unfold updateSequence. destruct (stages (Active.sequence a)) as [l|].
  - destruct (findStage l 0 elapsed) as [[stage p]|].
    + apply applyStage_only.
    + apply onlyVisualizers_refl.
  - apply onlyVisualizers_refl.
Qed.

Lemma filterActive_spec (currentTime : R) (l : list Active.t) (e : Engine.t) :
  fst (filterActive currentTime l e) = List.filter (stillRunning currentTime) l /\
  onlyVisualizers e (snd (filterActive currentTime l e)).
Proof.
  revert e. induction l as [|a l IH]; intros e; simpl.
  - split; [reflexivity|apply onlyVisualizers_refl].
  - unfold stillRunning at 1.
    destruct (Rleb (duration (Active.sequence a)) (currentTime - Active.startTime a));
      simpl.
    + apply IH.
    + destruct (IH (updateSequence e a (currentTime - Active.startTime a)))
        as [Hf Ho].
      destruct (filterActive currentTime l
                  (updateSequence e a (currentTime - Active.startTime a)))
        as [kept e'].
      simpl in *. split; [congruence|].
      eapply onlyVisualizers_trans; [apply updateSequence_only|exact Ho].
Qed.

(** [updateActiveSequences] keeps the entries whose elapsed time is below
    their duration and changes nothing else but the visualizers. *)
Lemma updateActiveSequences_spec (e : Engine.t) (currentTime : R) :
  let e' := updateActiveSequences e currentTime in
  activeSequences e' = List.filter (stillRunning currentTime) (activeSequences e) /\
  memory e' = memory e /\ sequences e' = sequences e /\ running e' = running e.
Proof.
  unfold updateActiveSequences.
  destruct (filterActive_spec currentTime (activeSequences e) e) as [Hf Ho].
  destruct (filterActive currentTime (activeSequences e) e) as [kept e'].
  simpl in *. rewrite Ho. simpl. repeat split. exact Hf.
Qed.

Lemma updateBeatTracking_spec (e : Engine.t) (currentTime : R) (a : AudioData) :
  let e' := updateBeatTracking e currentTime a in
  activeSequences e' = activeSequences e /\
  rotationMomentum (memory e') = rotationMomentum (memory e) /\
  sequences e' = sequences e /\ running e' = running e.
Proof.
  unfold updateBeatTracking.
  destruct (currentBeat e <? _)%Z; destruct (onsetEvent a) as [ev|];
    try destruct (detected ev && Rltb 0 (strength ev)); simpl; repeat split.
Qed.

Lemma updateMemory_spec (e : Engine.t) (a : AudioData) (currentTime : R) :
  let e' := updateMemory e a currentTime in
  activeSequences e' = activeSequences e /\
  rotationMomentum (memory e') = accumulateMomentum (rotationMomentum (memory e)) a /\
  sequences e' = sequences e /\ running e' = running e.
Proof.
  unfold updateMemory.
  destruct (trackBassHits (memory e) a currentTime) as [hits predicted].
  destruct (trackEnergy (memory e) a) as [history trend].
  simpl. repeat split.
Qed.

Lemma startSequence_spec (e : Engine.t) (n : string) (t : R) :
  let e' := startSequence e n t in
  memory e' = memory e /\ sequences e' = sequences e /\ running e' = running e /\
  (activeSequences e' = activeSequences e \/
   exists s, In s (sequences e) /\ name s = n /\
             activeSequences e' = activeSequences e ++ [Active.mk s t 0]).
Proof.
  unfold startSequence.
  destruct (List.find (fun s => String.eqb (name s) n) (sequences e)) as [s|] eqn:E;
    simpl; repeat split; try (left; reflexivity).
  right. apply find_some in E. destruct E as [Hin Hn].
  apply String.eqb_eq in Hn. eauto.
Qed.

(** [eval] may throw; [evaluateTrigger] does not. *)
Lemma evaluateTrigger_normal (e : Engine.t) (expression : string)
    (audioData : option AudioData) :
  exists v, evaluateTrigger e expression audioData = Normal v.
Proof.
  unfold evaluateTrigger, tryCatch.
  destruct (evaluateBody e expression audioData); eauto.
Qed.

Lemma triggered_normal (e : Engine.t) (s : Sequence) (a : AudioData) :
  exists b, triggered e s a = Normal b.
Proof.
  unfold triggered. destruct (trigger s) as [f|expression|]; eauto.
  destruct (evaluateTrigger_normal e expression (Some a)) as [v Hv].
  rewrite Hv. simpl. eauto.
Qed.

Lemma checkTrigger_normal (a : AudioData) (t : R) (e : Engine.t) (s : Sequence) :
  exists e', checkTrigger a t e s = Normal e'.
Proof.
  unfold checkTrigger. destruct (isActive e (name s)); eauto.
  destruct (triggered_normal e s a) as [b Hb]. rewrite Hb. simpl.
  destruct b; eauto.
Qed.

Lemma forEachSequence_normal (a : AudioData) (t : R) (l : list Sequence) (e : Engine.t) :
  exists e', forEachSequence a t l e = Normal e'.
Proof.
  revert e. induction l as [|s l IH]; intros e; simpl; eauto.
  destruct (checkTrigger_normal a t e s) as [e1 H1]. rewrite H1. simpl. apply IH.
Qed.

(** A tick never throws. *)
Lemma animate_normal (e : Engine.t) (currentTime : R) (a : AudioData) :
  exists e', animate e currentTime a = Normal e'.
Proof.
  unfold animate. destruct (running e); simpl; eauto.
  unfold checkTriggers.
  match goal with
  | |- context [forEachSequence ?a ?t ?l ?e0] =>
      destruct (forEachSequence_normal a t l e0) as [e4 H4]; rewrite H4
  end.
  simpl. eauto.
Qed.

(** *** Triggers and the active set *)

Lemma isActive_false (e : Engine.t) (n : string) :
  isActive e n = false <-> ~ In n (activeNames e).
Proof.
  unfold isActive, activeNames. induction (activeSequences e) as [|a l IH]; simpl.
  - tauto.
  - rewrite orb_false_iff, IH.
    destruct (String.eqb_spec (name (Active.sequence a)) n); intuition congruence.
Qed.

Lemma checkTrigger_spec (a : AudioData) (t : R) (e : Engine.t) (s : Sequence)
    (e' : Engine.t) :
  checkTrigger a t e s = Normal e' ->
  memory e' = memory e /\ sequences e' = sequences e /\ running e' = running e /\
  (activeSequences e' = activeSequences e \/
   (~ In (name s) (activeNames e) /\ triggered e s a = Normal true /\
    exists s', In s' (sequences e) /\ name s' = name s /\
               activeSequences e' = activeSequences e ++ [Active.mk s' t 0])).
Proof.
  unfold checkTrigger. destruct (isActive e (name s)) eqn:Hact.
  - intros [= <-]. repeat split. left. reflexivity.
  - intros Hb. apply bind_normal in Hb. destruct Hb as [fired [Hf Hb]].
    destruct fired.
    + injection Hb as <-.
      destruct (startSequence_spec e (name s) t) as [Hm [Hs [Hr [Hsame|Hnew]]]].
      * repeat split; try assumption. left. assumption.
      * repeat split; try assumption. right.
        split; [apply isActive_false; assumption|]. split; assumption.
    + injection Hb as <-. repeat split. left. reflexivity.
Qed.

Lemma NoDup_snoc_name (l : list Active.t) (x : Active.t) :
  NoDup (map (fun a => name (Active.sequence a)) l) ->
  ~ In (name (Active.sequence x)) (map (fun a => name (Active.sequence a)) l) ->
  NoDup (map (fun a => name (Active.sequence a)) (l ++ [x])).
Proof.
  intros Hnd Hnin. rewrite map_app. simpl. apply NoDup_app. split; [assumption|].
  split.
  - intros n Hn Hx. apply list_elem_of_In in Hn, Hx. destruct Hx as [<-|[]].
    contradiction.
  - apply NoDup_singleton.
Qed.

Lemma NoDup_map_filter {A B} (f : A -> B) (g : A -> bool) (l : list A) :
  NoDup (map f l) -> NoDup (map f (List.filter g l)).
Proof.
  induction l as [|x l IH]; simpl; intros H; [assumption|].
  apply NoDup_cons in H. destruct H as [Hx Hl].
  destruct (g x); simpl; [|apply IH; assumption].
  apply NoDup_cons. split; [|apply IH; assumption].
  intros Hin. apply Hx. apply list_elem_of_In in Hin. apply list_elem_of_In.
  apply in_map_iff in Hin. destruct Hin as [y [Hy Hin]].
  apply filter_In in Hin. apply in_map_iff. exists y. tauto.
Qed.

(** The loop of [checkTriggers] only appends entries, each started now, under
    a name that was not active, for a sequence whose trigger was met. *)
Lemma forEachSequence_spec (a : AudioData) (t : R) (l : list Sequence) :
  forall e e', forEachSequence a t l e = Normal e' ->
  memory e' = memory e /\ sequences e' = sequences e /\ running e' = running e /\
  (NoDup (activeNames e) -> NoDup (activeNames e')) /\
  (forall x, In x (activeSequences e) -> In x (activeSequences e')) /\
  (forall x, In x (activeSequences e') ->
     In x (activeSequences e) \/
     (Active.startTime x = t /\
      ~ In (name (Active.sequence x)) (activeNames e) /\
      In (Active.sequence x) (sequences e) /\
      exists s e0, In s l /\ name s = name (Active.sequence x) /\
                   memory e0 = memory e /\ triggered e0 s a = Normal true)).
Proof.
  induction l as [|s l IH]; intros e e' Hrun; simpl in Hrun.
  - injection Hrun as <-. repeat split; auto.
  - apply bind_normal in Hrun. destruct Hrun as [e1 [H1 Hrest]].
    apply checkTrigger_spec in H1. destruct H1 as [Hm1 [Hs1 [Hr1 Hact1]]].
    destruct (IH e1 e' Hrest) as [Hm [Hs [Hr [Hnd [Hkeep Hnew]]]]].
    split; [congruence|]. split; [congruence|]. split; [congruence|].
    destruct Hact1 as [Hsame|[Hnin [Hfired [s' [Hin' [Hname Happ]]]]]].
    + unfold activeNames in *. rewrite Hsame in *.
      split; [assumption|]. split; [assumption|].
      intros x Hx.
      destruct (Hnew x Hx)
        as [Hold|[Ht [Hn [Hdef [s0 [e0 [Hs0 [Hn0 [Hm0 Hf0]]]]]]]]];
        [left; assumption|].
      right. split; [assumption|]. split; [assumption|].
      split; [rewrite <- Hs1; assumption|].
      exists s0, e0. split; [right; assumption|]. split; [assumption|].
      split; [congruence|assumption].
    + split; [|split].
      * intros Hnd0. apply Hnd. unfold activeNames in *. rewrite Happ.
        apply NoDup_snoc_name; [assumption|]. simpl. rewrite Hname. assumption.
      * intros x Hx. apply Hkeep. rewrite Happ. apply in_or_app. left. assumption.
      * intros x Hx.
        destruct (Hnew x Hx)
          as [Hold|[Ht [Hn [Hdef [s0 [e0 [Hs0 [Hn0 [Hm0 Hf0]]]]]]]]].
        -- rewrite Happ in Hold. apply in_app_or in Hold.
           destruct Hold as [Hold|[<-|[]]]; [left; assumption|].
           right. simpl. split; [reflexivity|]. rewrite Hname.
           split; [assumption|]. split; [assumption|].
           exists s, e. split; [left; reflexivity|]. split; [congruence|].
           split; [reflexivity|assumption].
        -- right. split; [assumption|]. split.
           ++ intros Hc. apply Hn. unfold activeNames in *. rewrite Happ, map_app.
              apply in_or_app. left. assumption.
           ++ split; [rewrite <- Hs1; assumption|].
              exists s0, e0. split; [right; assumption|]. split; [assumption|].
              split; [congruence|assumption].
Qed.

(** One tick of a running engine, phase by phase. *)
Lemma animate_spec (e : Engine.t) (currentTime : R) (a : AudioData) (e' : Engine.t) :
  running e = true ->
  animate e currentTime a = Normal e' ->
  rotationMomentum (memory e') = accumulateMomentum (rotationMomentum (memory e)) a /\
  sequences e' = sequences e /\ running e' = true /\
  (NoDup (activeNames e) -> NoDup (activeNames e')) /\
  (forall x, In x (activeSequences e') ->
     stillRunning currentTime x = true /\
     (In x (activeSequences e) \/
      (Active.startTime x = currentTime /\
       ~ In (name (Active.sequence x)) (activeNames e) /\
       In (Active.sequence x) (sequences e) /\
       exists s e0, In s (sequences e) /\ name s = name (Active.sequence x) /\
                    memory e0 = memory e' /\ triggered e0 s a = Normal true))) /\
  (forall x, In x (activeSequences e) -> stillRunning currentTime x = true ->
     In x (activeSequences e')).
Proof.
  intros Hrun Han. unfold animate in Han. rewrite Hrun in Han. simpl in Han.
  apply bind_normal in Han. destruct Han as [e4 [H4 Hlast]]. injection Hlast as <-.
  set (e1 := set_frameTime e currentTime) in *.
  destruct (updateBeatTracking_spec e1 currentTime a) as [Ha2 [Hm2 [Hs2 Hr2]]].
  set (e2 := updateBeatTracking e1 currentTime a) in *.
  destruct (updateMemory_spec e2 a currentTime) as [Ha3 [Hm3 [Hs3 Hr3]]].
  set (e3 := updateMemory e2 a currentTime) in *.
  unfold checkTriggers in H4.
  destruct (forEachSequence_spec a currentTime (sequences e3) e3 e4 H4)
    as [Hm4 [Hs4 [Hr4 [Hnd4 [Hkeep4 Hnew4]]]]].
  destruct (updateActiveSequences_spec e4 currentTime) as [Ha5 [Hm5 [Hs5 Hr5]]].
  assert (Hact3 : activeSequences e3 = activeSequences e)
    by (rewrite Ha3, Ha2; reflexivity).
  assert (Hseq3 : sequences e3 = sequences e)
    by (rewrite Hs3, Hs2; reflexivity).
  assert (Hnames3 : activeNames e3 = activeNames e)
    by (unfold activeNames; rewrite Hact3; reflexivity).
  split; [rewrite Hm5, Hm4, Hm3, Hm2; reflexivity|].
  split; [rewrite Hs5, Hs4; exact Hseq3|].
  split; [rewrite Hr5, Hr4, Hr3, Hr2; exact Hrun|].
  split; [|split].
  - intros Hnd. unfold activeNames. rewrite Ha5. apply NoDup_map_filter.
    apply Hnd4. rewrite Hnames3. exact Hnd.
  - intros x Hx. rewrite Ha5 in Hx. apply filter_In in Hx. destruct Hx as [Hx Hstill].
    split; [exact Hstill|].
    destruct (Hnew4 x Hx) as [Hold|[Ht [Hn [Hdef [s [e0 [Hs0 [Hn0 [Hm0 Hf0]]]]]]]]].
    + left. rewrite <- Hact3. exact Hold.
    + right. split; [exact Ht|]. split; [rewrite <- Hnames3; exact Hn|].
      split; [rewrite <- Hseq3; exact Hdef|].
      exists s, e0. rewrite <- Hseq3. repeat split; try assumption.
      rewrite Hm5, Hm4. exact Hm0.
  - intros x Hx Hstill. rewrite Ha5. apply filter_In. split; [|exact Hstill].
    apply Hkeep4. rewrite Hact3. exact Hx.
Qed.

(** *** The rotation momentum of the memory *)

Lemma call_momentum (e : Engine.t) (c : Call) (e' : Engine.t) :
  call e c = Normal e' ->
  xw (rotationMomentum (memory e')) = xw (rotationMomentum (memory e)) /\
  yw (rotationMomentum (memory e')) = yw (rotationMomentum (memory e)).
Proof.
  destruct c as [s|now| |currentTime a|n t]; simpl.
  - unfold defineSequence. destruct (String.eqb (name s) ""); [discriminate|].
    intros [= <-]. split; reflexivity.
  - intros [= <-]. unfold start. destruct (running e); split; reflexivity.
  - intros [= <-]. split; reflexivity.
  - intros Han. destruct (running e) eqn:Hrun.
    + destruct (animate_spec e currentTime a e' Hrun Han) as [Hm _].
      rewrite Hm. split; reflexivity.
    + unfold animate in Han. rewrite Hrun in Han. injection Han as <-.
      split; reflexivity.
  - intros [= <-]. destruct (startSequence_spec e n t) as [Hm _].
    rewrite Hm. split; reflexivity.
Qed.

(** C10. The memory update of a tick writes only the [zw] component of
    [memory.rotationMomentum]: it adds a tenth of the bass when the bass is
    above 0.5 and then multiplies by 0.98.  No other phase of a tick and no
    other call writes the momentum, so [xw] and [yw] are 0 in every engine a
    program can reach. *)
Theorem rotationMomentum_only_zw_moves (e : Engine.t) :
  (forall a currentTime,
     let mo := rotationMomentum (memory e) in
     let mo' := rotationMomentum (memory (updateMemory e a currentTime)) in
     xw mo' = xw mo /\ yw mo' = yw mo /\
     (forall b, bandValue a "bass" = Some b -> 5 / 10 < b ->
        zw mo' = (zw mo + b * (1 / 10)) * (98 / 100)) /\
     (forall b, bandValue a "bass" = Some b -> b <= 5 / 10 ->
        zw mo' = zw mo * (98 / 100)) /\
     (bandValue a "bass" = None -> zw mo' = zw mo * (98 / 100))) /\
  (forall currentTime a e',
     running e = true -> animate e currentTime a = Normal e' ->
     rotationMomentum (memory e') =
     rotationMomentum (memory (updateMemory e a currentTime))) /\
  (forall c e', call e c = Normal e' ->
     xw (rotationMomentum (memory e')) = xw (rotationMomentum (memory e)) /\
     yw (rotationMomentum (memory e')) = yw (rotationMomentum (memory e))) /\
  (reachable e ->
   xw (rotationMomentum (memory e)) = 0 /\ yw (rotationMomentum (memory e)) = 0).
Proof.
  split; [|split; [|split]].
  - intros a currentTime mo mo'.
    destruct (updateMemory_spec e a currentTime) as [_ [Hm _]].
    unfold mo', mo. rewrite Hm. unfold accumulateMomentum. simpl.
    split; [reflexivity|]. split; [reflexivity|]. split; [|split].
    + intros b Hb Hgt. rewrite Hb. simpl.
      apply Rltb_lt in Hgt. rewrite Hgt. reflexivity.
    + intros b Hb Hle. rewrite Hb. simpl.
      apply Rltb_ge in Hle. rewrite Hle. reflexivity.
    + intros Hb. rewrite Hb. reflexivity.
  - intros currentTime a e' Hrun Han.
    destruct (animate_spec e currentTime a e' Hrun Han) as [Hm _].
    destruct (updateMemory_spec e a currentTime) as [_ [Hm' _]].
    rewrite Hm, Hm'. reflexivity.
  - apply call_momentum.
  - induction 1 as [vizs configBpm|e0 c e1 Hr IH Hc].
    + split; reflexivity.
    + destruct (call_momentum e0 c e1 Hc) as [Hx Hy]. rewrite Hx, Hy. exact IH.
Qed.

(** *** Endpoints *)

(** C4, as the code has it.  An endpoint ['current'] is resolved by
    [getCurrentParam], which returns 0 whatever the visualizers hold: an
    interpolation from ['current'] starts at 0, not at the live value. *)
Theorem current_endpoint_reads_zero
    (e : Engine.t) (param : string) (target : R) (ease : option string)
    (progress : R) :
  resolveEndpoint e param Current = 0 /\
  changeValue e param (Interpolate Current (Value target) ease) progress =
    Some (0 + (target - 0) * getEasingFunction (easingName ease) progress) /\
  changeValue e param (Interpolate (Value target) Current ease) progress =
    Some (target + (0 - target) * getEasingFunction (easingName ease) progress) /\
  (exists viz, visualizers halfIntensity = [viz] /\
               liveValue viz "intensity" = Some (1 / 2)) /\
  changeValue halfIntensity "intensity" (Interpolate Current (Value 1) None) 0 =
    Some 0.
Proof.
  split; [reflexivity|]. split; [reflexivity|]. split; [reflexivity|]. split.
  - eexists. split; [reflexivity|]. unfold liveValue. simpl.
    apply lookup_insert_eq.
  - unfold changeValue, resolveEndpoint, getCurrentParam, getEasingFunction.
    simpl. f_equal. rlra.
Qed.

(** *** Trigger expressions *)

Lemma safeExpr_absent (expression : string) (a : AudioData) :
  (forall n, In n triggerNames -> ~ occursIn n expression) ->
  safeExpr expression a = expression.
Proof.
  intros Hnone. unfold safeExpr.
  rewrite (replaceAll_absent "bass") by (apply Hnone; simpl; tauto).
  rewrite (replaceAll_absent "mid") by (apply Hnone; simpl; tauto).
  rewrite (replaceAll_absent "high") by (apply Hnone; simpl; tauto).
  rewrite (replaceAll_absent "energy") by (apply Hnone; simpl; tauto).
  rewrite (replaceAll_absent "onset") by (apply Hnone; simpl; tauto).
  reflexivity.
Qed.

(** A text that is one of the five names reaches [eval] as the number of
    that feature, when no name occurs in a number as it is written. *)
Lemma safeExpr_names (a : AudioData) :
  (forall x n, In n triggerNames -> ~ occursIn n (numberToString x)) ->
  safeExpr "bass" a = numberToString (orZero (bandValue a "bass")) /\
  safeExpr "mid" a = numberToString (orZero (bandValue a "mid")) /\
  safeExpr "high" a = numberToString (orZero (bandValue a "high")) /\
  safeExpr "energy" a = numberToString (orZero (rms a)) /\
  safeExpr "onset" a = numberToString (orZero (onset a)).
Proof.
  intros Hnum.
  assert (Hin : forall n, In n triggerNames -> forall rep x,
            replaceAll n rep (numberToString x) = numberToString x).
  { intros n Hn rep x. apply replaceAll_absent. apply Hnum. exact Hn. }
  assert (Hb : In "bass"%string triggerNames) by (simpl; tauto).
  assert (Hm : In "mid"%string triggerNames) by (simpl; tauto).
  assert (Hh : In "high"%string triggerNames) by (simpl; tauto).
  assert (He : In "energy"%string triggerNames) by (simpl; tauto).
  assert (Ho : In "onset"%string triggerNames) by (simpl; tauto).
  unfold safeExpr. repeat split.
  - rewrite (replaceAll_whole "bass") by discriminate.
    rewrite (Hin _ Hm), (Hin _ Hh), (Hin _ He), (Hin _ Ho). reflexivity.
  - rewrite (replaceAll_absent "bass") by (apply occursb_false; reflexivity).
    rewrite (replaceAll_whole "mid") by discriminate.
    rewrite (Hin _ Hh), (Hin _ He), (Hin _ Ho). reflexivity.
  - rewrite (replaceAll_absent "bass") by (apply occursb_false; reflexivity).
    rewrite (replaceAll_absent "mid") by (apply occursb_false; reflexivity).
    rewrite (replaceAll_whole "high") by discriminate.
    rewrite (Hin _ He), (Hin _ Ho). reflexivity.
  - rewrite (replaceAll_absent "bass") by (apply occursb_false; reflexivity).
    rewrite (replaceAll_absent "mid") by (apply occursb_false; reflexivity).
    rewrite (replaceAll_absent "high") by (apply occursb_false; reflexivity).
    rewrite (replaceAll_whole "energy") by discriminate.
    rewrite (Hin _ Ho). reflexivity.
  - rewrite (replaceAll_absent "bass") by (apply occursb_false; reflexivity).
    rewrite (replaceAll_absent "mid") by (apply occursb_false; reflexivity).
    rewrite (replaceAll_absent "high") by (apply occursb_false; reflexivity).
    rewrite (replaceAll_absent "energy") by (apply occursb_false; reflexivity).
    rewrite (replaceAll_whole "onset") by discriminate. reflexivity.
Qed.

Lemma evaluateTrigger_value (e : Engine.t) (expression : string) (a : AudioData) :
  evaluateTrigger e expression (Some a) =
  tryCatch (js_eval (mkScope e expression a) (safeExpr expression a)) (JsBool false).
Proof. reflexivity. Qed.

Lemma evaluateTriggerDirect_value (D : DirectEval) (e : Engine.t)
    (expression : string) (a : AudioData) :
  evaluateTriggerDirect e expression (Some a) =
  (fst (direct_eval (mkScope e expression a) (safeExpr expression a)),
   match snd (direct_eval (mkScope e expression a) (safeExpr expression a)) with
   | Normal v => v
   | Throw => JsBool false
   end).
Proof.
  unfold evaluateTriggerDirect, safeExpr.
  destruct (direct_eval _ _) as [e' [v|]]; reflexivity.
Qed.

(** With an [eval] that leaves the engine alone, [evaluateTrigger] with
    direct [eval] is [evaluateTrigger], and so for the callback of
    [checkTriggers]. *)
Lemma evaluateTriggerDirect_withoutEffects (e : Engine.t) (expression : string)
    (audioData : option AudioData) :
  exists v,
    evaluateTrigger e expression audioData = Normal v /\
    evaluateTriggerDirect (D := withoutEffects) e expression audioData = (e, v).
Proof.
  destruct audioData as [a|]; [|exists (JsBool false); split; reflexivity].
  unfold evaluateTrigger, evaluateBody, evaluateTriggerDirect, withoutEffects.
  cbn [direct_eval scope_this].
  destruct (js_eval _ _) as [v|]; eexists; split; reflexivity.
Qed.

Lemma checkTriggerDirect_withoutEffects (a : AudioData) (t : R) (e : Engine.t)
    (s : Sequence) :
  checkTrigger a t e s = Normal (checkTriggerDirect (D := withoutEffects) a t e s).
Proof.
  unfold checkTrigger, checkTriggerDirect, triggered.
  destruct (isActive e (name s)); [reflexivity|].
  destruct (trigger s) as [f|expression|].
  - simpl. destruct (f a (memory e)); reflexivity.
  - destruct (evaluateTriggerDirect_withoutEffects e expression (Some a))
      as [v [Hv Hd]].
    rewrite Hv, Hd. simpl. destruct (truthy v); reflexivity.
  - reflexivity.
Qed.

(** C8 (as the code has it).  [evaluateTrigger] hands to [eval] the text
    with the five names replaced by the numbers of the tick (a text that is
    a name alone goes as that feature's number) and returns what [eval]
    gives, whatever value that is; when [eval] throws, or the audio data is
    missing, it returns [false]: it never throws.  The engine after the
    evaluation is the one [eval] leaves, also when it throws.  With an
    [eval] that leaves the engine alone, a sequence that is not active
    starts exactly when the value is truthy; a text on which [eval] throws
    starts nothing, and every tick returns. *)
Theorem evaluateTrigger_returns_what_eval_gives
    (D : DirectEval) (e : Engine.t) (expression : string) (a : AudioData) :
  (let r := direct_eval (mkScope e expression a) (safeExpr expression a) in
   evaluateTriggerDirect e expression (Some a) =
     (fst r, match snd r with Normal v => v | Throw => JsBool false end)) /\
  evaluateTriggerDirect e expression None = (e, JsBool false) /\
  (forall s currentTime,
     trigger s = TriggerString expression -> isActive e (name s) = false ->
     let r := direct_eval (mkScope e expression a) (safeExpr expression a) in
     checkTriggerDirect a currentTime e s =
       match snd r with
       | Normal v => if truthy v then startSequence (fst r) (name s) currentTime
                     else fst r
       | Throw => fst r
       end) /\
  (forall audioData, exists v,
     evaluateTrigger e expression audioData = Normal v /\
     evaluateTriggerDirect (D := withoutEffects) e expression audioData = (e, v)) /\
  (forall s currentTime,
     checkTrigger a currentTime e s =
     Normal (checkTriggerDirect (D := withoutEffects) a currentTime e s)) /\
  ((forall x n, In n triggerNames -> ~ occursIn n (numberToString x)) ->
   safeExpr "bass" a = numberToString (orZero (bandValue a "bass")) /\
   safeExpr "mid" a = numberToString (orZero (bandValue a "mid")) /\
   safeExpr "high" a = numberToString (orZero (bandValue a "high")) /\
   safeExpr "energy" a = numberToString (orZero (rms a)) /\
   safeExpr "onset" a = numberToString (orZero (onset a))) /\
  (forall v,
     js_eval (mkScope e expression a) (safeExpr expression a) = Normal v ->
     evaluateTrigger e expression (Some a) = Normal v /\
     forall s currentTime,
       trigger s = TriggerString expression -> isActive e (name s) = false ->
       checkTrigger a currentTime e s =
       Normal (if truthy v then startSequence e (name s) currentTime else e)) /\
  (js_eval (mkScope e expression a) (safeExpr expression a) = Throw ->
   evaluateTrigger e expression (Some a) = Normal (JsBool false) /\
   forall s currentTime,
     trigger s = TriggerString expression ->
     checkTrigger a currentTime e s = Normal e) /\
  evaluateTrigger e expression None = Normal (JsBool false) /\
  (forall currentTime audioData, exists e', animate e currentTime audioData = Normal e').
Proof.
  split.
  { cbv zeta. apply evaluateTriggerDirect_value. }
  split; [reflexivity|].
  split.
  { intros s currentTime Htrig Hact. cbv zeta. unfold checkTriggerDirect.
    rewrite Hact, Htrig, evaluateTriggerDirect_value.
    destruct (snd (direct_eval (mkScope e expression a) (safeExpr expression a)));
      reflexivity. }
  split; [intros audioData; apply evaluateTriggerDirect_withoutEffects|].
  split; [intros s currentTime; apply checkTriggerDirect_withoutEffects|].
  split; [apply safeExpr_names|].
  split; [|split; [|split; [reflexivity|apply animate_normal]]].
  - intros v Hv.
    assert (Hval : evaluateTrigger e expression (Some a) = Normal v)
      by (rewrite evaluateTrigger_value, Hv; reflexivity).
    split; [exact Hval|].
    intros s currentTime Htrig Hact. unfold checkTrigger, triggered.
    rewrite Hact, Htrig, Hval. simpl. destruct (truthy v); reflexivity.
  - intros Hthrow.
    assert (Hval : evaluateTrigger e expression (Some a) = Normal (JsBool false))
      by (rewrite evaluateTrigger_value, Hthrow; reflexivity).
    split; [exact Hval|].
    intros s currentTime Htrig. unfold checkTrigger, triggered.
    destruct (isActive e (name s)); [reflexivity|].
    rewrite Htrig, Hval. reflexivity.
Qed.

(** *** Active sequences *)

Lemma stillRunning_lt (t : R) (x : Active.t) :
  stillRunning t x = true <->
  t - Active.startTime x < duration (Active.sequence x).
Proof.
  unfold stillRunning. rewrite negb_true_iff. apply Rleb_gt.
Qed.

Lemma ticks_app (l1 l2 : list (R * AudioData)) (e e' : Engine.t) :
  ticks e (l1 ++ l2) = Normal e' ->
  exists e1, ticks e l1 = Normal e1 /\ ticks e1 l2 = Normal e'.
Proof.
  revert e. induction l1 as [|[t a] l1 IH]; intros e H; simpl in *; [eauto|].
  apply bind_normal in H. destruct H as [e0 [H0 H]].
  destruct (IH e0 H) as [e1 [H1 H2]]. exists e1. rewrite H0. simpl. tauto.
Qed.

Lemma ticks_running (l : list (R * AudioData)) :
  forall e e', running e = true -> ticks e l = Normal e' -> running e' = true.
Proof.
  induction l as [|[t a] l IH]; intros e e' Hrun Hticks; simpl in Hticks.
  - injection Hticks as <-. exact Hrun.
  - apply bind_normal in Hticks. destruct Hticks as [e1 [H1 Hrest]].
    destruct (animate_spec e t a e1 Hrun H1) as [_ [_ [Hrun1 _]]].
    apply (IH e1 e' Hrun1 Hrest).
Qed.

Lemma ticks_keep (l : list (R * AudioData)) :
  forall e e' x,
    running e = true -> In x (activeSequences e) -> ticks e l = Normal e' ->
    (forall t, In t (map fst l) -> stillRunning t x = true) ->
    running e' = true /\ In x (activeSequences e').
Proof.
  induction l as [|[t a] l IH]; intros e e' x Hrun Hin Hticks Hall; simpl in *.
  - injection Hticks as <-. tauto.
  - apply bind_normal in Hticks. destruct Hticks as [e1 [H1 Hrest]].
    destruct (animate_spec e t a e1 Hrun H1) as [_ [_ [Hrun1 [_ [_ Hkeep]]]]].
    apply (IH e1 e' x Hrun1); auto.
Qed.

Lemma mapSet_names (l : list Sequence) (s : Sequence) (n : string) :
  In n (map name (mapSet l s)) -> In n (map name l) \/ n = name s.
Proof.
  induction l as [|x l IH]; simpl.
  - intros [<-|[]]. right. reflexivity.
  - destruct (String.eqb_spec (name x) (name s)) as [E|E]; simpl.
    + intros [<-|H]; [right; reflexivity|left; right; exact H].
    + intros [<-|H]; [left; left; reflexivity|].
      destruct (IH H) as [H'|H']; [left; right; exact H'|right; exact H'].
Qed.

Lemma mapSet_NoDup (l : list Sequence) (s : Sequence) :
  NoDup (map name l) -> NoDup (map name (mapSet l s)).
Proof.
  induction l as [|x l IH]; simpl; intros H.
  - apply NoDup_singleton.
  - apply NoDup_cons in H. destruct H as [Hx Hl].
    destruct (String.eqb_spec (name x) (name s)) as [E|E]; simpl.
    + apply NoDup_cons. rewrite <- E. split; assumption.
    + apply NoDup_cons. split; [|apply IH; assumption].
      intros Hin. apply list_elem_of_In in Hin.
      destruct (mapSet_names l s (name x) Hin) as [H'|H'].
      * apply Hx. apply list_elem_of_In. exact H'.
      * contradiction.
Qed.

Lemma names_unique (l : list Sequence) (s s' : Sequence) :
  NoDup (map name l) -> In s l -> In s' l -> name s = name s' -> s = s'.
Proof.
  induction l as [|x l IH]; simpl; intros Hnd Hs Hs' Hn; [destruct Hs|].
  apply NoDup_cons in Hnd. destruct Hnd as [Hx Hl].
  destruct Hs as [<-|Hs], Hs' as [<-|Hs'].
  - reflexivity.
  - exfalso. apply Hx. apply list_elem_of_In. rewrite Hn. apply in_map. exact Hs'.
  - exfalso. apply Hx. apply list_elem_of_In. rewrite <- Hn. apply in_map. exact Hs.
  - apply IH; assumption.
Qed.

(** The sequences of a reachable engine have distinct names (they are the
    keys of a [Map]). *)
Lemma reachable_sequence_names (e : Engine.t) :
  reachable e -> NoDup (map name (sequences e)).
Proof.
  induction 1 as [vizs configBpm|e0 c e1 Hr IH Hc].
  - constructor.
  - destruct c as [s|now| |currentTime a|n t]; simpl in Hc.
    + unfold defineSequence in Hc. destruct (String.eqb (name s) "");
        [discriminate|]. injection Hc as <-. simpl. apply mapSet_NoDup. exact IH.
    + injection Hc as <-. unfold start. destruct (running e0); exact IH.
    + injection Hc as <-. exact IH.
    + destruct (running e0) eqn:Hrun.
      * destruct (animate_spec e0 currentTime a e1 Hrun Hc) as [_ [Hs _]].
        rewrite Hs. exact IH.
      * unfold animate in Hc. rewrite Hrun in Hc. injection Hc as <-. exact IH.
    + injection Hc as <-. destruct (startSequence_spec e0 n t) as [_ [Hs _]].
      rewrite Hs. exact IH.
Qed.

(** *** The life of one instance *)

Lemma phases_before_triggers (e : Engine.t) (t : R) (a : AudioData) :
  let e3 := updateMemory (updateBeatTracking (set_frameTime e t) t a) a t in
  activeSequences e3 = activeSequences e /\ sequences e3 = sequences e.
Proof.
  intros e3. unfold e3.
  destruct (updateMemory_spec (updateBeatTracking (set_frameTime e t) t a) a t)
    as [Ha3 [_ [Hs3 _]]].
  destruct (updateBeatTracking_spec (set_frameTime e t) t a) as [Ha2 [_ [Hs2 _]]].
  rewrite Ha3, Ha2, Hs3, Hs2. split; reflexivity.
Qed.

Lemma startSequence_found (e : Engine.t) (n : string) (t : R) (s : Sequence) :
  NoDup (map name (sequences e)) -> In s (sequences e) -> name s = n ->
  startSequence e n t =
  set_active e (activeSequences e ++ [Active.mk s t 0]) (sequenceHistory e ++ [(n, t)]).
Proof.
  intros Hnd Hin Hn. unfold startSequence.
  destruct (List.find (fun x => String.eqb (name x) n) (sequences e)) as [s'|] eqn:E.
  - apply find_some in E. destruct E as [Hin' Hn']. apply String.eqb_eq in Hn'.
    rewrite (names_unique (sequences e) s' s Hnd Hin' Hin) by congruence.
    reflexivity.
  - apply (find_none _ _ E) in Hin. rewrite Hn, String.eqb_refl in Hin.
    discriminate.
Qed.

(** What [startSequence] does by the entry of the name in [sequences]. *)
Lemma startSequence_get (e : Engine.t) (n : string) (t : R) :
  (sequencesGet e n = None -> startSequence e n t = e) /\
  (forall s, sequencesGet e n = Some s ->
     name s = n /\
     activeSequences (startSequence e n t) = activeSequences e ++ [Active.mk s t 0] /\
     sequenceHistory (startSequence e n t) = sequenceHistory e ++ [(n, t)]).
Proof.
  unfold sequencesGet, startSequence.
  destruct (List.find (fun x => String.eqb (name x) n) (sequences e)) as [s'|] eqn:E.
  - split; [discriminate|]. intros s [= <-]. apply find_some in E.
    destruct E as [_ E]. apply String.eqb_eq in E. repeat split. exact E.
  - split; [reflexivity|discriminate].
Qed.

(** A call keeps the names of the active sequences distinct, unless it
    starts by hand a sequence that is active. *)
Lemma call_keeps_names (e : Engine.t) (c : Call) (e' : Engine.t) :
  call e c = Normal e' -> startsActive e c = false ->
  NoDup (activeNames e) -> NoDup (activeNames e').
Proof.
  destruct c as [s|now| |currentTime a|n t]; simpl; intros Hc Hguard Hnd.
  - unfold defineSequence in Hc. destruct (String.eqb (name s) "");
      [discriminate|]. injection Hc as <-. exact Hnd.
  - injection Hc as <-. unfold start. destruct (running e); exact Hnd.
  - injection Hc as <-. exact Hnd.
  - destruct (running e) eqn:Hrun.
    + destruct (animate_spec e currentTime a e' Hrun Hc) as [_ [_ [_ [Hkeep _]]]].
      apply Hkeep. exact Hnd.
    + unfold animate in Hc. rewrite Hrun in Hc. injection Hc as <-. exact Hnd.
  - injection Hc as <-.
    destruct (startSequence_spec e n t) as [_ [_ [_ [Hsame|[s [_ [Hn Happ]]]]]]];
      unfold activeNames in *.
    + rewrite Hsame. exact Hnd.
    + rewrite Happ. apply NoDup_snoc_name; [exact Hnd|]. simpl. rewrite Hn.
      apply isActive_false. exact Hguard.
Qed.

Lemma guarded_names (e : Engine.t) : reachableGuarded e -> NoDup (activeNames e).
Proof.
  induction 1 as [vizs configBpm|e0 c e1 Hr IH Hguard Hc].
  - constructor.
  - apply (call_keeps_names e0 c e1 Hc Hguard IH).
Qed.

(** The loop of [checkTriggers] starts every sequence of the list that is
    not active and whose trigger is met. *)
Lemma forEachSequence_starts (a : AudioData) (t : R) (l : list Sequence) :
  forall e e' s,
    forEachSequence a t l e = Normal e' ->
    NoDup (map name (sequences e)) -> NoDup (map name l) ->
    (forall s0, In s0 l -> In s0 (sequences e)) ->
    In s l -> ~ In (name s) (activeNames e) ->
    (forall e0, memory e0 = memory e -> triggered e0 s a = Normal true) ->
    In (Active.mk s t 0) (activeSequences e').
Proof.
  induction l as [|s0 l IH]; intros e e' s Hrun Hnd Hl Hsub Hin Hidle Hfires;
    [destruct Hin|].
  simpl in Hrun. apply bind_normal in Hrun. destruct Hrun as [e1 [H1 Hrest]].
  simpl in Hl. apply NoDup_cons in Hl. destruct Hl as [Hs0 Hl].
  destruct Hin as [->|Hin].
  - destruct (forEachSequence_spec a t l e1 e' Hrest) as [_ [_ [_ [_ [Hkeep _]]]]].
    apply Hkeep. unfold checkTrigger in H1.
    replace (isActive e (name s)) with false in H1
      by (symmetry; apply isActive_false; exact Hidle).
    rewrite (Hfires e eq_refl) in H1. simpl in H1. injection H1 as <-.
    rewrite (startSequence_found e (name s) t s Hnd) by (auto using in_eq).
    simpl. apply in_or_app. right. left. reflexivity.
  - assert (Hne : name s0 <> name s).
    { intros Heq. apply Hs0. apply list_elem_of_In. rewrite Heq. apply in_map.
      exact Hin. }
    apply checkTrigger_spec in H1. destruct H1 as [Hm1 [Hs1 [_ Hact1]]].
    apply (IH e1 e' s Hrest).
    + rewrite Hs1. exact Hnd.
    + exact Hl.
    + intros x Hx. rewrite Hs1. apply Hsub. right. exact Hx.
    + exact Hin.
    + destruct Hact1 as [Hsame|[_ [_ [s' [_ [Hn' Happ]]]]]]; unfold activeNames in *.
      * rewrite Hsame. exact Hidle.
      * rewrite Happ, map_app. intros Hc. apply in_app_or in Hc.
        destruct Hc as [Hc|[Hc|[]]]; [exact (Hidle Hc)|].
        simpl in Hc. congruence.
    + intros e0 He0. apply Hfires. congruence.
Qed.

(** A tick of a running engine starts every defined sequence that is not
    active and whose trigger is met. *)
Lemma animate_fires (e : Engine.t) (t : R) (a : AudioData) (e' : Engine.t)
    (s : Sequence) :
  NoDup (map name (sequences e)) ->
  running e = true -> animate e t a = Normal e' ->
  In s (sequences e) -> ~ In (name s) (activeNames e) ->
  (forall e0, memory e0 = memory e' -> triggered e0 s a = Normal true) ->
  0 < duration s ->
  In (Active.mk s t 0) (activeSequences e').
Proof.
  intros Hnd Hrun Han Hin Hidle Hfires Hdur.
  unfold animate in Han. rewrite Hrun in Han. simpl in Han.
  apply bind_normal in Han. destruct Han as [e4 [H4 Hlast]]. injection Hlast as <-.
  destruct (phases_before_triggers e t a) as [Ha3 Hs3].
  set (e3 := updateMemory (updateBeatTracking (set_frameTime e t) t a) a t) in *.
  unfold checkTriggers in H4.
  destruct (forEachSequence_spec a t (sequences e3) e3 e4 H4) as [Hm4 _].
  destruct (updateActiveSequences_spec e4 t) as [Ha5 [Hm5 _]].
  rewrite Ha5. apply filter_In. split.
  - apply (forEachSequence_starts a t (sequences e3) e3 e4 s H4).
    + rewrite Hs3. exact Hnd.
    + rewrite Hs3. exact Hnd.
    + auto.
    + rewrite Hs3. exact Hin.
    + unfold activeNames. rewrite Ha3. exact Hidle.
    + intros e0 He0. apply Hfires. rewrite Hm5, Hm4. exact He0.
  - apply stillRunning_lt. simpl. rlra.
Qed.

(** C7 (as the code has it).  [checkTriggers] starts a sequence exactly when
    its trigger is met while no instance of its name is active, so the
    active sequences have distinct names in every engine that was reached
    without starting by hand a sequence that was active; a call of
    [startSequence] itself adds an instance of a defined sequence whatever is
    active (and does nothing for a name that is not defined).  A tick adds an
    entry only for a defined sequence whose trigger is met while no entry of
    its name is active, started at the tick's time, does add one for every
    such sequence, and keeps exactly the entries whose elapsed time is below
    their duration; so, the clock not running backwards, an entry is in the
    active set after a tick at time [T] exactly when [T] is before its start
    time plus its duration. *)
Theorem triggers_start_one_instance_per_sequence (e : Engine.t) :
  reachable e ->
  (reachableGuarded e -> NoDup (activeNames e)) /\
  (forall c e', call e c = Normal e' -> startsActive e c = false ->
     NoDup (activeNames e) -> NoDup (activeNames e')) /\
  (forall n startTime,
     (sequencesGet e n = None -> startSequence e n startTime = e) /\
     (forall s, sequencesGet e n = Some s ->
        name s = n /\
        activeSequences (startSequence e n startTime) =
          activeSequences e ++ [Active.mk s startTime 0])) /\
  (forall currentTime audioData e',
     running e = true ->
     animate e currentTime audioData = Normal e' ->
     (forall x, In x (activeSequences e') ->
        In x (activeSequences e) \/
        (Active.startTime x = currentTime /\
         ~ In (name (Active.sequence x)) (activeNames e) /\
         In (Active.sequence x) (sequences e) /\
         exists e0, memory e0 = memory e' /\
                    triggered e0 (Active.sequence x) audioData = Normal true)) /\
     (forall s, In s (sequences e) -> ~ In (name s) (activeNames e) ->
        (forall f, trigger s = TriggerFunction f ->
           f audioData (memory e') = true ->
           (In (Active.mk s currentTime 0) (activeSequences e') <-> 0 < duration s)) /\
        (forall expression, trigger s = TriggerString expression ->
           (forall e0, memory e0 = memory e' ->
              exists v,
                js_eval (mkScope e0 expression audioData)
                  (safeExpr expression audioData) = Normal v /\
                truthy v = true) ->
           (In (Active.mk s currentTime 0) (activeSequences e') <-> 0 < duration s))) /\
     (forall x, In x (activeSequences e) ->
        (In x (activeSequences e') <->
         currentTime - Active.startTime x < duration (Active.sequence x))) /\
     (forall x, In x (activeSequences e') ->
        currentTime - Active.startTime x < duration (Active.sequence x))) /\
  (forall x l T audioData e',
     running e = true ->
     In x (activeSequences e) ->
     ticks e (l ++ [(T, audioData)]) = Normal e' ->
     (forall t, In t (map fst l) -> t <= T) ->
     (In x (activeSequences e') <->
      T < Active.startTime x + duration (Active.sequence x))).
Proof.
  intros Hreach. pose proof (reachable_sequence_names e Hreach) as Hnames.
  split; [apply guarded_names|]. split; [apply call_keeps_names|]. split.
  { intros n startTime. destruct (startSequence_get e n startTime) as [Hnone Hsome].
    split; [exact Hnone|]. intros s Hs. destruct (Hsome s Hs) as [Hn [Ha _]].
    split; assumption. }
  split.
  - intros currentTime audioData e' Hrun Han.
    destruct (animate_spec e currentTime audioData e' Hrun Han)
      as [_ [_ [_ [_ [Hin Hkeep]]]]].
    assert (Hbelow : forall x, In x (activeSequences e') ->
              currentTime - Active.startTime x < duration (Active.sequence x)).
    { intros x Hx. apply stillRunning_lt. apply Hin. exact Hx. }
    assert (Hstart : forall s, In s (sequences e) -> ~ In (name s) (activeNames e) ->
              (forall e0, memory e0 = memory e' -> triggered e0 s audioData = Normal true) ->
              (In (Active.mk s currentTime 0) (activeSequences e') <-> 0 < duration s)).
    { intros s Hs Hidle Hfires. split.
      - intros Hx. specialize (Hbelow _ Hx). simpl in Hbelow. rlra.
      - intros Hdur.
        apply (animate_fires e currentTime audioData e' s Hnames Hrun Han Hs Hidle
                 Hfires Hdur). }
    split; [|split; [|split; [|exact Hbelow]]].
    + intros x Hx.
      destruct (Hin x Hx)
        as [_ [Hold|[Ht [Hn [Hdef [s [e0 [Hs0 [Hn0 [Hm0 Hf0]]]]]]]]]];
        [left; exact Hold|].
      right. split; [exact Ht|]. split; [exact Hn|]. split; [exact Hdef|].
      exists e0. split; [exact Hm0|].
      rewrite <- (names_unique (sequences e) s (Active.sequence x) Hnames Hs0 Hdef Hn0).
      exact Hf0.
    + intros s Hs Hidle. split.
      * intros f Htrig Hf. apply (Hstart s Hs Hidle). intros e0 He0.
        unfold triggered. rewrite Htrig, He0, Hf. reflexivity.
      * intros expression Htrig Hv. apply (Hstart s Hs Hidle). intros e0 He0.
        destruct (Hv e0 He0) as [v [Hval Htruthy]].
        unfold triggered. rewrite Htrig, evaluateTrigger_value, Hval. simpl.
        rewrite Htruthy. reflexivity.
    + intros x Hx. split.
      * intros Hx'. apply Hbelow. exact Hx'.
      * intros Hlt. apply Hkeep; [exact Hx|]. apply stillRunning_lt. exact Hlt.
  - intros x l T audioData e' Hrun Hx Hticks Hmono.
    apply ticks_app in Hticks. destruct Hticks as [e1 [H1 Hlast]].
    simpl in Hlast. apply bind_normal in Hlast.
    destruct Hlast as [e2 [Han Heq]]. injection Heq as <-.
    split.
    + intros Hin.
      pose proof (ticks_running l e e1 Hrun H1) as Hrun1.
      destruct (animate_spec e1 T audioData e2 Hrun1 Han) as [_ [_ [_ [_ [Hin2 _]]]]].
      destruct (Hin2 x Hin) as [Hstill _]. apply stillRunning_lt in Hstill. rlra.
    + intros Hlt.
      assert (Hall : forall t, In t (map fst l) -> stillRunning t x = true).
      { intros t Ht. apply stillRunning_lt. specialize (Hmono t Ht). rlra. }
      destruct (ticks_keep l e e1 x Hrun Hx H1 Hall) as [Hrun1 Hin1].
      destruct (animate_spec e1 T audioData e2 Hrun1 Han) as [_ [_ [_ [_ [_ Hkeep]]]]].
      apply Hkeep; [exact Hin1|]. apply stillRunning_lt. rlra.
Qed.

(** With nothing active and one sequence whose trigger is met, a tick leaves
    one instance of it, started at the tick's time. *)
Lemma animate_starts (e : Engine.t) (s : Sequence) (f : AudioData -> Memory -> bool)
    (t : R) (a : AudioData) (e' : Engine.t) :
  running e = true -> activeSequences e = [] -> sequences e = [s] ->
  trigger s = TriggerFunction f -> (forall m, f a m = true) -> 0 < duration s ->
  animate e t a = Normal e' ->
  activeSequences e' = [Active.mk s t 0].
Proof.
  intros Hrun Hact Hseq Htrig Hf Hdur Han.
  unfold animate in Han. rewrite Hrun in Han. simpl in Han.
  destruct (phases_before_triggers e t a) as [Ha3 Hs3].
  set (e3 := updateMemory (updateBeatTracking (set_frameTime e t) t a) a t) in *.
  unfold checkTriggers in Han. rewrite Hs3, Hseq in Han. simpl in Han.
  unfold checkTrigger, isActive in Han. rewrite Ha3, Hact in Han. simpl in Han.
  unfold triggered in Han. rewrite Htrig, Hf in Han. simpl in Han.
  unfold startSequence in Han. rewrite Hs3, Hseq in Han. simpl in Han.
  rewrite String.eqb_refl in Han. simpl in Han. injection Han as <-.
  destruct (updateActiveSequences_spec
              (set_active e3 (activeSequences e3 ++ [Active.mk s t 0])
                 (sequenceHistory e3 ++ [(name s, t)])) t) as [Ha5 _].
  rewrite Ha5. simpl. rewrite Ha3, Hact. simpl.
  assert (Hstill : stillRunning t (Active.mk s t 0) = true).
  { apply stillRunning_lt. simpl. rlra. }
  rewrite Hstill. reflexivity.
Qed.

(** With one instance active, a tick starts nothing and keeps the instance
    exactly while its elapsed time is below its duration. *)
Lemma animate_one_active (e : Engine.t) (s : Sequence) (x : Active.t)
    (t : R) (a : AudioData) (e' : Engine.t) :
  running e = true -> activeSequences e = [x] -> sequences e = [s] ->
  name (Active.sequence x) = name s ->
  animate e t a = Normal e' ->
  activeSequences e' = if stillRunning t x then [x] else [].
Proof.
  intros Hrun Hact Hseq Hname Han.
  unfold animate in Han. rewrite Hrun in Han. simpl in Han.
  destruct (phases_before_triggers e t a) as [Ha3 Hs3].
  set (e3 := updateMemory (updateBeatTracking (set_frameTime e t) t a) a t) in *.
  unfold checkTriggers in Han. rewrite Hs3, Hseq in Han. simpl in Han.
  unfold checkTrigger, isActive in Han. rewrite Ha3, Hact in Han. simpl in Han.
  rewrite Hname, String.eqb_refl in Han. simpl in Han. injection Han as <-.
  destruct (updateActiveSequences_spec e3 t) as [Ha5 _].
  rewrite Ha5, Ha3, Hact. simpl. destruct (stillRunning t x); reflexivity.
Qed.

(** A sequence of 1000 ms whose trigger is always met, in an engine started
    at time 0: the tick at 0 starts it, the tick at 999 still holds it, the
    tick at 1000 drops it (and starts nothing), the tick at 1016 starts it
    again. *)
Example instance_lifecycle (e1 e2 e3 e4 : Engine.t) (a : AudioData) :
  animate (start withAlways 0) 0 a = Normal e1 ->
  animate e1 999 a = Normal e2 ->
  animate e2 1000 a = Normal e3 ->
  animate e3 1016 a = Normal e4 ->
  activeSequences e1 = [Active.mk alwaysSequence 0 0] /\
  activeSequences e2 = [Active.mk alwaysSequence 0 0] /\
  activeSequences e3 = [] /\
  activeSequences e4 = [Active.mk alwaysSequence 1016 0].
Proof.
  intros H1 H2 H3 H4.
  assert (Hdur : 0 < duration alwaysSequence) by (simpl; rlra).
  pose proof (animate_starts (start withAlways 0) alwaysSequence (fun _ _ => true)
                0 a e1 eq_refl eq_refl eq_refl eq_refl (fun _ => eq_refl) Hdur H1)
    as Ha1.
  destruct (animate_spec (start withAlways 0) 0 a e1 eq_refl H1)
    as [_ [Hs1 [Hr1 _]]].
  pose proof (animate_one_active e1 alwaysSequence _ 999 a e2 Hr1 Ha1 Hs1 eq_refl H2)
    as Ha2.
  assert (Hstill : stillRunning 999 (Active.mk alwaysSequence 0 0) = true)
    by (apply stillRunning_lt; simpl; rlra).
  rewrite Hstill in Ha2.
  destruct (animate_spec e1 999 a e2 Hr1 H2) as [_ [Hs2 [Hr2 _]]].
  rewrite Hs1 in Hs2.
  pose proof (animate_one_active e2 alwaysSequence _ 1000 a e3 Hr2 Ha2 Hs2 eq_refl H3)
    as Ha3.
  assert (Hgone : stillRunning 1000 (Active.mk alwaysSequence 0 0) = false).
  { destruct (stillRunning 1000 (Active.mk alwaysSequence 0 0)) eqn:E;
      [|reflexivity].
    apply stillRunning_lt in E. simpl in E. rlra. }
  rewrite Hgone in Ha3.
  destruct (animate_spec e2 1000 a e3 Hr2 H3) as [_ [Hs3 [Hr3 _]]].
  rewrite Hs2 in Hs3.
  pose proof (animate_starts e3 alwaysSequence (fun _ _ => true) 1016 a e4
                Hr3 Ha3 Hs3 eq_refl (fun _ => eq_refl) Hdur H4) as Ha4.
  tauto.
Qed.

End EngineFacts.

(** ** Instances of the statements about the engine *)

Section EngineInstances.
Import Engine.
Local Open Scope R_scope.

Lemma rotationMomentum_only_zw_moves_witness :
  exists e1,
    animate (H := strictHost) startedEngine 10 loud = Normal e1 /\
    xw (rotationMomentum (memory e1)) = 0 /\
    yw (rotationMomentum (memory e1)) = 0 /\
    zw (rotationMomentum (memory e1)) = (0 + 9 / 10 * (1 / 10)) * (98 / 100).
Proof.
  destruct (animate_normal (host := strictHost) startedEngine 10 loud) as [e1 H1].
  exists e1. split; [exact H1|].
  assert (Hreach : reachable (H := strictHost) e1).
  { apply (reachable_call (H := strictHost) startedEngine (CallAnimate 10 loud));
      [|exact H1].
    apply (reachable_call (H := strictHost) (new [] None) (CallStart 0));
      [apply reachable_new|reflexivity]. }
  destruct (rotationMomentum_only_zw_moves (host := strictHost) e1)
    as [_ [_ [_ Hzero]]].
  destruct (rotationMomentum_only_zw_moves (host := strictHost) startedEngine)
    as [Hupdate [Htick _]].
  destruct (Hzero Hreach) as [Hx Hy].
  split; [exact Hx|]. split; [exact Hy|].
  rewrite (Htick 10 loud e1 eq_refl H1).
  destruct (Hupdate loud 10) as [_ [_ [Hloud _]]].
  apply (Hloud (9 / 10)); [apply lookup_insert_eq|Lra.lra].
Defined.

Lemma literalHost_numbers (x : R) (n : string) :
  In n triggerNames -> ~ occursIn n (numberToString (Host := literalHost) x).
Proof.
  intros Hn. apply occursb_false. cbn [numberToString literalHost].
  unfold triggerNames in Hn. simpl in Hn.
  destruct (Reqb x (9 / 10));
    destruct Hn as [<-|[<-|[<-|[<-|[<-|[]]]]]]; reflexivity.
Qed.

Lemma loud_bass : orZero (bandValue loud "bass") = 9 / 10.
Proof.
  assert (Hbass : bandValue loud "bass" = Some (9 / 10)) by apply lookup_insert_eq.
  rewrite Hbass. reflexivity.
Qed.

Lemma literalHost_nine : numberToString (Host := literalHost) (9 / 10) = "0.9"%string.
Proof.
  cbn [numberToString literalHost].
  replace (Reqb (9 / 10) (9 / 10)) with true by (symmetry; apply Reqb_eq; reflexivity).
  reflexivity.
Qed.

Lemma nine_truthy : truthy (JsNumber (9 / 10)) = true.
Proof.
  simpl. replace (Reqb (9 / 10) 0) with false; [reflexivity|].
  symmetry. apply Reqb_neq. Lra.lra.
Qed.

Lemma one_truthy : truthy (JsNumber 1) = true.
Proof.
  simpl. replace (Reqb 1 0) with false; [reflexivity|].
  symmetry. apply Reqb_neq. Lra.lra.
Qed.

Lemma selfStartingText_safe (a : AudioData) :
  safeExpr (H := literalHost) selfStartingText a = selfStartingText.
Proof.
  apply safeExpr_absent. intros n Hn. apply occursb_false.
  unfold triggerNames in Hn. simpl in Hn.
  destruct Hn as [<-|[<-|[<-|[<-|[<-|[]]]]]]; reflexivity.
Qed.

Lemma evaluateTrigger_returns_what_eval_gives_witness :
  safeExpr (H := literalHost) "bass" loud = "0.9"%string /\
  evaluateTrigger (H := literalHost) withLiterals "bass" (Some loud) =
    Normal (JsNumber (9 / 10)) /\
  checkTrigger (H := literalHost) loud 0 withLiterals bassSequence =
    Normal (startSequence withLiterals "bassline" 0) /\
  evaluateTriggerDirect (H := literalHost) (D := callingEval) withSelfStarting
    selfStartingText (Some silence) =
    (startSequence withSelfStarting "self" 0, JsBool false).
Proof.
  destruct (evaluateTrigger_returns_what_eval_gives (host := literalHost) callingEval
              withLiterals "bass" loud)
    as [_ [_ [_ [_ [_ [Hnames [Hvalue _]]]]]]].
  destruct (Hnames literalHost_numbers) as [Hbass _].
  rewrite loud_bass, literalHost_nine in Hbass.
  assert (Heval : js_eval (Host := literalHost) (mkScope withLiterals "bass" loud)
                    (safeExpr (H := literalHost) "bass" loud) =
                  Normal (JsNumber (9 / 10)))
    by (rewrite Hbass; reflexivity).
  destruct (Hvalue _ Heval) as [Hv Hcheck].
  specialize (Hcheck bassSequence 0 eq_refl eq_refl).
  rewrite nine_truthy in Hcheck.
  destruct (evaluateTrigger_returns_what_eval_gives (host := literalHost) callingEval
              withSelfStarting selfStartingText silence) as [Hdirect _].
  cbv zeta in Hdirect. rewrite selfStartingText_safe in Hdirect.
  split; [exact Hbass|]. split; [exact Hv|]. split; [exact Hcheck|exact Hdirect].
Defined.

(** The text "1" evaluates to the number 1 and the text "bass", on a frame
    with bass 0.9, to the number 0.9: neither is a boolean, and each starts
    its sequence.  A text that calls [startSequence] and then throws
    evaluates to [false] after its sequence was started. *)
Lemma trigger_values_are_not_checked :
  evaluateTrigger (H := literalHost) withLiterals "1" (Some silence) =
    Normal (JsNumber 1) /\
  checkTrigger (H := literalHost) silence 0 withLiterals literalSequence =
    Normal (startSequence withLiterals "literal" 0) /\
  activeSequences (startSequence withLiterals "literal" 0) =
    [Active.mk literalSequence 0 0] /\
  evaluateTrigger (H := literalHost) withLiterals "bass" (Some loud) =
    Normal (JsNumber (9 / 10)) /\
  checkTrigger (H := literalHost) loud 0 withLiterals bassSequence =
    Normal (startSequence withLiterals "bassline" 0) /\
  activeSequences (startSequence withLiterals "bassline" 0) =
    [Active.mk bassSequence 0 0] /\
  evaluateTriggerDirect (H := literalHost) (D := callingEval) withSelfStarting
    selfStartingText (Some silence) =
    (startSequence withSelfStarting "self" 0, JsBool false) /\
  checkTriggerDirect (H := literalHost) (D := callingEval) silence 0
    withSelfStarting selfStarting = startSequence withSelfStarting "self" 0 /\
  activeSequences (startSequence withSelfStarting "self" 0) =
    [Active.mk selfStarting 0 0].
Proof.
  assert (Hone : evaluateTrigger (H := literalHost) withLiterals "1" (Some silence) =
                 Normal (JsNumber 1)) by reflexivity.
  assert (Hsafe : safeExpr (H := literalHost) "bass" loud = "0.9"%string).
  { destruct (safeExpr_names (host := literalHost) loud literalHost_numbers)
      as [Hbass _].
    rewrite Hbass, loud_bass. apply literalHost_nine. }
  assert (Hbass : evaluateTrigger (H := literalHost) withLiterals "bass" (Some loud) =
                  Normal (JsNumber (9 / 10))).
  { rewrite (evaluateTrigger_value (host := literalHost)), Hsafe. reflexivity. }
  assert (Hself : evaluateTriggerDirect (H := literalHost) (D := callingEval)
                    withSelfStarting selfStartingText (Some silence) =
                  (startSequence withSelfStarting "self" 0, JsBool false)).
  { rewrite (evaluateTriggerDirect_value (host := literalHost)).
    rewrite selfStartingText_safe. reflexivity. }
  split; [exact Hone|]. split.
  { unfold checkTrigger, triggered. cbn [isActive withLiterals activeSequences
      set_sequences new existsb literalSequence trigger name].
    rewrite Hone. cbn [bind]. rewrite one_truthy. reflexivity. }
  split; [reflexivity|]. split; [exact Hbass|]. split.
  { unfold checkTrigger, triggered. cbn [isActive withLiterals activeSequences
      set_sequences new existsb bassSequence trigger name].
    rewrite Hbass. cbn [bind]. rewrite nine_truthy. reflexivity. }
  split; [reflexivity|]. split; [exact Hself|]. split; [|reflexivity].
  unfold checkTriggerDirect. cbn [isActive withSelfStarting activeSequences
    set_sequences new existsb selfStarting trigger name].
  rewrite Hself. reflexivity.
Qed.

Lemma startedAlways_reachable :
  reachable (H := strictHost) (start withAlways 0) /\
  reachableGuarded (H := strictHost) (start withAlways 0).
Proof.
  split.
  - apply (reachable_call (H := strictHost) withAlways (CallStart 0));
      [|reflexivity].
    apply (reachable_call (H := strictHost) (new [] None)
             (CallDefineSequence alwaysSequence));
      [apply reachable_new|reflexivity].
  - apply (guarded_call (H := strictHost) withAlways (CallStart 0));
      [|reflexivity|reflexivity].
    apply (guarded_call (H := strictHost) (new [] None)
             (CallDefineSequence alwaysSequence));
      [apply guarded_new|reflexivity|reflexivity].
Qed.

Lemma triggers_start_one_instance_per_sequence_witness :
  exists e1,
    animate (H := strictHost) (start withAlways 0) 0 silence = Normal e1 /\
    In (Active.mk alwaysSequence 0 0) (activeSequences e1) /\
    NoDup (activeNames e1) /\
    activeSequences startedOnce =
      activeSequences withAlways ++ [Active.mk alwaysSequence 0 0].
Proof.
  destruct (animate_normal (host := strictHost) (start withAlways 0) 0 silence)
    as [e1 H1].
  destruct startedAlways_reachable as [Hreach Hguard].
  assert (Hreach1 : reachable (H := strictHost) e1).
  { apply (reachable_call (H := strictHost) (start withAlways 0)
             (CallAnimate 0 silence)); [exact Hreach|exact H1]. }
  assert (Hguard1 : reachableGuarded (H := strictHost) e1).
  { apply (guarded_call (H := strictHost) (start withAlways 0)
             (CallAnimate 0 silence)); [exact Hguard|reflexivity|exact H1]. }
  destruct (triggers_start_one_instance_per_sequence (host := strictHost)
              (start withAlways 0) Hreach) as [_ [_ [_ [Htick _]]]].
  destruct (Htick 0 silence e1 eq_refl H1) as [_ [Hstart _]].
  destruct (Hstart alwaysSequence (or_introl eq_refl) (fun H => H)) as [Hf _].
  destruct (triggers_start_one_instance_per_sequence (host := strictHost) e1 Hreach1)
    as [Hnames _].
  assert (Hdefined : reachable (H := strictHost) withAlways).
  { apply (reachable_call (H := strictHost) (new [] None)
             (CallDefineSequence alwaysSequence));
      [apply reachable_new|reflexivity]. }
  destruct (triggers_start_one_instance_per_sequence (host := strictHost) withAlways
              Hdefined) as [_ [_ [Hmanual _]]].
  destruct (Hmanual "always"%string 0) as [_ Hsome].
  destruct (Hsome alwaysSequence eq_refl) as [_ Hact].
  exists e1. split; [exact H1|]. split.
  - apply (Hf (fun _ _ => true) eq_refl eq_refl). simpl. Lra.lra.
  - split; [exact (Hnames Hguard1)|exact Hact].
Defined.

(** Two calls of [startSequence] for a defined sequence leave two instances
    of it, in an engine that never ran a tick. *)
Lemma direct_starts_give_two_instances :
  call (H := strictHost) (new [] None) (CallDefineSequence alwaysSequence) =
    Normal withAlways /\
  call (H := strictHost) withAlways (CallStartSequence "always" 0) =
    Normal startedOnce /\
  call (H := strictHost) startedOnce (CallStartSequence "always" 5) =
    Normal startedTwice /\
  reachable (H := strictHost) startedTwice /\
  running startedTwice = false /\
  activeSequences startedTwice =
    [Active.mk alwaysSequence 0 0; Active.mk alwaysSequence 5 0] /\
  ~ NoDup (activeNames startedTwice).
Proof.
  split; [reflexivity|]. split; [reflexivity|]. split; [reflexivity|]. split.
  { apply (reachable_call (H := strictHost) startedOnce (CallStartSequence "always" 5));
      [|reflexivity].
    apply (reachable_call (H := strictHost) withAlways (CallStartSequence "always" 0));
      [|reflexivity].
    apply (reachable_call (H := strictHost) (new [] None)
             (CallDefineSequence alwaysSequence));
      [apply reachable_new|reflexivity]. }
  split; [reflexivity|]. split; [reflexivity|].
  assert (Hn : activeNames startedTwice = ["always"; "always"]%string) by reflexivity.
  rewrite Hn. intros Hnd. apply NoDup_cons in Hnd. destruct Hnd as [Hx _].
  apply Hx. apply list_elem_of_In. left. reflexivity.
Qed.

(** The text "bass > 0.8" on a frame with bass 0.9 reaches [eval] as
    "0.9 > 0.8"; a text over an unknown name is an error to [eval] and
    evaluates to [false]. *)
Example trigger_texts (e : Engine.t) :
  safeExpr (H := comparingHost) "bass > 0.8" loud = "0.9 > 0.8"%string /\
  evaluateTrigger (H := comparingHost) e "bass > 0.8" (Some loud) =
    Normal (JsBool true) /\
  evaluateTrigger (H := comparingHost) e "treble > 0.8" (Some loud) =
    Normal (JsBool false).
Proof.
  assert (Hbass : bandValue loud "bass" = Some (9 / 10))
    by apply lookup_insert_eq.
  assert (Hnine : Reqb (9 / 10) (9 / 10) = true) by (apply Reqb_eq; reflexivity).
  assert (Hsafe : safeExpr (H := comparingHost) "bass > 0.8" loud =
                  "0.9 > 0.8"%string).
  { unfold safeExpr. rewrite Hbass. cbn [orZero numberToString comparingHost].
    rewrite Hnine. reflexivity. }
  split; [exact Hsafe|]. split.
  - unfold evaluateTrigger, evaluateBody.
    fold (safeExpr (H := comparingHost) "bass > 0.8" loud). rewrite Hsafe.
    reflexivity.
  - reflexivity.
Qed.

End EngineInstances.

(** * Further properties of the code *)

(** ** The analyzer: smoothing, history and estimate *)

Section AnalyzerInvariants.
Import Analyzer.
Local Open Scope Q_scope.

Lemma analyze_smoothedBands (a : t) (m : Measurement) (c : Clock) :
  analyser a = true ->
  smoothedBands (snd (analyze a (Some m) c)) = smoothedBands (analyzeFeatures a m).
Proof.
  intros Ha. unfold analyze. rewrite Ha. simpl negb. cbv iota.
  assert (Hd : smoothedBands (snd (detectOnset (analyzeFeatures a m) c)) =
               smoothedBands (analyzeFeatures a m)).
  { unfold detectOnset. destruct (_ && _); reflexivity. }
  destruct (detectOnset (analyzeFeatures a m) c) as [ev a2]. simpl in Hd.
  assert (He : smoothedBands (snd (estimateBPM a2)) = smoothedBands a2).
  { unfold estimateBPM. destruct (_ <? _)%nat; reflexivity. }
  destruct (4 <=? length (onsetHistory a2))%nat; simpl; congruence.
Qed.

Lemma analyze_frame_bands (a : t) (pull : option Measurement) (c : Clock) :
  analyser a = true -> pull <> None ->
  Frame.bands (fst (analyze a pull c)) =
  (fun b => orZero (value b)) <$> smoothedBands (snd (analyze a pull c)).
Proof.
  intros Ha Hp. destruct pull as [m|]; [|congruence].
  unfold analyze. rewrite Ha. simpl negb. cbv iota.
  destruct (detectOnset (analyzeFeatures a m) c) as [ev a2].
  destruct (4 <=? length (onsetHistory a2))%nat; reflexivity.
Qed.

Lemma convex_between (alpha s r : Q) :
  0 <= alpha <= 1 ->
  Qmin s r <= alpha * s + (1 - alpha) * r <= Qmax s r.
Proof.
  intros [H0 H1].
  destruct (Qlt_le_dec s r) as [Hsr|Hrs].
  - rewrite (Q.min_l s r), (Q.max_r s r) by lra. split; nra.
  - rewrite (Q.min_r s r), (Q.max_l s r) by lra. split; nra.
Qed.

(** X1.  A frame replaces every band value by the mix
    [smoothingFactor * old + (1 - smoothingFactor) * average], leaving the
    band's frequency limits; for a smoothing factor between 0 and 1 the new
    value lies between the old value and the frame's average, so values that
    start in the unit interval stay there, and the frame reports the new
    value. *)
Theorem band_smoothing_is_convex
    (a : Analyzer.t) (m : Measurement) (c : Clock) (n : string) (b : Band) :
  analyser a = true ->
  0 <= smoothingFactor a <= 1 ->
  smoothedBands a !! n = Some b ->
  exists b',
    smoothedBands (snd (analyze a (Some m) c)) !! n = Some b' /\
    low b' = low b /\ high b' = high b /\
    value b' = smoothingFactor a * value b + (1 - smoothingFactor a) * avgValue m n /\
    Qmin (value b) (avgValue m n) <= value b' <= Qmax (value b) (avgValue m n) /\
    (0 <= value b <= 1 -> 0 <= avgValue m n <= 1 -> 0 <= value b' <= 1) /\
    Frame.bands (fst (analyze a (Some m) c)) !! n = Some (orZero (value b')).
Proof.
  intros Ha Halpha Hb.
  exists (mkBand (low b) (high b)
            (smoothingFactor a * value b + (1 - smoothingFactor a) * avgValue m n)).
  assert (Hl : smoothedBands (snd (analyze a (Some m) c)) !! n =
               Some (mkBand (low b) (high b)
                       (smoothingFactor a * value b
                        + (1 - smoothingFactor a) * avgValue m n))).
  { rewrite analyze_smoothedBands by assumption. simpl.
    rewrite map_lookup_imap, Hb. reflexivity. }
  pose proof (convex_between (smoothingFactor a) (value b) (avgValue m n) Halpha)
    as Hc.
  split; [exact Hl|]. simpl.
  split; [reflexivity|]. split; [reflexivity|]. split; [reflexivity|].
  split; [exact Hc|]. split.
  - intros [H1 H2] [H3 H4]. destruct Halpha. split; nra.
  - rewrite analyze_frame_bands by (assumption || discriminate).
    rewrite lookup_fmap, Hl. reflexivity.
Qed.

Lemma band_smoothing_is_convex_witness :
  exists b',
    smoothedBands (snd (analyze (new defaultOptions) (Some (fluxOnly 0)) (clockAt 16)))
      !! "bass"%string = Some b' /\
    0 <= value b' <= 1.
Proof.
  assert (Halpha : 0 <= smoothingFactor (new defaultOptions) <= 1)
    by (simpl; lra).
  destruct (band_smoothing_is_convex (new defaultOptions) (fluxOnly 0) (clockAt 16)
              "bass" (mkBand 60 250 0) eq_refl Halpha eq_refl)
    as [b' [Hl [_ [_ [_ [_ [Hunit _]]]]]]].
  exists b'. split; [exact Hl|]. apply Hunit; simpl; lra.
Defined.

(** *** The onset history of a reachable analyzer *)

Lemma intervals_snoc (h : list Q) (x : Q) :
  intervals (h ++ [x]) =
  match h with
  | [] => []
  | _ :: _ => intervals h ++ [x - List.last h 0]
  end.
Proof.
  induction h as [|y h IH]; [reflexivity|].
  destruct h as [|z h]; [reflexivity|].
  change (intervals ((y :: z :: h) ++ [x]))
    with ((z - y) :: intervals ((z :: h) ++ [x])).
  rewrite IH.
  change (intervals (y :: z :: h)) with ((z - y) :: intervals (z :: h)).
  reflexivity.
Qed.

Lemma intervals_tl (h : list Q) : intervals (tl h) = tl (intervals h).
Proof.
  destruct h as [|x h]; [reflexivity|]. destruct h as [|y h]; reflexivity.
Qed.

Lemma last_tl (h : list Q) (d : Q) :
  tl h <> [] -> List.last (tl h) d = List.last h d.
Proof.
  destruct h as [|x h]; [reflexivity|]. simpl. intros Hne.
  destruct h; [congruence|reflexivity].
Qed.

Lemma pushOnset_gapped (cap : nat) (h : list Q) (last now : Q) :
  gapped h -> (h = [] \/ List.last h 0 = last) -> 100 < now - last ->
  gapped (pushOnset cap h now) /\
  (pushOnset cap h now = [] \/ List.last (pushOnset cap h now) 0 = now).
Proof.
  intros Hg Hlast Hgap.
  assert (Hfull : gapped (h ++ [now])).
  { unfold gapped in *. rewrite intervals_snoc. destruct h as [|y h]; [constructor|].
    apply Forall_app. split; [exact Hg|]. constructor; [|constructor].
    destruct Hlast as [Hnil|Hl]; [discriminate|]. rewrite Hl. exact Hgap. }
  assert (Hend : List.last (h ++ [now]) 0 = now) by apply last_last.
  unfold pushOnset. destruct (cap <? length (h ++ [now]))%nat.
  - split.
    + unfold gapped in *. rewrite intervals_tl.
      destruct (intervals (h ++ [now])) as [|d ds]; [constructor|].
      simpl. apply Forall_cons_iff in Hfull. apply Hfull.
    + destruct (tl (h ++ [now])) as [|z zs] eqn:E; [left; reflexivity|].
      right. rewrite <- E. rewrite last_tl by (rewrite E; discriminate).
      exact Hend.
  - split; [exact Hfull|]. right. exact Hend.
Qed.

Lemma analyze_history (a : t) (pull : option Measurement) (c : Clock) :
  let a' := snd (analyze a pull c) in
  (onsetHistory a' = onsetHistory a /\ lastOnsetTime a' = lastOnsetTime a) \/
  (exists now, 100 < now - lastOnsetTime a /\ lastOnsetTime a' = now /\
               onsetHistory a' = pushOnset (maxOnsetHistory a) (onsetHistory a) now).
Proof.
  unfold analyze. destruct (analyser a); simpl negb; cbv iota; [|left; tauto].
  destruct pull as [m|]; [|left; tauto].
  pose proof (detectOnset_fires (analyzeFeatures a m) c) as Hf.
  pose proof (detectOnset_effect (analyzeFeatures a m) c) as He.
  destruct (detectOnset (analyzeFeatures a m) c) as [ev a2].
  simpl in Hf, He. destruct He as [_ [_ [_ [Hyes Hno]]]].
  assert (Hh : onsetHistory (snd (estimateBPM a2)) = onsetHistory a2)
    by apply estimateBPM_history.
  assert (Hl : lastOnsetTime (snd (estimateBPM a2)) = lastOnsetTime a2).
  { unfold estimateBPM. destruct (_ <? _)%nat; reflexivity. }
  assert (Hcase :
    (onsetHistory a2 = onsetHistory a /\ lastOnsetTime a2 = lastOnsetTime a) \/
    (exists now, 100 < now - lastOnsetTime a /\ lastOnsetTime a2 = now /\
                 onsetHistory a2 = pushOnset (maxOnsetHistory a) (onsetHistory a) now)).
  { destruct (detected ev) eqn:Hd.
    - right. exists (getCurrentTime c). destruct (Hyes eq_refl) as [H1 H2].
      split; [apply Hf; reflexivity|]. split; assumption.
    - left. destruct (Hno eq_refl) as [H1 H2]. split; assumption. }
  destruct (4 <=? length (onsetHistory a2))%nat; simpl;
    rewrite ?Hh, ?Hl; exact Hcase.
Qed.

Lemma reachable_gapped (a : t) :
  reachable a ->
  gapped (onsetHistory a) /\
  (onsetHistory a = [] \/ List.last (onsetHistory a) 0 = lastOnsetTime a).
Proof.
  induction 1 as [o|a pull c Hr [IHg IHl]].
  - split; [constructor|left; reflexivity].
  - destruct (analyze_history a pull c) as [[Hh Hl]|[now [Hgap [Hl Hh]]]].
    + rewrite Hh, Hl. split; assumption.
    + rewrite Hh, Hl. apply (pushOnset_gapped _ _ (lastOnsetTime a)); assumption.
Qed.

Lemma run_reachable (inputs : list (option Measurement * Clock)) (a : t) :
  reachable a -> reachable (snd (run a inputs)).
Proof.
  revert a. induction inputs as [|[pull c] rest IH]; intros a Hr; simpl; [exact Hr|].
  pose proof (reachable_analyze a pull c Hr) as H1.
  destruct (analyze a pull c) as [f a1]. simpl in H1.
  specialize (IH a1 H1). destruct (run a1 rest) as [fs a2]. exact IH.
Qed.

(** X2.  In every analyzer a program can reach the recorded onsets are more than
    100 ms apart, oldest first, and the last of them is the onset time the
    detector compares with.  So the median interval that [estimateBPM] divides
    by is above 100 ms, never zero, and the quotient is below 600. *)
Theorem reachable_history_is_gapped (a : Analyzer.t) :
  reachable a ->
  (forall d, In d (intervals (onsetHistory a)) -> 100 < d) /\
  (onsetHistory a = [] \/ List.last (onsetHistory a) 0 = lastOnsetTime a) /\
  ((2 <= length (onsetHistory a))%nat ->
   let m := medianInterval (intervals (onsetHistory a)) in
   100 < m /\ bpmOfInterval m = Finite (60000 / m) /\ 60000 / m < 600).
Proof.
  intros Hr. destruct (reachable_gapped a Hr) as [Hg Hl].
  unfold gapped in Hg. rewrite List.Forall_forall in Hg.
  split; [exact Hg|]. split; [exact Hl|].
  intros Hlen m.
  assert (Hne : intervals (onsetHistory a) <> []).
  { intros E. apply (f_equal (@length Q)) in E. rewrite intervals_length in E.
    simpl in E. lia. }
  destruct (medianInterval_isMedian _ Hne) as [Hin _].
  assert (Hm : 100 < m) by (apply Hg; exact Hin).
  split; [exact Hm|]. split; [apply bpmOfInterval_finite; lra|].
  apply Qlt_shift_div_r; lra.
Qed.

Lemma reachable_history_is_gapped_witness :
  100 < medianInterval (intervals (onsetHistory fourOnsets)).
Proof.
  assert (Hr : reachable fourOnsets).
  { unfold fourOnsets. apply run_reachable. apply reachable_new. }
  destruct (reachable_history_is_gapped fourOnsets Hr) as [_ [_ Hm]].
  apply Hm. vm_compute. lia.
Defined.

(** *** The estimate of a reachable analyzer *)

Lemma pushOnset_length_ge (cap : nat) (h : list Q) (now : Q) :
  (length h <= length (pushOnset cap h now))%nat.
Proof.
  unfold pushOnset.
  assert (Hl : length (h ++ [now]) = S (length h))
    by (rewrite length_app; simpl; lia).
  destruct (cap <? length (h ++ [now]))%nat; [|lia].
  destruct (h ++ [now]) as [|x l]; simpl in *; lia.
Qed.

Lemma analyze_history_grows (a : t) (pull : option Measurement) (c : Clock) :
  (length (onsetHistory a) <= length (onsetHistory (snd (analyze a pull c))))%nat.
Proof.
  destruct (analyze_history a pull c) as [[Hh _]|[now [_ [_ Hh]]]]; rewrite Hh.
  - lia.
  - apply pushOnset_length_ge.
Qed.

Lemma reachable_estimate (a : t) :
  reachable a ->
  ((length (onsetHistory a) < 4)%nat -> estimatedBPM a = 120) /\
  ((4 <= length (onsetHistory a))%nat ->
   estimatedBPM a =
   clampBPM (bpmOfInterval (medianInterval (intervals (onsetHistory a))))).
Proof.
  induction 1 as [o|a pull c Hr [IHfew IHmany]].
  - split; [reflexivity|]. simpl. lia.
  - destruct (analyze_bpm a pull c) as [_ [Hfew Hmany]].
    pose proof (analyze_history_grows a pull c) as Hgrow.
    assert (Hsilent : analyser a = false \/ pull = None ->
                      snd (analyze a pull c) = a).
    { unfold analyze. intros [Ha| ->].
      - rewrite Ha. reflexivity.
      - destruct (analyser a); reflexivity. }
    split.
    + intros Hlt. rewrite (Hfew Hlt). apply IHfew. lia.
    + intros Hge. destruct (analyser a) eqn:Ha.
      * destruct pull as [m|].
        -- apply Hmany; [reflexivity|discriminate|exact Hge].
        -- rewrite Hsilent in * by (right; reflexivity). apply IHmany. exact Hge.
      * rewrite Hsilent in * by (left; reflexivity). apply IHmany. exact Hge.
Qed.

(** X3.  The estimate never goes stale: in every analyzer a program can reach it
    is 120 while fewer than four onsets are recorded, and from then on it is
    60000 divided by the median interval of the onsets now in the history,
    clamped to the range from 60 to 200; the history never gets shorter, and
    every frame reports this estimate. *)
Theorem estimate_follows_history (a : Analyzer.t) :
  reachable a ->
  ((length (onsetHistory a) < 4)%nat -> estimatedBPM a = 120) /\
  ((4 <= length (onsetHistory a))%nat ->
   let m := medianInterval (intervals (onsetHistory a)) in
   isMedian m (intervals (onsetHistory a)) /\
   estimatedBPM a = Qmax 60 (Qmin 200 (60000 / m))) /\
  (forall pull c,
     (length (onsetHistory a)
      <= length (onsetHistory (snd (analyze a pull c))))%nat /\
     Frame.bpm (fst (analyze a pull c)) = estimatedBPM (snd (analyze a pull c))).
Proof.
  intros Hr. destruct (reachable_estimate a Hr) as [Hfew Hmany].
  split; [exact Hfew|]. split.
  - intros Hlen m.
    assert (Hne : intervals (onsetHistory a) <> []).
    { intros E. apply (f_equal (@length Q)) in E. rewrite intervals_length in E.
      simpl in E. lia. }
    split; [apply medianInterval_isMedian; exact Hne|].
    destruct (reachable_gapped a Hr) as [Hg _].
    unfold gapped in Hg. rewrite List.Forall_forall in Hg.
    destruct (medianInterval_isMedian _ Hne) as [Hin _].
    rewrite (Hmany Hlen). fold m.
    rewrite bpmOfInterval_finite; [reflexivity|].
    specialize (Hg m Hin). lra.
  - intros pull c. split; [apply analyze_history_grows|apply analyze_bpm].
Qed.

Lemma estimate_follows_history_witness :
  estimatedBPM fourOnsets == 120 /\ estimatedBPM (new defaultOptions) = 120.
Proof.
  assert (Hr : reachable fourOnsets).
  { unfold fourOnsets. apply run_reachable. apply reachable_new. }
  destruct (estimate_follows_history fourOnsets Hr) as [_ [Hmany _]].
  destruct (estimate_follows_history (new defaultOptions)
              (reachable_new defaultOptions)) as [Hfew _].
  split.
  - destruct (Hmany ltac:(vm_compute; lia)) as [_ Hest]. rewrite Hest.
    vm_compute. reflexivity.
  - apply Hfew. simpl. lia.
Defined.

End AnalyzerInvariants.

(** ** The analyzer: the signal-processing functions *)

Section AnalyzerSignal.
Import Analyzer.
Local Open Scope Q_scope.

Lemma Math_round_integer (i : Z) : Math_round (inject_Z i) = i.
Proof.
  unfold Math_round.
  assert (Hlo : (i <= Qfloor (inject_Z i + (1 # 2)))%Z).
  { rewrite <- (Qfloor_Z i) at 1. apply Qfloor_resp_le. lra. }
  assert (Hhi : (Qfloor (inject_Z i + (1 # 2)) < i + 1)%Z).
  { rewrite Zlt_Qlt. rewrite inject_Z_plus.
    pose proof (Qfloor_le (inject_Z i + (1 # 2))) as H.
    change (inject_Z 1) with 1. lra. }
  lia.
Qed.

(** X4.  The bin of a bin's frequency is the bin itself; frequency 0 is bin 0 and
    half the sample rate is bin [binCount], one past the last index of the
    buffer. *)
Theorem freqToBin_inverts_binToFreq (sampleRate : Q) (binCount bin : Z) :
  0 < sampleRate -> (0 < binCount)%Z ->
  freqToBin sampleRate binCount (binToFreq sampleRate binCount bin) = bin /\
  freqToBin sampleRate binCount 0 = 0%Z /\
  freqToBin sampleRate binCount (sampleRate / 2) = binCount.
Proof.
  intros Hs Hb.
  assert (Hb' : 0 < inject_Z binCount).
  { change 0 with (inject_Z 0). rewrite <- Zlt_Qlt. exact Hb. }
  unfold freqToBin, binToFreq. repeat split.
  - rewrite <- (Math_round_integer bin) at 2. unfold Math_round.
    apply Qfloor_comp. apply Qplus_comp; [|reflexivity]. field. split; lra.
  - rewrite <- (Math_round_integer 0) at 2. unfold Math_round.
    apply Qfloor_comp. apply Qplus_comp; [|reflexivity].
    change (inject_Z 0) with 0. field. lra.
  - rewrite <- (Math_round_integer binCount) at 2. unfold Math_round.
    apply Qfloor_comp. apply Qplus_comp; [|reflexivity]. field. lra.
Qed.

Lemma freqToBin_inverts_binToFreq_witness :
  freqToBin 44100 1024 (binToFreq 44100 1024 929) = 929%Z.
Proof.
  apply (freqToBin_inverts_binToFreq 44100 1024 929); reflexivity.
Defined.

(** *** Spectral flux *)

Lemma fluxSum_nonneg (f p : list Z) : (0 <= fluxSum f p)%Z.
Proof.
  revert p. induction f as [|x f IH]; intros [|y p]; simpl; try lia.
  specialize (IH p). destruct (0 <? x - y)%Z eqn:E; [apply Z.ltb_lt in E|]; lia.
Qed.

Lemma fluxSum_zero (f p : list Z) :
  length p = length f ->
  (fluxSum f p = 0%Z <-> Forall2 Z.le f p).
Proof.
  revert p. induction f as [|x f IH]; intros [|y p] Hlen; simpl in *;
    try discriminate.
  - split; [constructor|reflexivity].
  - injection Hlen as Hlen. specialize (IH p Hlen).
    pose proof (fluxSum_nonneg f p) as Hn.
    destruct (0 <? x - y)%Z eqn:E.
    + apply Z.ltb_lt in E. split; [lia|].
      intros H. apply Forall2_cons in H. lia.
    + apply Z.ltb_ge in E. rewrite Z.add_0_l, IH, Forall2_cons. intuition lia.
Qed.

Lemma flux_ratio_range (freqData prevFreqData : list Z) :
  freqData <> [] -> length prevFreqData = length freqData ->
  let ratio f p :=
    Qmin 1 (inject_Z (fluxSum f p)
            / (inject_Z (Z.of_nat (length freqData)) * 128)) in
  0 <= ratio freqData prevFreqData <= 1 /\
  (ratio freqData prevFreqData == 0 <-> Forall2 Z.le freqData prevFreqData) /\
  ratio freqData freqData == 0 /\
  (Forall2 (fun f p => (p + 128 <= f)%Z) freqData prevFreqData ->
   ratio freqData prevFreqData == 1).
Proof.
  intros Hne Hlen. cbv beta zeta.
  assert (Hn : 0 < inject_Z (Z.of_nat (length freqData)) * 128).
  { assert (H : (0 < Z.of_nat (length freqData))%Z)
      by (destruct freqData; simpl; [congruence|lia]).
    rewrite Zlt_Qlt in H. change (inject_Z 0) with 0 in H. lra. }
  pose proof (fluxSum_nonneg freqData prevFreqData) as Hs.
  rewrite Zle_Qle in Hs. change (inject_Z 0) with 0 in Hs.
  set (x := inject_Z (fluxSum freqData prevFreqData)) in *.
  set (n := inject_Z (Z.of_nat (length freqData)) * 128) in *.
  assert (Hq : 0 <= x / n) by (apply Qle_shift_div_l; lra).
  assert (Hzero : forall f p, length p = length f ->
            (Qmin 1 (inject_Z (fluxSum f p) / n) == 0 <-> Forall2 Z.le f p)).
  { intros f p Hl. rewrite <- (fluxSum_zero f p Hl).
    pose proof (fluxSum_nonneg f p) as Hs'.
    rewrite Zle_Qle in Hs'. change (inject_Z 0) with 0 in Hs'.
    assert (Hq' : 0 <= inject_Z (fluxSum f p) / n)
      by (apply Qle_shift_div_l; lra).
    split.
    - intros H.
      destruct (Qlt_le_dec 1 (inject_Z (fluxSum f p) / n)) as [Hgt|Hle].
      + rewrite Q.min_l in H by lra. lra.
      + rewrite Q.min_r in H by lra.
        assert (Hx : inject_Z (fluxSum f p) == 0).
        { assert (E : inject_Z (fluxSum f p) == inject_Z (fluxSum f p) / n * n)
            by (field; lra).
          rewrite E, H. ring. }
        apply (proj1 (inject_Z_injective (fluxSum f p) 0)). exact Hx.
    - intros ->. change (inject_Z 0) with 0.
      rewrite Q.min_r; [field; lra|]. unfold Qdiv. rewrite Qmult_0_l. lra. }
  split; [|split; [|split]].
  - split.
    + apply Q.min_glb; lra.
    + apply Q.le_min_l.
  - apply Hzero. exact Hlen.
  - apply Hzero; [reflexivity|].
    clear. induction freqData; constructor; [lia|assumption].
  - intros Hrise.
    assert (Hbig : (Z.of_nat (length freqData) * 128 <= fluxSum freqData prevFreqData)%Z).
    { clear -Hrise. induction Hrise as [|f p fs ps Hfp Hr IH];
        [simpl; lia|].
      simpl length. simpl fluxSum.
      destruct (0 <? f - p)%Z eqn:E; [|apply Z.ltb_ge in E; lia]. lia. }
    rewrite Zle_Qle in Hbig. rewrite inject_Z_mult in Hbig.
    change (inject_Z 128) with 128 in Hbig. fold x n in Hbig.
    apply Q.min_l. apply Qle_shift_div_l; lra.
Qed.

(** X5.  The flux of a frame against the previous one (the buffers not empty) is
    a number between 0 and 1; it is 0 exactly when no bin rose (a frame equal
    to the previous one, or a fading one), and 1 when every bin rose by 128
    or more. *)
Theorem spectral_flux_range (freqData prevFreqData : list Z) :
  freqData <> [] -> length prevFreqData = length freqData ->
  exists flux same,
    calcSpectralFlux freqData prevFreqData = Some flux /\
    calcSpectralFlux freqData freqData = Some same /\
    0 <= flux <= 1 /\
    (flux == 0 <-> Forall2 Z.le freqData prevFreqData) /\
    same == 0 /\
    (Forall2 (fun f p => (p + 128 <= f)%Z) freqData prevFreqData -> flux == 1).
Proof.
  intros Hne Hlen.
  destruct (flux_ratio_range freqData prevFreqData Hne Hlen)
    as [Hrange [Hzero [Hsame Hone]]].
  eexists. eexists.
  split; [destruct freqData; [congruence|reflexivity]|].
  split; [destruct freqData; [congruence|reflexivity]|].
  split; [exact Hrange|]. split; [exact Hzero|]. split; [exact Hsame|exact Hone].
Qed.

Lemma spectral_flux_range_witness :
  exists flux,
    calcSpectralFlux [200; 200; 130]%Z [10; 20; 2]%Z = Some flux /\ flux == 1.
Proof.
  destruct (spectral_flux_range [200; 200; 130]%Z [10; 20; 2]%Z
              ltac:(discriminate) eq_refl)
    as [flux [same [Hflux [_ [_ [_ [_ Hrise]]]]]]].
  exists flux. split; [exact Hflux|].
  apply Hrise. repeat constructor; lia.
Defined.

(** *** Spectral rolloff *)

Lemma bytes_checked (l : list Z) :
  forallb (fun z => (0 <=? z)%Z && (z <=? 255)%Z) l = true -> Forall isByte l.
Proof.
  intros H. apply List.Forall_forall. intros x Hx.
  rewrite forallb_forall in H. specialize (H x Hx). unfold isByte. lia.
Qed.

Lemma sumZ_nonneg (l : list Z) : Forall isByte l -> (0 <= sumZ l)%Z.
Proof.
  induction 1 as [|x l Hx _ IH]; simpl; [lia|]. unfold isByte in Hx. lia.
Qed.

Lemma rolloffFrom_finds (threshold : Q) (data : list Z) :
  forall (c : Z) (i : nat),
    data <> [] -> threshold <= inject_Z (c + sumZ data) ->
    exists k : nat,
      rolloffFrom threshold c i data = Some (i + k)%nat /\
      (k < length data)%nat /\
      threshold <= inject_Z (c + sumZ (firstn (S k) data)) /\
      (forall j, (j < k)%nat ->
         inject_Z (c + sumZ (firstn (S j) data)) < threshold).
Proof.
  induction data as [|x rest IH]; intros c i Hne Hle; [congruence|].
  simpl rolloffFrom. destruct (Qle_bool threshold (inject_Z (c + x))) eqn:E.
  - exists 0%nat. apply Qle_bool_iff in E.
    split; [f_equal; lia|]. split; [simpl; lia|]. split.
    + simpl. destruct rest; simpl; rewrite Z.add_0_r; exact E.
    + intros j Hj. lia.
  - assert (Hlt : inject_Z (c + x) < threshold).
    { apply Qnot_le_lt. intros H. apply Qle_bool_iff in H. congruence. }
    assert (Hrest : rest <> []).
    { intros ->. simpl in Hle. rewrite Z.add_0_r in Hle. lra. }
    assert (Hle' : threshold <= inject_Z (c + x + sumZ rest)).
    { simpl in Hle. rewrite Z.add_assoc in Hle. exact Hle. }
    destruct (IH (c + x)%Z (S i) Hrest Hle') as [k [Hk [Hlen [Hreach Hmin]]]].
    exists (S k). split; [rewrite Hk; f_equal; lia|].
    split; [simpl; lia|]. split.
    + change (firstn (S (S k)) (x :: rest)) with (x :: firstn (S k) rest).
      simpl sumZ. rewrite Z.add_assoc. exact Hreach.
    + intros [|j] Hj.
      * simpl. destruct rest; simpl; rewrite Z.add_0_r; exact Hlt.
      * change (firstn (S (S j)) (x :: rest)) with (x :: firstn (S j) rest).
        simpl sumZ. rewrite Z.add_assoc. apply Hmin. lia.
Qed.

(** X6.  For a buffer that is not empty the rolloff is [i / binCount] for the
    first bin [i] at which the energy summed from bin 0 reaches 85% of the
    total: it lies in [0, 1), the fallback 1.0 is never taken, and a silent
    buffer gives 0. *)
Theorem spectral_rolloff_is_first_bin_at_85_percent (freqData : list Z) :
  freqData <> [] -> Forall isByte freqData ->
  (exists i : nat,
     (i < length freqData)%nat /\
     calcSpectralRolloff freqData
       = inject_Z (Z.of_nat i) / inject_Z (Z.of_nat (length freqData)) /\
     inject_Z (sumZ freqData) * (85 # 100)
       <= inject_Z (sumZ (firstn (S i) freqData)) /\
     (forall j, (j < i)%nat ->
        inject_Z (sumZ (firstn (S j) freqData))
          < inject_Z (sumZ freqData) * (85 # 100))) /\
  0 <= calcSpectralRolloff freqData < 1 /\
  (sumZ freqData = 0%Z -> calcSpectralRolloff freqData == 0).
Proof.
  intros Hne Hbytes.
  pose proof (sumZ_nonneg freqData Hbytes) as Hsum.
  assert (Hsum' : 0 <= inject_Z (sumZ freqData)).
  { change 0 with (inject_Z 0). rewrite <- Zle_Qle. exact Hsum. }
  assert (Hth : inject_Z (sumZ freqData) * (85 # 100)
                <= inject_Z (0 + sumZ freqData)).
  { rewrite Z.add_0_l. lra. }
  destruct (rolloffFrom_finds _ freqData 0%Z 0%nat Hne Hth)
    as [i [Hi [Hlen [Hreach Hmin]]]].
  simpl in Hi. rewrite Z.add_0_l in Hreach.
  assert (Heq : calcSpectralRolloff freqData
                = inject_Z (Z.of_nat i) / inject_Z (Z.of_nat (length freqData))).
  { unfold calcSpectralRolloff. cbv zeta. rewrite Hi. reflexivity. }
  assert (Hn : 0 < inject_Z (Z.of_nat (length freqData))).
  { change 0 with (inject_Z 0). rewrite <- Zlt_Qlt. lia. }
  assert (Hi0 : 0 <= inject_Z (Z.of_nat i)).
  { change 0 with (inject_Z 0). rewrite <- Zle_Qle. lia. }
  assert (Hin : inject_Z (Z.of_nat i) < inject_Z (Z.of_nat (length freqData))).
  { rewrite <- Zlt_Qlt. lia. }
  split; [|split].
  - exists i. split; [exact Hlen|]. split; [exact Heq|]. split; [exact Hreach|].
    intros j Hj. specialize (Hmin j Hj). rewrite Z.add_0_l in Hmin. exact Hmin.
  - rewrite Heq. split.
    + apply Qle_shift_div_l; lra.
    + apply Qlt_shift_div_r; lra.
  - intros Hzero. rewrite Heq. destruct i as [|i].
    + simpl. unfold Qdiv. apply Qmult_0_l.
    + exfalso. specialize (Hmin 0%nat ltac:(lia)).
      rewrite Hzero, Z.add_0_l in Hmin.
      assert (H0 : (0 <= sumZ (firstn 1 freqData))%Z).
      { apply sumZ_nonneg. apply Forall_take. exact Hbytes. }
      rewrite Zle_Qle in H0. change (inject_Z 0) with 0 in *. lra.
Qed.

Lemma spectral_rolloff_is_first_bin_at_85_percent_witness :
  0 <= calcSpectralRolloff [200; 100; 40; 10; 0; 0; 0; 0]%Z < 1 /\
  calcSpectralRolloff [0; 0; 0; 0]%Z == 0.
Proof.
  destruct (spectral_rolloff_is_first_bin_at_85_percent
              [200; 100; 40; 10; 0; 0; 0; 0]%Z ltac:(discriminate)
              (bytes_checked [200; 100; 40; 10; 0; 0; 0; 0]%Z eq_refl))
    as [_ [Hrange _]].
  destruct (spectral_rolloff_is_first_bin_at_85_percent
              [0; 0; 0; 0]%Z ltac:(discriminate)
              (bytes_checked [0; 0; 0; 0]%Z eq_refl))
    as [_ [_ Hsilent]].
  split; [exact Hrange|apply Hsilent; reflexivity].
Defined.

(** *** Spectral centroid *)

Lemma binToFreq_le (sampleRate : Q) (binCount i j : Z) :
  0 < sampleRate -> (0 < binCount)%Z -> (i <= j)%Z ->
  binToFreq sampleRate binCount i <= binToFreq sampleRate binCount j.
Proof.
  intros Hs Hb Hij. unfold binToFreq.
  assert (Hb' : 0 < inject_Z binCount).
  { change 0 with (inject_Z 0). rewrite <- Zlt_Qlt. exact Hb. }
  rewrite Zle_Qle in Hij.
  apply Qle_shift_div_l; [exact Hb'|].
  assert (E : inject_Z i * (sampleRate / 2) / inject_Z binCount * inject_Z binCount
              == inject_Z i * (sampleRate / 2)) by (field; lra).
  assert (Hh : 0 < sampleRate / 2) by (apply Qlt_shift_div_l; lra).
  rewrite E. apply Qmult_le_compat_r; lra.
Qed.

Lemma binToFreq_nonneg (sampleRate : Q) (binCount i : Z) :
  0 < sampleRate -> (0 < binCount)%Z -> (0 <= i)%Z ->
  0 <= binToFreq sampleRate binCount i.
Proof.
  intros Hs Hb Hi.
  assert (E : binToFreq sampleRate binCount 0 == 0).
  { unfold binToFreq. change (inject_Z 0) with 0.
    unfold Qdiv. rewrite !Qmult_0_l. reflexivity. }
  rewrite <- E. apply binToFreq_le; assumption.
Qed.

Lemma centroidSums_bounds (sampleRate : Q) (binCount : Z) (data : list Z) :
  0 < sampleRate -> (0 < binCount)%Z -> Forall isByte data ->
  forall i : Z, (0 <= i)%Z ->
    snd (centroidSums sampleRate binCount i data) = sumZ data /\
    binToFreq sampleRate binCount i * inject_Z (sumZ data)
      <= fst (centroidSums sampleRate binCount i data) /\
    fst (centroidSums sampleRate binCount i data)
      <= binToFreq sampleRate binCount (i + Z.of_nat (length data) - 1)
         * inject_Z (sumZ data).
Proof.
  intros Hs Hb Hbytes. induction Hbytes as [|m rest Hm Hrest IH]; intros i Hi.
  - simpl. change (inject_Z 0) with 0. rewrite !Qmult_0_r.
    split; [reflexivity|]. split; apply Qle_refl.
  - destruct (IH (i + 1)%Z ltac:(lia)) as [Hsum [Hlo Hhi]].
    simpl centroidSums.
    destruct (centroidSums sampleRate binCount (i + 1) rest) as [w s'].
    simpl in Hsum, Hlo, Hhi |- *. subst s'.
    pose proof (sumZ_nonneg rest Hrest) as Hnn.
    rewrite Zle_Qle in Hnn. change (inject_Z 0) with 0 in Hnn.
    assert (Hm' : 0 <= inject_Z m).
    { change 0 with (inject_Z 0). rewrite <- Zle_Qle. unfold isByte in Hm. lia. }
    replace (i + Z.of_nat (S (length rest)) - 1)%Z
      with (i + 1 + Z.of_nat (length rest) - 1)%Z by lia.
    set (F := binToFreq sampleRate binCount (i + 1 + Z.of_nat (length rest) - 1)) in *.
    pose proof (binToFreq_le sampleRate binCount i (i + 1) Hs Hb ltac:(lia)) as H1.
    pose proof (binToFreq_le sampleRate binCount i
                  (i + 1 + Z.of_nat (length rest) - 1) Hs Hb ltac:(lia)) as H2.
    fold F in H2.
    set (fi := binToFreq sampleRate binCount i) in *.
    set (fi1 := binToFreq sampleRate binCount (i + 1)) in *.
    rewrite inject_Z_plus.
    set (M := inject_Z m) in *. set (S' := inject_Z (sumZ rest)) in *.
    split; [reflexivity|]. split.
    + assert (fi * S' <= fi1 * S') by (apply Qmult_le_compat_r; assumption).
      rewrite Qmult_plus_distr_r. lra.
    + assert (fi * M <= F * M) by (apply Qmult_le_compat_r; assumption).
      rewrite Qmult_plus_distr_r. lra.
Qed.

Lemma centroidSums_app (sampleRate : Q) (binCount : Z) (a b : list Z) :
  forall i : Z,
    fst (centroidSums sampleRate binCount i (a ++ b))
      == fst (centroidSums sampleRate binCount i a)
         + fst (centroidSums sampleRate binCount (i + Z.of_nat (length a)) b) /\
    snd (centroidSums sampleRate binCount i (a ++ b))
      = (snd (centroidSums sampleRate binCount i a)
         + snd (centroidSums sampleRate binCount (i + Z.of_nat (length a)) b))%Z.
Proof.
  induction a as [|m a IH]; intros i.
  - simpl. rewrite Z.add_0_r. split; [ring|reflexivity].
  - specialize (IH (i + 1)%Z).
    replace (i + Z.of_nat (length (m :: a)))%Z
      with (i + 1 + Z.of_nat (length a))%Z by (simpl length; lia).
    simpl app. simpl centroidSums.
    destruct (centroidSums sampleRate binCount (i + 1) (a ++ b)) as [w s].
    destruct (centroidSums sampleRate binCount (i + 1) a) as [wa sa].
    destruct (centroidSums sampleRate binCount (i + 1 + Z.of_nat (length a)) b)
      as [wb sb].
    simpl in *. destruct IH as [Hw Hs]. split; [rewrite Hw; ring|lia].
Qed.

Lemma centroidSums_zeros (sampleRate : Q) (binCount : Z) (n : nat) :
  forall i : Z,
    fst (centroidSums sampleRate binCount i (repeat 0%Z n)) == 0 /\
    snd (centroidSums sampleRate binCount i (repeat 0%Z n)) = 0%Z.
Proof.
  induction n as [|n IH]; intros i; simpl; [split; reflexivity|].
  specialize (IH (i + 1)%Z).
  destruct (centroidSums sampleRate binCount (i + 1) (repeat 0%Z n)) as [w s].
  simpl in *. destruct IH as [Hw Hs]. split; [|lia].
  rewrite Hw. change (inject_Z 0) with 0. ring.
Qed.

Lemma binToFreq_below_nyquist (sampleRate : Q) (binCount i : Z) :
  0 < sampleRate -> (i < binCount)%Z -> (0 < binCount)%Z ->
  binToFreq sampleRate binCount i < sampleRate / 2.
Proof.
  intros Hs Hi Hb. unfold binToFreq.
  assert (Hb' : 0 < inject_Z binCount).
  { change 0 with (inject_Z 0). rewrite <- Zlt_Qlt. exact Hb. }
  rewrite Zlt_Qlt in Hi.
  assert (Hh : 0 < sampleRate / 2) by (apply Qlt_shift_div_l; lra).
  apply Qlt_shift_div_r; [exact Hb'|].
  rewrite (Qmult_comm (inject_Z i)). apply Qmult_lt_l; lra.
Qed.

Lemma calcSpectralCentroid_sums (sampleRate : Q) (freqData : list Z) :
  calcSpectralCentroid sampleRate freqData =
  let c := centroidSums sampleRate (Z.of_nat (length freqData)) 0 freqData in
  if (0 <? snd c)%Z then Qmin 1 (fst c / inject_Z (snd c) / 10000) else 0.
Proof.
  unfold calcSpectralCentroid. cbv zeta.
  destruct (centroidSums _ _ _ _) as [w s]. reflexivity.
Qed.

(** X7.  The centroid of a byte spectrum lies between 0 and 1, and times 10 kHz it
    stays below half the sample rate; a silent spectrum gives 0; a spectrum
    with a single sounding bin gives that bin's frequency over 10 kHz, capped
    at 1, whatever the bin's magnitude. *)
Theorem spectral_centroid_range (sampleRate : Q) (freqData : list Z) :
  0 < sampleRate -> Forall isByte freqData ->
  0 <= calcSpectralCentroid sampleRate freqData <= 1 /\
  calcSpectralCentroid sampleRate freqData * 10000 < sampleRate / 2 /\
  (sumZ freqData = 0%Z -> calcSpectralCentroid sampleRate freqData = 0) /\
  (forall (k r : nat) (m : Z),
     freqData = repeat 0%Z k ++ m :: repeat 0%Z r -> (0 < m)%Z ->
     calcSpectralCentroid sampleRate freqData
       == Qmin 1 (binToFreq sampleRate (Z.of_nat (length freqData)) (Z.of_nat k)
                  / 10000)).
Proof.
  intros Hs Hbytes. rewrite calcSpectralCentroid_sums. cbv zeta.
  assert (Hh : 0 < sampleRate / 2) by (apply Qlt_shift_div_l; lra).
  destruct (Nat.eq_dec (length freqData) 0%nat) as [Hempty|Hne].
  { destruct freqData; [|discriminate]. simpl.
    split; [lra|]. split; [lra|]. split; [reflexivity|].
    intros [|k] r m H; discriminate. }
  set (binCount := Z.of_nat (length freqData)).
  assert (Hb : (0 < binCount)%Z) by (unfold binCount; lia).
  destruct (centroidSums_bounds sampleRate binCount freqData Hs Hb Hbytes 0%Z
              ltac:(lia)) as [Hsum [Hlo Hhi]].
  replace (0 + Z.of_nat (length freqData) - 1)%Z with (binCount - 1)%Z in Hhi
    by (unfold binCount; lia).
  pose proof (binToFreq_nonneg sampleRate binCount 0 Hs Hb ltac:(lia)) as Hf0.
  pose proof (binToFreq_below_nyquist sampleRate binCount (binCount - 1) Hs
                ltac:(lia) Hb) as Hny.
  pose proof (sumZ_nonneg freqData Hbytes) as Hnn.
  rewrite Hsum.
  set (w := fst (centroidSums sampleRate binCount 0 freqData)) in *.
  set (F := binToFreq sampleRate binCount (binCount - 1)) in *.
  set (f0 := binToFreq sampleRate binCount 0) in *.
  assert (Hcases :
    (sumZ freqData = 0%Z) \/
    (0 < inject_Z (sumZ freqData) /\
     0 <= w / inject_Z (sumZ freqData) /\ w / inject_Z (sumZ freqData) <= F)).
  { destruct (Z.eq_dec (sumZ freqData) 0%Z) as [E|E]; [left; exact E|right].
    assert (Hpos : 0 < inject_Z (sumZ freqData)).
    { change 0 with (inject_Z 0). rewrite <- Zlt_Qlt. lia. }
    split; [exact Hpos|].
    set (S' := inject_Z (sumZ freqData)) in *. split.
    - apply Qle_shift_div_l; [exact Hpos|].
      assert (0 <= f0 * S') by (apply Qmult_le_0_compat; lra). lra.
    - apply Qle_shift_div_r; [exact Hpos|]. exact Hhi. }
  split; [|split; [|split]].
  - destruct Hcases as [E|[Hpos [Hq0 HqF]]].
    + rewrite E. simpl. lra.
    + replace (0 <? sumZ freqData)%Z with true.
      2:{ symmetry. apply Z.ltb_lt. rewrite Zlt_Qlt. exact Hpos. }
      set (q := w / inject_Z (sumZ freqData)) in *.
      assert (0 <= q / 10000) by (apply Qle_shift_div_l; lra).
      split; [apply Q.min_glb; lra|apply Q.le_min_l].
  - destruct Hcases as [E|[Hpos [Hq0 HqF]]].
    + rewrite E. simpl. lra.
    + replace (0 <? sumZ freqData)%Z with true.
      2:{ symmetry. apply Z.ltb_lt. rewrite Zlt_Qlt. exact Hpos. }
      set (q := w / inject_Z (sumZ freqData)) in *.
      pose proof (Q.le_min_r 1 (q / 10000)) as Hmin.
      assert (E : q / 10000 * 10000 == q) by (field).
      assert (Qmin 1 (q / 10000) * 10000 <= q / 10000 * 10000)
        by (apply Qmult_le_compat_r; lra).
      lra.
  - intros E. rewrite E. reflexivity.
  - intros k r m Hdata Hm.
    assert (Hw : w == binToFreq sampleRate binCount (Z.of_nat k) * inject_Z m /\
                 sumZ freqData = m).
    { rewrite <- Hsum. unfold w. rewrite Hdata.
      destruct (centroidSums_app sampleRate binCount (repeat 0%Z k)
                  (m :: repeat 0%Z r) 0) as [Ha Hb'].
      destruct (centroidSums_zeros sampleRate binCount k 0) as [Hz1 Hz2].
      rewrite repeat_length in Ha, Hb'. rewrite Z.add_0_l in Ha, Hb'.
      rewrite Ha, Hb', Hz1, Hz2. simpl centroidSums.
      destruct (centroidSums_zeros sampleRate binCount r (Z.of_nat k + 1))
        as [Hz3 Hz4].
      destruct (centroidSums sampleRate binCount (Z.of_nat k + 1) (repeat 0%Z r))
        as [w' s']. simpl in *. rewrite Hz3, Hz4. split; [ring|lia]. }
    destruct Hw as [Hw Hsm]. rewrite Hsm.
    replace (0 <? m)%Z with true by (symmetry; apply Z.ltb_lt; exact Hm).
    assert (Hm' : 0 < inject_Z m).
    { change 0 with (inject_Z 0). rewrite <- Zlt_Qlt. exact Hm. }
    apply Q.min_compat; [reflexivity|]. rewrite Hw. field. lra.
Qed.

Lemma spectral_centroid_range_witness :
  0 <= calcSpectralCentroid 44100 [0; 0; 90; 200; 30; 0; 0; 0]%Z <= 1 /\
  calcSpectralCentroid 44100 [0; 0; 0; 17; 0; 0; 0; 0]%Z
    == binToFreq 44100 8 3 / 10000.
Proof.
  destruct (spectral_centroid_range 44100 [0; 0; 90; 200; 30; 0; 0; 0]%Z
              eq_refl (bytes_checked [0; 0; 90; 200; 30; 0; 0; 0]%Z eq_refl))
    as [Hrange _].
  destruct (spectral_centroid_range 44100 [0; 0; 0; 17; 0; 0; 0; 0]%Z
              eq_refl (bytes_checked [0; 0; 0; 17; 0; 0; 0; 0]%Z eq_refl))
    as [_ [_ [_ Htone]]].
  split; [exact Hrange|].
  rewrite (Htone 3%nat 4%nat 17%Z eq_refl eq_refl).
  apply Q.min_r. vm_compute. discriminate.
Defined.

(** *** The average of a band *)

Lemma sumBins_inside (freqData : list Z) :
  Forall isByte freqData ->
  forall (rounds : nat) (i : Z),
    (0 <= i)%Z -> (i + Z.of_nat rounds <= Z.of_nat (length freqData))%Z ->
    exists sum, sumBins freqData i rounds = Some sum /\
                (0 <= sum <= 255 * Z.of_nat rounds)%Z.
Proof.
  intros Hbytes. induction rounds as [|k IH]; intros i Hi Hfit.
  - exists 0%Z. split; [reflexivity|lia].
  - simpl sumBins. replace (i <? 0)%Z with false by (symmetry; apply Z.ltb_ge; lia).
    destruct (nth_error freqData (Z.to_nat i)) as [x|] eqn:Hx.
    + destruct (IH (i + 1)%Z ltac:(lia) ltac:(lia)) as [rest [Hrest Hr]].
      rewrite Hrest. exists (x + rest)%Z. split; [reflexivity|].
      apply nth_error_In in Hx. rewrite List.Forall_forall in Hbytes.
      specialize (Hbytes x Hx). unfold isByte in Hbytes. lia.
    + apply nth_error_None in Hx. lia.
Qed.

Lemma sumBins_outside (freqData : list Z) :
  forall (rounds : nat) (i : Z),
    (0 < rounds)%nat ->
    (i < 0 \/ Z.of_nat (length freqData) <= i + Z.of_nat rounds - 1)%Z ->
    sumBins freqData i rounds = None.
Proof.
  induction rounds as [|k IH]; intros i Hpos Hout; [lia|].
  simpl sumBins. destruct (i <? 0)%Z eqn:Hneg; [reflexivity|].
  apply Z.ltb_ge in Hneg.
  destruct (nth_error freqData (Z.to_nat i)) as [x|] eqn:Hx; [|reflexivity].
  destruct k as [|k].
  - exfalso. assert (Hlt : (Z.to_nat i < length freqData)%nat).
    { apply nth_error_Some. congruence. }
    lia.
  - rewrite (IH (i + 1)%Z); [reflexivity|lia|lia].
Qed.

(** X8.  The average of the bins from [lowBin] to [highBin]: 0 for an empty range
    of bins; a number between 0 and 1 when the range lies inside the buffer;
    not a number as soon as the range reaches outside it, which is the case of
    a band that ends at half the sample rate (bin [binCount]). *)
Theorem bandAverage_needs_bins_inside_the_buffer
    (freqData : list Z) (lowBin highBin : Z) :
  Forall isByte freqData ->
  ((highBin < lowBin)%Z -> bandAverage freqData lowBin highBin = Some 0) /\
  ((0 <= lowBin <= highBin)%Z -> (highBin < Z.of_nat (length freqData))%Z ->
   exists v, bandAverage freqData lowBin highBin = Some v /\ 0 <= v <= 1) /\
  ((lowBin <= highBin)%Z ->
   (lowBin < 0 \/ Z.of_nat (length freqData) <= highBin)%Z ->
   bandAverage freqData lowBin highBin = None) /\
  (forall sampleRate lowFrequency,
     0 < sampleRate -> freqData <> [] ->
     (freqToBin sampleRate (Z.of_nat (length freqData)) lowFrequency
      <= Z.of_nat (length freqData))%Z ->
     bandAverage freqData
       (freqToBin sampleRate (Z.of_nat (length freqData)) lowFrequency)
       (freqToBin sampleRate (Z.of_nat (length freqData)) (sampleRate / 2))
     = None).
Proof.
  intros Hbytes.
  assert (Hout : forall lo hi, (lo <= hi)%Z ->
            (lo < 0 \/ Z.of_nat (length freqData) <= hi)%Z ->
            bandAverage freqData lo hi = None).
  { intros lo hi Hle Ho. unfold bandAverage. cbv zeta.
    destruct (Z.to_nat (hi - lo + 1)) as [|k] eqn:Hc; [lia|].
    rewrite sumBins_outside; [reflexivity|lia|lia]. }
  split; [|split; [|split]].
  - intros Hlt. unfold bandAverage. cbv zeta.
    replace (Z.to_nat (highBin - lowBin + 1)) with 0%nat by lia. reflexivity.
  - intros Hin Hhi. unfold bandAverage. cbv zeta.
    destruct (Z.to_nat (highBin - lowBin + 1)) as [|k] eqn:Hc; [lia|].
    destruct (sumBins_inside freqData Hbytes (S k) lowBin ltac:(lia) ltac:(lia))
      as [sum [Hsum Hrange]].
    rewrite Hsum. eexists. split; [reflexivity|].
    assert (Hn : 0 < inject_Z (Z.of_nat (S k))).
    { change 0 with (inject_Z 0). rewrite <- Zlt_Qlt. lia. }
    destruct Hrange as [H0 H1]. rewrite Zle_Qle in H0, H1.
    rewrite inject_Z_mult in H1.
    change (inject_Z 0) with 0 in H0. change (inject_Z 255) with 255 in H1.
    set (n := inject_Z (Z.of_nat (S k))) in *. set (x := inject_Z sum) in *.
    assert (Hq : 0 <= x / n) by (apply Qle_shift_div_l; lra).
    assert (Hq' : x / n <= 255) by (apply Qle_shift_div_r; lra).
    split.
    + apply Qle_shift_div_l; lra.
    + apply Qle_shift_div_r; lra.
  - apply Hout.
  - intros sampleRate lowFrequency Hs Hne Hlow.
    assert (Hb : (0 < Z.of_nat (length freqData))%Z)
      by (destruct freqData; simpl; [congruence|lia]).
    assert (Hny : freqToBin sampleRate (Z.of_nat (length freqData)) (sampleRate / 2)
                  = Z.of_nat (length freqData)).
    { unfold freqToBin.
      rewrite <- (Math_round_integer (Z.of_nat (length freqData))) at 2.
      unfold Math_round. apply Qfloor_comp. apply Qplus_comp; [|reflexivity].
      field. lra. }
    rewrite Hny. apply Hout; [exact Hlow|right; lia].
Qed.

Lemma bandAverage_needs_bins_inside_the_buffer_witness :
  (exists v, bandAverage [255; 255; 0; 0]%Z 0 1 = Some v /\ 0 <= v <= 1) /\
  bandAverage [255; 255; 0; 0]%Z 2 4 = None /\
  bandAverage [255; 255; 0; 0]%Z (freqToBin 32000 4 12000) (freqToBin 32000 4 (32000 / 2))
    = None.
Proof.
  destruct (bandAverage_needs_bins_inside_the_buffer [255; 255; 0; 0]%Z 0 1
              (bytes_checked [255; 255; 0; 0]%Z eq_refl)) as [_ [Hin _]].
  destruct (bandAverage_needs_bins_inside_the_buffer [255; 255; 0; 0]%Z 2 4
              (bytes_checked [255; 255; 0; 0]%Z eq_refl))
    as [_ [_ [Hout Hnyquist]]].
  split; [apply Hin; simpl; lia|]. split; [apply Hout; simpl; lia|].
  apply (Hnyquist 32000 12000); [reflexivity|discriminate|vm_compute; discriminate].
Defined.

End AnalyzerSignal.

(** ** The rotation patterns over many frames *)

Section RotationInvariants.
Import Rotation.
Local Open Scope Q_scope.

Lemma update_bass_momentum_bounded (s : Rotation.t) (bass : option Q) :
  bassOf bass <= 1 -> bounded (momentum s) ->
  bounded (momentum (snd (update_bass_momentum s bass))).
Proof.
  intros Hb [[Hx0 Hx1] [Hy [Hz0 Hz1]]].
  unfold update_bass_momentum, bass_momentum_update.
  destruct (Qltb (6 # 10) (bassOf bass)) eqn:E; simpl.
  - apply Qltb_lt in E. unfold bounded. simpl.
    split; [split; lra|]. split; [rewrite Hy; ring|split; lra].
  - unfold bounded. simpl.
    split; [split; lra|]. split; [rewrite Hy; ring|split; lra].
Qed.

Lemma updates_bounded (basses : list (option Q)) :
  forall s, Forall (fun bass => bassOf bass <= 1) basses ->
            bounded (momentum s) -> bounded (momentum (updates s basses)).
Proof.
  induction basses as [|bass rest IH]; intros s Hall Hs; simpl; [exact Hs|].
  apply Forall_cons in Hall. destruct Hall as [Hb Hrest].
  apply IH; [exact Hrest|]. apply update_bass_momentum_bounded; assumption.
Qed.

(** X10.  With bass values up to 1 the momentum of the [bass_momentum] pattern never
    runs away: from the constructor's zero momentum, after any number of
    updates, [zw] stays between 0 and 14.7, [xw] between 0 and 4.9 and [yw] is
    0, so the rotation [rot4dZW] that an update returns stays between 0 and
    29.4 pi. *)
Theorem bass_momentum_stays_bounded (basses : list (option Q)) (bass : option Q) :
  Forall (fun b => bassOf b <= 1) basses -> bassOf bass <= 1 ->
  let s := updates Rotation.new basses in
  let r := fst (update_bass_momentum s bass) in
  bounded (momentum s) /\
  bounded (momentum (snd (update_bass_momentum s bass))) /\
  0 <= rot4dZW r <= (147 # 10) * Math_PI * 2 /\
  0 <= rot4dXW r <= (49 # 10) * Math_PI /\
  rot4dYW r == 0.
Proof.
  intros Hall Hb s r.
  assert (H0 : bounded (momentum Rotation.new)).
  { unfold bounded. simpl. split; [lra|]. split; [reflexivity|lra]. }
  pose proof (updates_bounded basses Rotation.new Hall H0) as Hs. fold s in Hs.
  pose proof (update_bass_momentum_bounded s bass Hb Hs) as Hs'.
  split; [exact Hs|]. split; [exact Hs'|].
  assert (Hr : rot4dZW r = zw (momentum (snd (update_bass_momentum s bass))) * Math_PI * 2
               /\ rot4dXW r = xw (momentum (snd (update_bass_momentum s bass))) * Math_PI
               /\ rot4dYW r = yw (momentum (snd (update_bass_momentum s bass))) * Math_PI).
  { unfold r, update_bass_momentum, bass_momentum_update.
    destruct (Qltb (6 # 10) (bassOf bass)); simpl; repeat split. }
  destruct Hr as [Hz [Hx Hy]]. rewrite Hz, Hx, Hy.
  destruct Hs' as [[Hx0 Hx1] [Hy0 [Hz0 Hz1]]].
  assert (Hpi : 0 < Math_PI) by reflexivity.
  set (z := zw (momentum (snd (update_bass_momentum s bass)))) in *.
  set (x := xw (momentum (snd (update_bass_momentum s bass)))) in *.
  split; [split; nra|]. split; [split; nra|]. rewrite Hy0. ring.
Qed.

Lemma bass_momentum_stays_bounded_witness :
  bounded (momentum (updates Rotation.new [Some 1; Some 1; None; Some (9 # 10)])).
Proof.
  assert (Hall : Forall (fun b => bassOf b <= 1) [Some 1; Some 1; None; Some (9 # 10)]).
  { repeat constructor; vm_compute; discriminate. }
  assert (Hb : bassOf (Some 1) <= 1) by (vm_compute; discriminate).
  destruct (bass_momentum_stays_bounded _ (Some 1) Hall Hb) as [H _]. exact H.
Defined.

(** *** Quiet frames *)

Lemma Qpower_succ (q : Q) (n : nat) :
  q ^ Z.of_nat (S n) == q ^ Z.of_nat n * q.
Proof.
  rewrite Nat2Z.inj_succ. unfold Z.succ.
  rewrite Qpower_plus' by lia. reflexivity.
Qed.

Lemma last_cons {A} (x d : A) (l : list A) : List.last (x :: l) d = List.last l x.
Proof.
  revert x d. induction l as [|y l IH]; intros x d; [reflexivity|].
  change (List.last (x :: y :: l) d) with (List.last (y :: l) d).
  rewrite (IH y d), (IH y x). reflexivity.
Qed.

(** X11.  Over frames whose bass is not above 0.6 the pattern only decays: after
    [n] such updates every component of the momentum is the component it
    started from times the decay to the power [n]. *)
Theorem bass_momentum_decays_geometrically
    (decay : Q) (hits : list Q) (m : Momentum) :
  Forall (fun bassHit => bassHit <= 6 # 10) hits ->
  let m' := List.last (momentumTrace decay m hits) m in
  length (momentumTrace decay m hits) = length hits /\
  xw m' == xw m * decay ^ Z.of_nat (length hits) /\
  yw m' == yw m * decay ^ Z.of_nat (length hits) /\
  zw m' == zw m * decay ^ Z.of_nat (length hits).
Proof.
  revert m. induction hits as [|b rest IH]; intros m Hall.
  - simpl. repeat split; ring.
  - apply Forall_cons in Hall. destruct Hall as [Hb Hrest].
    cbv zeta. set (m1 := snd (bass_momentum_update b decay m)).
    change (momentumTrace decay m (b :: rest))
      with (m1 :: momentumTrace decay m1 rest).
    rewrite last_cons.
    destruct (IH m1 Hrest) as [Hlen [Hx [Hy Hz]]].
    assert (Hm1 : xw m1 = xw m * decay /\ yw m1 = yw m * decay /\
                  zw m1 = zw m * decay).
    { unfold m1, bass_momentum_update.
      replace (Qltb (6 # 10) b) with false; [simpl; repeat split|].
      symmetry. apply Qltb_ge. exact Hb. }
    destruct Hm1 as [Hx1 [Hy1 Hz1]].
    split; [simpl length; rewrite Hlen; reflexivity|].
    change (length (b :: rest)) with (S (length rest)).
    rewrite Hx, Hy, Hz, Hx1, Hy1, Hz1, !Qpower_succ.
    repeat split; ring.
Qed.

Lemma bass_momentum_decays_geometrically_witness :
  zw (List.last (momentumTrace (98 # 100) (mkMomentum 0 0 1) [0; 6 # 10; 1 # 2])
        (mkMomentum 0 0 1))
  == (98 # 100) ^ 3.
Proof.
  assert (Hall : Forall (fun bassHit => bassHit <= 6 # 10) [0; 6 # 10; 1 # 2]).
  { repeat constructor; vm_compute; discriminate. }
  destruct (bass_momentum_decays_geometrically (98 # 100) [0; 6 # 10; 1 # 2]
              (mkMomentum 0 0 1) Hall) as [_ [_ [_ Hz]]].
  rewrite Hz. simpl. ring.
Defined.

(** *** The beat-locked pattern *)

(** X12.  The beat-locked pattern has sixteen positions: for a beat index that is
    not negative the angle is the index modulo 16 times an eighth of pi, so
    the pattern repeats every 16 beats and is at rest on beat 0; the three
    rotations are the angle, half of it and minus a quarter of it, each times
    the intensity; the tempo it is handed plays no part. *)
Theorem beat_locked_has_sixteen_positions (beatIndex : Z) (bpm intensity : Q) :
  (0 <= beatIndex)%Z ->
  let r := beat_locked_update beatIndex bpm intensity in
  beat_locked_update (beatIndex + 16) bpm intensity = r /\
  (forall bpm', beat_locked_update beatIndex bpm' intensity = r) /\
  rot4dXW r == inject_Z (beatIndex mod 16) * (Math_PI / 8) * intensity /\
  rot4dYW r == rot4dXW r / 2 /\
  rot4dZW r == - (rot4dXW r / 4) /\
  (0 <= intensity ->
   0 <= rot4dXW r <= (15 # 8) * Math_PI * intensity) /\
  ((beatIndex mod 16 = 0)%Z ->
   rot4dXW r == 0 /\ rot4dYW r == 0 /\ rot4dZW r == 0).
Proof.
  intros Hb r.
  assert (Hrem : Z.rem beatIndex 16 = (beatIndex mod 16)%Z)
    by (apply Z.rem_mod_nonneg; lia).
  assert (Hrem16 : Z.rem (beatIndex + 16) 16 = Z.rem beatIndex 16).
  { rewrite !Z.rem_mod_nonneg by lia.
    replace (beatIndex + 16)%Z with (beatIndex + 1 * 16)%Z by lia.
    apply Z.mod_add. lia. }
  assert (Hx : rot4dXW r == inject_Z (beatIndex mod 16) * (Math_PI / 8) * intensity).
  { unfold r, beat_locked_update. simpl. rewrite Hrem. field. }
  pose proof (Z.mod_pos_bound beatIndex 16 ltac:(lia)) as [Hm0 Hm15].
  split; [unfold r, beat_locked_update; rewrite Hrem16; reflexivity|].
  split; [reflexivity|]. split; [exact Hx|].
  split; [unfold r, beat_locked_update; simpl; field|].
  split; [unfold r, beat_locked_update; simpl; field|].
  split.
  - intros Hi. rewrite Hx.
    assert (Hpi : 0 < Math_PI) by reflexivity.
    assert (H0 : 0 <= inject_Z (beatIndex mod 16)).
    { change 0 with (inject_Z 0). rewrite <- Zle_Qle. exact Hm0. }
    assert (H15 : inject_Z (beatIndex mod 16) <= 15).
    { change 15 with (inject_Z 15). rewrite <- Zle_Qle. lia. }
    set (k := inject_Z (beatIndex mod 16)) in *.
    assert (Hpi8 : 0 < Math_PI / 8) by reflexivity.
    assert (Hmul : 0 <= (Math_PI / 8) * intensity)
      by (apply Qmult_le_0_compat; lra).
    assert (E : (15 # 8) * Math_PI * intensity == 15 * (Math_PI / 8 * intensity))
      by field.
    assert (E' : k * (Math_PI / 8) * intensity == k * (Math_PI / 8 * intensity))
      by ring.
    rewrite E, E'. split.
    + apply Qmult_le_0_compat; assumption.
    + apply Qmult_le_compat_r; assumption.
  - intros Hz. unfold r, beat_locked_update. simpl. rewrite Hrem, Hz.
    change (inject_Z 0) with 0. repeat split; ring.
Qed.

Lemma beat_locked_has_sixteen_positions_witness :
  beat_locked_update 37 120 (1 # 2) = beat_locked_update 21 120 (1 # 2) /\
  rot4dXW (beat_locked_update 21 120 (1 # 2)) == 5 * (Math_PI / 8) * (1 # 2).
Proof.
  destruct (beat_locked_has_sixteen_positions 21 120 (1 # 2) ltac:(lia))
    as [Hperiod [_ [Hx _]]].
  split; [exact Hperiod|exact Hx].
Defined.

End RotationInvariants.

(** ** The hybrid parameter engine: the parameters of a result *)

Section HybridKeys.
Import Hybrid.
Local Open Scope Q_scope.

Variable log2_1p : Q -> Q.

Lemma applyRouting_keys (e : Hybrid.t) (audio : AudioFrame)
    (result : gmap string Q) (r : AudioRouting) (p : string) :
  is_Some (applyRouting log2_1p e audio result r !! p) <->
  is_Some (result !! p) \/ (parameter r = p /\ passes audio r = true).
Proof.
  unfold applyRouting, passes.
  destruct (Qltb (_getBandValue audio (sourceBand r)) (threshold r)); simpl.
  - split; [tauto|]. intros [H|[_ H]]; [exact H|discriminate].
  - destruct (decide (parameter r = p)) as [->|Hne].
    + rewrite lookup_insert_eq. split; [tauto|]. intros _. eauto.
    + rewrite lookup_insert_ne by assumption. split; [tauto|].
      intros [H|[H _]]; [exact H|contradiction].
Qed.

Lemma applyReactions_keys (e : Hybrid.t) (audio : AudioFrame)
    (rs : list AudioRouting) (result : gmap string Q) (p : string) :
  is_Some (fold_left (applyRouting log2_1p e audio) rs result !! p) <->
  is_Some (result !! p) \/
  exists r, In r rs /\ parameter r = p /\ passes audio r = true.
Proof.
  revert result. induction rs as [|r rs IH]; intros result; simpl.
  - split; [tauto|]. intros [H|[r [[] _]]]. exact H.
  - rewrite IH, applyRouting_keys. split.
    + intros [[H|[Hp Hr]]|[r' [Hin H]]].
      * left. exact H.
      * right. exists r. tauto.
      * right. exists r'. tauto.
    + intros [H|[r' [[<-|Hin] H]]].
      * left. left. exact H.
      * left. right. exact H.
      * right. exists r'. tauto.
Qed.

Lemma addChoreography_keys (e : Hybrid.t) (result : gmap string Q) (p : string) :
  is_Some (addChoreography e result !! p) <->
  is_Some (result !! p) \/ is_Some (choreographyOffsets e !! p).
Proof.
  clear log2_1p. unfold addChoreography.
  apply (map_fold_weak_ind
           (fun (r : gmap string Q) (m : gmap string Q) =>
              is_Some (r !! p) <-> is_Some (result !! p) \/ is_Some (m !! p))).
  - rewrite lookup_empty. split; [tauto|]. intros [H|[x Hx]]; [exact H|discriminate].
  - intros k x m r Hk IH.
    destruct (decide (k = p)) as [->|Hne].
    + rewrite !lookup_insert_eq. split; eauto.
    + rewrite !lookup_insert_ne by assumption. exact IH.
Qed.

Variable _clampParameter : string -> Q -> Q.

(** X13.  The result of [calculate] has an entry for a parameter exactly when the
    parameter has a base value, or a choreography offset, or a routing that
    takes part in the frame (its band value is not below its threshold); a
    parameter whose only routings are below their thresholds has no entry,
    and no other parameter appears. *)
Theorem calculate_has_the_parameters_that_were_fed
    (e : Hybrid.t) (audio : AudioFrame) (p : string) :
  (is_Some (calculate log2_1p _clampParameter e audio !! p) <->
   is_Some (baseParameters e !! p) \/
   is_Some (choreographyOffsets e !! p) \/
   exists r, In r (routings e) /\ parameter r = p /\ passes audio r = true) /\
  (calculate log2_1p _clampParameter e audio !! p = None <->
   baseParameters e !! p = None /\ choreographyOffsets e !! p = None /\
   forall r, In r (routings e) -> parameter r = p ->
             _getBandValue audio (sourceBand r) < threshold r).
Proof.
  assert (Hkeys :
    is_Some (calculate log2_1p _clampParameter e audio !! p) <->
    is_Some (baseParameters e !! p) \/
    is_Some (choreographyOffsets e !! p) \/
    exists r, In r (routings e) /\ parameter r = p /\ passes audio r = true).
  { unfold calculate, clampAll, applyReactions.
    rewrite map_lookup_imap.
    assert (Hclamp : forall o : option Q,
              is_Some (o ≫= (fun v => Some (_clampParameter p v))) <-> is_Some o).
    { intros [v|]; simpl; split; intros [x Hx]; try discriminate; eauto. }
    rewrite Hclamp, applyReactions_keys, addChoreography_keys.
    unfold applyBase. rewrite lookup_fmap.
    assert (Hbase : is_Some ((fun v => v * manualAmount e) <$> baseParameters e !! p)
                    <-> is_Some (baseParameters e !! p)).
    { destruct (baseParameters e !! p); simpl; split; intros [x Hx];
        try discriminate; eauto. }
    rewrite Hbase. tauto. }
  split; [exact Hkeys|].
  rewrite !eq_None_not_Some, Hkeys. split.
  - intros Hnone. split; [tauto|]. split; [tauto|].
    intros r Hin Hp. apply Qltb_lt.
    destruct (Qltb (_getBandValue audio (sourceBand r)) (threshold r)) eqn:E;
      [reflexivity|].
    exfalso. apply Hnone. right. right. exists r.
    unfold passes. rewrite E. tauto.
  - intros [Hb [Hc Hr]] [H|[H|[r [Hin [Hp Hpass]]]]]; [tauto|tauto|].
    specialize (Hr r Hin Hp). apply Qltb_lt in Hr.
    unfold passes in Hpass. rewrite Hr in Hpass. discriminate.
Qed.

End HybridKeys.

(** ** The choreography engine: sequences, stages and easings *)

Section EngineStages.
Import Engine.
Local Open Scope R_scope.
Context {host : Host}.

Local Ltac rlra := Lra.lra.

(** *** Defining and finding a sequence *)

Lemma mapSet_find_same (l : list Sequence) (s : Sequence) :
  List.find (fun x => String.eqb (name x) (name s)) (mapSet l s) = Some s.
Proof.
  induction l as [|x l IH]; simpl.
  - rewrite String.eqb_refl. reflexivity.
  - destruct (String.eqb (name x) (name s)) eqn:E; simpl.
    + rewrite String.eqb_refl. reflexivity.
    + rewrite E. exact IH.
Qed.

Lemma mapSet_find_other (l : list Sequence) (s : Sequence) (n : string) :
  n <> name s ->
  List.find (fun x => String.eqb (name x) n) (mapSet l s) =
  List.find (fun x => String.eqb (name x) n) l.
Proof.
  intros Hn.
  assert (Hs : String.eqb (name s) n = false).
  { apply String.eqb_neq. congruence. }
  induction l as [|x l IH]; simpl.
  - rewrite Hs. reflexivity.
  - destruct (String.eqb_spec (name x) (name s)) as [E|E]; simpl.
    + rewrite Hs, E, Hs. reflexivity.
    + rewrite IH. reflexivity.
Qed.

Lemma mapSet_length (l : list Sequence) (s : Sequence) :
  length (mapSet l s) =
  match List.find (fun x => String.eqb (name x) (name s)) l with
  | Some _ => length l
  | None => S (length l)
  end.
Proof.
  induction l as [|x l IH]; simpl; [reflexivity|].
  destruct (String.eqb (name x) (name s)); simpl; [reflexivity|].
  rewrite IH. destruct (List.find _ l); reflexivity.
Qed.

(** X14.  A sequence with a name can always be defined, and then [sequences.get]
    of its name is that sequence, whatever was defined under the name before;
    the entries under other names stay as they were, the number of entries
    grows by one only for a new name, and the instances that are already
    active are not touched.  Started now, the name gives an instance of the
    sequence just defined. *)
Theorem defineSequence_then_get (e : Engine.t) (s : Sequence) :
  name s <> ""%string ->
  exists e',
    defineSequence e s = Normal e' /\
    sequencesGet e' (name s) = Some s /\
    (forall n, n <> name s -> sequencesGet e' n = sequencesGet e n) /\
    length (sequences e') =
      match sequencesGet e (name s) with
      | Some _ => length (sequences e)
      | None => S (length (sequences e))
      end /\
    activeSequences e' = activeSequences e /\
    (forall startTime,
       activeSequences (startSequence e' (name s) startTime) =
       activeSequences e ++ [Active.mk s startTime 0]).
Proof.
  intros Hname. exists (set_sequences e (mapSet (sequences e) s)).
  assert (Hget : sequencesGet (set_sequences e (mapSet (sequences e) s)) (name s)
                 = Some s) by apply mapSet_find_same.
  split; [|split; [|split; [|split; [|split]]]].
  - unfold defineSequence.
    replace (String.eqb (name s) "") with false; [reflexivity|].
    symmetry. apply String.eqb_neq. exact Hname.
  - exact Hget.
  - intros n Hn. apply mapSet_find_other. exact Hn.
  - simpl. rewrite mapSet_length. reflexivity.
  - reflexivity.
  - intros startTime. unfold startSequence.
    unfold sequencesGet in Hget. rewrite Hget. reflexivity.
Qed.

Lemma defineSequence_then_get_witness :
  exists e',
    defineSequence (new [] None) alwaysSequence = Normal e' /\
    sequencesGet e' "always" = Some alwaysSequence.
Proof.
  destruct (defineSequence_then_get (new [] None) alwaysSequence
              ltac:(discriminate)) as [e' [Hdef [Hget _]]].
  exists e'. split; [exact Hdef|exact Hget].
Defined.

(** *** The stage of an elapsed time *)

Lemma findStage_found (l : list Stage) :
  forall (accumulatedTime elapsed : R) (stage : Stage) (stageProgress : R),
    findStage l accumulatedTime elapsed = Some (stage, stageProgress) ->
    In stage l /\
    exists stageStart,
      stageStart <= elapsed < stageStart + stage_duration stage /\
      stageProgress = (elapsed - stageStart) / stage_duration stage.
Proof.
  induction l as [|x l IH]; intros acc elapsed stage p H; simpl in H;
    [discriminate|].
  match type of H with
  | (if Rleb ?st _ && _ then _ else _) = _ => set (stageStart := st) in *
  end.
  destruct (Rleb stageStart elapsed) eqn:E1;
    [destruct (Rltb elapsed (stageStart + stage_duration x)) eqn:E2|];
    simpl in H.
  - injection H as <- <-. split; [left; reflexivity|].
    exists stageStart. apply Rleb_le in E1. apply Rltb_lt in E2.
    split; [split; assumption|reflexivity].
  - destruct (IH _ _ _ _ H) as [Hin Hw]. split; [right; exact Hin|exact Hw].
  - destruct (IH _ _ _ _ H) as [Hin Hw]. split; [right; exact Hin|exact Hw].
Qed.

(** X15.  Whatever the stages are, the stage that [updateSequence] applies is one
    of the sequence's, its duration is positive, and the progress handed to
    [applyStage] is at least 0 and below 1: it never reaches 1. *)
Theorem stage_progress_is_below_one
    (l : list Stage) (accumulatedTime elapsed : R) (stage : Stage)
    (stageProgress : R) :
  findStage l accumulatedTime elapsed = Some (stage, stageProgress) ->
  In stage l /\ 0 < stage_duration stage /\ 0 <= stageProgress < 1.
Proof.
  intros H. destruct (findStage_found l _ _ _ _ H) as [Hin [st [[H1 H2] ->]]].
  assert (Hd : 0 < stage_duration stage) by rlra.
  split; [exact Hin|]. split; [exact Hd|]. split.
  - apply Rmult_le_pos; [rlra|]. apply Rlt_le. apply Rinv_0_lt_compat. exact Hd.
  - apply (Rmult_lt_reg_r (stage_duration stage)); [exact Hd|].
    unfold Rdiv. rewrite Rmult_assoc, Rinv_l by rlra. rlra.
Qed.

Lemma stage_progress_is_below_one_witness :
  findStage [mkStage None 1000 []; mkStage None 500 []] 0 1250
    = Some (mkStage None 500 [], (1250 - (0 + 1000)) / 500) /\
  0 <= (1250 - (0 + 1000)) / 500 < 1.
Proof.
  assert (H : findStage [mkStage None 1000 []; mkStage None 500 []] 0 1250
              = Some (mkStage None 500 [], (1250 - (0 + 1000)) / 500)).
  { simpl.
    replace (Rleb 0 1250) with true by (symmetry; apply Rleb_le; rlra).
    replace (Rltb 1250 (0 + 1000)) with false by (symmetry; apply Rltb_ge; rlra).
    replace (Rleb (0 + 1000) 1250) with true by (symmetry; apply Rleb_le; rlra).
    replace (Rltb 1250 (0 + 1000 + 500)) with true
      by (symmetry; apply Rltb_lt; rlra).
    reflexivity. }
  split; [exact H|].
  apply (stage_progress_is_below_one _ _ _ _ _ H).
Defined.

Lemma fold_right_nonneg (l : list Stage) :
  Forall (fun s => 0 <= stage_duration s) l -> 0 <= totalDuration l.
Proof.
  induction 1 as [|x l Hx _ IH]; simpl; rlra.
Qed.

Lemma findStage_auto (before : list Stage) :
  forall (accumulatedTime elapsed : R) (rest : list Stage),
    forallb autoStart before = true ->
    Forall (fun s => 0 <= stage_duration s) before ->
    accumulatedTime + totalDuration before <= elapsed ->
    findStage (before ++ rest) accumulatedTime elapsed =
    findStage rest (accumulatedTime + totalDuration before) elapsed.
Proof.
  induction before as [|x l IH]; intros acc elapsed rest Hauto Hdur Hel.
  - simpl. rewrite Rplus_0_r. reflexivity.
  - simpl in Hauto. apply andb_true_iff in Hauto. destruct Hauto as [Hx Hl].
    apply Forall_cons in Hdur. destruct Hdur as [Hdx Hdl].
    simpl in Hel.
    pose proof (fold_right_nonneg l Hdl) as Htot.
    simpl app. simpl findStage.
    assert (Hst : match stage_start x with
                  | Some v => if Reqb v 0 then acc else v
                  | None => acc
                  end = acc).
    { unfold autoStart in Hx. destruct (stage_start x) as [v|]; [|reflexivity].
      rewrite Hx. reflexivity. }
    rewrite Hst.
    replace (Rltb elapsed (acc + stage_duration x)) with false
      by (symmetry; apply Rltb_ge; fold (totalDuration l) in *; rlra).
    rewrite andb_false_r.
    rewrite IH; [|exact Hl|exact Hdl|simpl; rlra].
    simpl. f_equal. rlra.
Qed.

Lemma findStage_early (l : list Stage) :
  forall (accumulatedTime elapsed : R),
    forallb autoStart l = true ->
    Forall (fun s => 0 <= stage_duration s) l ->
    elapsed < accumulatedTime ->
    findStage l accumulatedTime elapsed = None.
Proof.
  induction l as [|x l IH]; intros acc elapsed Hauto Hdur Hel; [reflexivity|].
  simpl in Hauto. apply andb_true_iff in Hauto. destruct Hauto as [Hx Hl].
  apply Forall_cons in Hdur. destruct Hdur as [Hdx Hdl].
  simpl findStage.
  assert (Hst : match stage_start x with
                | Some v => if Reqb v 0 then acc else v
                | None => acc
                end = acc).
  { unfold autoStart in Hx. destruct (stage_start x) as [v|]; [|reflexivity].
    rewrite Hx. reflexivity. }
  rewrite Hst.
  replace (Rleb acc elapsed) with false by (symmetry; apply Rleb_gt; exact Hel).
  simpl. apply IH; [exact Hl|exact Hdl|rlra].
Qed.

(** X16.  Stages that give no start of their own (none, or 0) play back to back
    from the start of the sequence: the stage applied at an elapsed time is
    the one whose turn it is by the durations of the stages before it, with
    the progress counted from the end of those; before time 0 and from the
    end of the last stage on no stage is applied. *)
Theorem stages_without_start_play_back_to_back (l : list Stage) (elapsed : R) :
  forallb autoStart l = true ->
  Forall (fun s => 0 <= stage_duration s) l ->
  (forall before stage after,
     l = before ++ stage :: after ->
     totalDuration before <= elapsed
       < totalDuration before + stage_duration stage ->
     findStage l 0 elapsed =
     Some (stage, (elapsed - totalDuration before) / stage_duration stage)) /\
  (elapsed < 0 \/ totalDuration l <= elapsed -> findStage l 0 elapsed = None).
Proof.
  intros Hauto Hdur. split.
  - intros before stage after -> [H1 H2].
    rewrite forallb_app in Hauto. apply andb_true_iff in Hauto.
    destruct Hauto as [Hb Hrest].
    simpl in Hrest. apply andb_true_iff in Hrest. destruct Hrest as [Hs _].
    apply Forall_app in Hdur. destruct Hdur as [Hdb _].
    rewrite findStage_auto by (assumption || rlra).
    rewrite Rplus_0_l. simpl findStage.
    assert (Hst : match stage_start stage with
                  | Some v => if Reqb v 0 then totalDuration before else v
                  | None => totalDuration before
                  end = totalDuration before).
    { unfold autoStart in Hs. destruct (stage_start stage) as [v|]; [|reflexivity].
      rewrite Hs. reflexivity. }
    rewrite Hst.
    replace (Rleb (totalDuration before) elapsed) with true
      by (symmetry; apply Rleb_le; exact H1).
    replace (Rltb elapsed (totalDuration before + stage_duration stage)) with true
      by (symmetry; apply Rltb_lt; exact H2).
    reflexivity.
  - intros [Hneg|Hlate].
    + apply findStage_early; assumption.
    + rewrite <- (app_nil_r l). rewrite findStage_auto by (assumption || rlra).
      reflexivity.
Qed.

Lemma stages_without_start_play_back_to_back_witness :
  findStage [mkStage None 1000 []; mkStage (Some 0) 500 []] 0 1250
    = Some (mkStage (Some 0) 500 [], (1250 - totalDuration [mkStage None 1000 []]) / 500) /\
  findStage [mkStage None 1000 []; mkStage (Some 0) 500 []] 0 1500 = None.
Proof.
  assert (Hauto : forallb autoStart [mkStage None 1000 []; mkStage (Some 0) 500 []]
                  = true).
  { unfold forallb, autoStart. simpl.
    replace (Reqb 0 0) with true by (symmetry; apply Reqb_eq; reflexivity).
    reflexivity. }
  assert (Hdur : Forall (fun s => 0 <= stage_duration s)
                   [mkStage None 1000 []; mkStage (Some 0) 500 []]).
  { repeat constructor; simpl; rlra. }
  destruct (stages_without_start_play_back_to_back _ 1250 Hauto Hdur) as [Hin _].
  destruct (stages_without_start_play_back_to_back _ 1500 Hauto Hdur) as [_ Hout].
  split.
  - apply (Hin [mkStage None 1000 []] (mkStage (Some 0) 500 []) [] eq_refl).
    simpl. rlra.
  - apply Hout. right. simpl. rlra.
Defined.

(** *** Easings and interpolation *)

Lemma easing_cases (P : (R -> R) -> Prop) (n : string) :
  In n easingNames ->
  P (fun t => t) ->
  P (fun t => t * t) ->
  P (fun t => t * (2 - t)) ->
  P (fun t => if Rltb t (5 / 10) then 2 * t * t else -1 + (4 - 2 * t) * t) ->
  P (fun t => if Reqb t 0 then 0 else Math_pow 2 (10 * (t - 1))) ->
  P (getEasingFunction n).
Proof.
  intros Hn H1 H2 H3 H4 H5. unfold easingNames in Hn. simpl in Hn.
  destruct Hn as [<-|[<-|[<-|[<-|[<-|[]]]]]]; assumption.
Qed.

Lemma Rpower_2_unit (x : R) : x <= 0 -> 0 < Rpower 2 x <= 1.
Proof.
  intros Hx. split.
  - unfold Rpower. apply exp_pos.
  - rewrite <- (Rpower_O 2) by rlra. apply Rle_Rpower; rlra.
Qed.

Lemma easing_unit (n : string) (t u : R) :
  In n easingNames -> 0 <= t <= u -> u <= 1 ->
  getEasingFunction n 0 = 0 /\ getEasingFunction n 1 = 1 /\
  0 <= getEasingFunction n t /\
  getEasingFunction n t <= getEasingFunction n u /\
  getEasingFunction n u <= 1.
Proof.
  intros Hn [Ht Htu] Hu.
  apply (easing_cases
           (fun f => f 0 = 0 /\ f 1 = 1 /\ 0 <= f t /\ f t <= f u /\ f u <= 1) n Hn).
  - repeat split; rlra.
  - repeat split; try rlra; Lra.nra.
  - repeat split; try rlra; Lra.nra.
  - replace (Rltb 0 (5 / 10)) with true by (symmetry; apply Rltb_lt; rlra).
    replace (Rltb 1 (5 / 10)) with false by (symmetry; apply Rltb_ge; rlra).
    split; [rlra|]. split; [rlra|].
    unfold Rltb. destruct (Rlt_dec t (5 / 10)) as [Et|Et];
      destruct (Rlt_dec u (5 / 10)) as [Eu|Eu];
      repeat split; try rlra; Lra.nra.
  - replace (Reqb 0 0) with true by (symmetry; apply Reqb_eq; reflexivity).
    replace (Reqb 1 0) with false by (symmetry; apply Reqb_neq; rlra).
    unfold Math_pow.
    split; [reflexivity|].
    split; [replace (10 * (1 - 1)) with 0 by rlra; apply Rpower_O; rlra|].
    pose proof (Rpower_2_unit (10 * (t - 1)) ltac:(rlra)) as [Ht0 Ht1].
    pose proof (Rpower_2_unit (10 * (u - 1)) ltac:(rlra)) as [Hu0 Hu1].
    unfold Reqb. destruct (Req_dec_T t 0) as [Et|Et];
      destruct (Req_dec_T u 0) as [Eu|Eu].
    + repeat split; rlra.
    + repeat split; rlra.
    + exfalso. rlra.
    + split; [rlra|]. split; [|rlra]. apply Rle_Rpower; rlra.
Qed.

(** X17.  Each of the five easings runs from 0 at progress 0 to 1 at progress 1,
    never decreases in between and stays within the unit interval there. *)
Theorem easing_runs_from_0_to_1 (n : string) (t u : R) :
  In n easingNames -> 0 <= t <= u -> u <= 1 ->
  let ease := getEasingFunction n in
  ease 0 = 0 /\ ease 1 = 1 /\ 0 <= ease t /\ ease t <= ease u /\ ease u <= 1.
Proof.
  intros Hn Ht Hu. apply easing_unit; assumption.
Qed.

Lemma easing_runs_from_0_to_1_witness :
  getEasingFunction "easeInOut" (1 / 4) <= getEasingFunction "easeInOut" (3 / 4).
Proof.
  assert (Hn : In "easeInOut"%string easingNames)
    by (unfold easingNames; simpl; tauto).
  destruct (easing_runs_from_0_to_1 "easeInOut" (1 / 4) (3 / 4) Hn
              ltac:(rlra) ltac:(rlra)) as [_ [_ [_ [H _]]]].
  exact H.
Defined.

(** X18.  An interpolation between two numbers under one of the five easings (or
    none given, which is the linear one) starts at [from], and stays between
    [from] and [to] while the progress is between 0 and 1; the [spike] and
    [jump] of the same entry are not looked at.  As the progress of a stage
    stays below 1, [to] is what the value would take at progress 1. *)
Theorem interpolation_stays_between_the_endpoints
    (e : Engine.t) (param : string) (a b : R) (ease : option string)
    (sp dc jp : option R) (progress : R) :
  In (easingName ease) easingNames -> 0 <= progress <= 1 ->
  let change := mkChange (Some (Value a)) (Some (Value b)) ease sp dc jp in
  exists v,
    changeValue e param change progress = Some v /\
    v = a + (b - a) * getEasingFunction (easingName ease) progress /\
    Rmin a b <= v <= Rmax a b /\
    changeValue e param change 0 = Some (a + (b - a) * 0) /\
    changeValue e param change 1 = Some (a + (b - a) * 1).
Proof.
  intros Hn [Hp0 Hp1] change.
  destruct (easing_unit (easingName ease) progress progress Hn
              ltac:(split; [exact Hp0|apply Rle_refl]) Hp1)
    as [H0 [H1 [Hlo [_ Hhi]]]].
  exists (a + (b - a) * getEasingFunction (easingName ease) progress).
  split; [reflexivity|]. split; [reflexivity|].
  set (t := getEasingFunction (easingName ease) progress) in *.
  split; [|split].
  - unfold Rmin, Rmax. destruct (Rle_dec a b); split; Lra.nra.
  - unfold changeValue, change. simpl. rewrite H0. reflexivity.
  - unfold changeValue, change. simpl. rewrite H1. reflexivity.
Qed.

Lemma interpolation_stays_between_the_endpoints_witness :
  exists v,
    changeValue halfIntensity "intensity"
      (mkChange (Some (Value 2)) (Some (Value 1)) (Some "easeOut"%string)
                (Some 9) None None) (1 / 2) = Some v /\
    Rmin 2 1 <= v <= Rmax 2 1.
Proof.
  assert (Hn : In (easingName (Some "easeOut"%string)) easingNames)
    by (unfold easingNames; simpl; tauto).
  destruct (interpolation_stays_between_the_endpoints halfIntensity "intensity"
              2 1 (Some "easeOut"%string) (Some 9) None None (1 / 2) Hn
              ltac:(rlra)) as [v [Hv [_ [Hrange _]]]].
  exists v. split; [exact Hv|exact Hrange].
Defined.

(** *** What a stage writes *)

Lemma changeValue_engine (e1 e2 : Engine.t) (param : string) (change : Change)
    (progress : R) :
  changeValue e1 param change progress = changeValue e2 param change progress.
Proof.
  unfold changeValue, resolveEndpoint, getCurrentParam. reflexivity.
Qed.

Lemma fold_writeChange_engine (e1 e2 : Engine.t) (progress : R)
    (l : list (string * Change)) (ps : gmap string R) :
  fold_left (writeChange e1 progress) l ps = fold_left (writeChange e2 progress) l ps.
Proof.
  revert ps. induction l as [|pc l IH]; intros ps; simpl; [reflexivity|].
  rewrite IH. unfold writeChange.
  rewrite (changeValue_engine e1 e2). reflexivity.
Qed.

Lemma applyChange_visualizers (progress : R) (e : Engine.t) (pc : string * Change) :
  visualizers (applyChange progress e pc) =
  map (fun viz =>
         if hasUpdateParameter viz
         then mkVisualizer true (writeChange e progress (params viz) pc)
         else viz)
    (visualizers e).
Proof.
  unfold applyChange, writeChange.
  destruct (changeValue e (fst pc) (snd pc) progress) as [v|]; simpl.
  - reflexivity.
  - induction (visualizers e) as [|viz l IH]; simpl; [reflexivity|].
    rewrite <- IH. f_equal. destruct viz as [[|] ps]; reflexivity.
Qed.

Lemma applyStage_visualizers (progress : R) (l : list (string * Change)) :
  forall e : Engine.t,
    visualizers (fold_left (applyChange progress) l e) =
    map (fun viz =>
           if hasUpdateParameter viz
           then mkVisualizer true (fold_left (writeChange e progress) l (params viz))
           else viz)
      (visualizers e).
Proof.
  induction l as [|pc l IH]; intros e; simpl.
  - induction (visualizers e) as [|viz vs IHv]; simpl; [reflexivity|].
    rewrite <- IHv. f_equal. destruct viz as [[|] ps]; reflexivity.
  - rewrite IH, applyChange_visualizers, map_map. apply map_ext.
    intros viz. destruct (hasUpdateParameter viz) eqn:Hup; simpl.
    + rewrite (fold_writeChange_engine _ e). reflexivity.
    + rewrite Hup. reflexivity.
Qed.

Lemma fold_writeChange_kept (e : Engine.t) (progress : R) (param : string)
    (l : list (string * Change)) :
  (forall change, In (param, change) l ->
                  changeValue e param change progress = None) ->
  forall ps, fold_left (writeChange e progress) l ps !! param = ps !! param.
Proof.
  induction l as [|[k c] l IH]; intros Hnone ps; simpl; [reflexivity|].
  rewrite IH by (intros change Hin; apply Hnone; right; exact Hin).
  unfold writeChange. simpl.
  destruct (changeValue e k c progress) as [v|] eqn:Hv; [|reflexivity].
  destruct (decide (k = param)) as [->|Hne].
  - rewrite (Hnone c) in Hv by (left; reflexivity). discriminate.
  - apply lookup_insert_ne. exact Hne.
Qed.

Lemma fold_writeChange_written (e : Engine.t) (progress : R) (param : string)
    (change : Change) (value : R) (l : list (string * Change)) :
  NoDup (map fst l) -> In (param, change) l ->
  changeValue e param change progress = Some value ->
  forall ps, fold_left (writeChange e progress) l ps !! param = Some value.
Proof.
  induction l as [|[k c] l IH]; intros Hnd Hin Hv ps; [destruct Hin|].
  simpl in Hnd. apply NoDup_cons in Hnd. destruct Hnd as [Hk Hl].
  simpl. destruct Hin as [[= -> ->]|Hin].
  - rewrite fold_writeChange_kept.
    + unfold writeChange. simpl. rewrite Hv. apply lookup_insert_eq.
    + intros change' Hin'. exfalso. apply Hk. apply list_elem_of_In.
      apply in_map_iff. exists (param, change'). split; [reflexivity|exact Hin'].
  - apply IH; assumption.
Qed.

(** X19.  Applying a stage changes nothing of the engine but what its visualizers
    hold.  A visualizer without [updateParameter] is left as it is; one that
    has it holds, for every parameter of the stage whose entry yields a value,
    that value, and every other parameter as before. *)
Theorem applyStage_writes_the_stage_values
    (e : Engine.t) (stage : Stage) (progress : R) :
  NoDup (map fst (changes stage)) ->
  let e' := applyStage e stage progress in
  onlyVisualizers e e' /\
  Forall2
    (fun viz viz' =>
       hasUpdateParameter viz' = hasUpdateParameter viz /\
       (hasUpdateParameter viz = false -> viz' = viz) /\
       (forall param change value,
          hasUpdateParameter viz = true ->
          In (param, change) (changes stage) ->
          changeValue e param change progress = Some value ->
          liveValue viz' param = Some value) /\
       (forall param,
          (forall change, In (param, change) (changes stage) ->
                          changeValue e param change progress = None) ->
          liveValue viz' param = liveValue viz param))
    (visualizers e) (visualizers e').
Proof.
  intros Hnd e'. split; [apply applyStage_only|].
  unfold e', applyStage. rewrite applyStage_visualizers.
  induction (visualizers e) as [|viz vs IH]; simpl; constructor; [|exact IH].
  unfold liveValue. destruct (hasUpdateParameter viz) eqn:Hup; simpl.
  - split; [reflexivity|]. split; [discriminate|]. split.
    + intros param change value _ Hin Hv.
      apply (fold_writeChange_written e progress param change value); assumption.
    + intros param Hnone. apply fold_writeChange_kept. exact Hnone.
  - split; [exact Hup|]. split; [reflexivity|]. split.
    + intros param change value H. discriminate.
    + reflexivity.
Qed.

Lemma applyStage_writes_the_stage_values_witness :
  Forall2 (fun viz viz' => liveValue viz' "intensity" = Some 2)
    (visualizers halfIntensity)
    (visualizers (applyStage halfIntensity
                    (mkStage None 1000 [("intensity"%string, Jump 2)]) (1 / 2))).
Proof.
  assert (Hnd : NoDup (map fst (changes (mkStage None 1000
                                           [("intensity"%string, Jump 2)])))).
  { simpl. apply NoDup_singleton. }
  destruct (applyStage_writes_the_stage_values halfIntensity _ (1 / 2) Hnd)
    as [_ Hall].
  change (visualizers halfIntensity)
    with [mkVisualizer true (<["intensity"%string := 1 / 2]> ∅)] in *.
  inversion Hall as [|viz viz' vs vs' [_ [_ [Hset _]]] Hrest]; subst.
  inversion Hrest; subst.
  constructor; [|constructor].
  apply (Hset "intensity"%string (Jump 2) 2 eq_refl);
    [left; reflexivity|reflexivity].
Defined.

End EngineStages.

(** ** The choreography engine: what a tick does to the memory and the beat *)

Section EngineMemory.
Import Engine.
Local Open Scope R_scope.
Context {host : Host}.

Local Ltac rlra := Lra.lra.

(** *** The phases of a tick *)

Lemma animate_phases (e : Engine.t) (currentTime : R) (a : AudioData) (e' : Engine.t) :
  running e = true ->
  animate e currentTime a = Normal e' ->
  exists e4,
    checkTriggers
      (updateMemory (updateBeatTracking (set_frameTime e currentTime) currentTime a)
         a currentTime) a currentTime = Normal e4 /\
    e' = updateActiveSequences e4 currentTime.
Proof.
  intros Hrun Han. unfold animate in Han. rewrite Hrun in Han. simpl in Han.
  apply bind_normal in Han. destruct Han as [e4 [H4 Hlast]].
  injection Hlast as <-. exists e4. split; [exact H4|reflexivity].
Qed.

Lemma checkTrigger_frame (a : AudioData) (t : R) (e : Engine.t) (s : Sequence)
    (e' : Engine.t) :
  checkTrigger a t e s = Normal e' ->
  e' = set_active e (activeSequences e') (sequenceHistory e') /\
  ((activeSequences e' = activeSequences e /\
    sequenceHistory e' = sequenceHistory e) \/
   (exists s', In s' (sequences e) /\ name s' = name s /\
               activeSequences e' = activeSequences e ++ [Active.mk s' t 0] /\
               sequenceHistory e' = sequenceHistory e ++ [(name s, t)])).
Proof.
  unfold checkTrigger. destruct (isActive e (name s)).
  - intros [= <-]. split; [destruct e; reflexivity|left; split; reflexivity].
  - intros Hb. apply bind_normal in Hb. destruct Hb as [fired [_ Hb]].
    destruct fired; injection Hb as <-.
    + unfold startSequence.
      destruct (List.find (fun x => String.eqb (name x) (name s)) (sequences e))
        as [s'|] eqn:E.
      * split; [reflexivity|]. right. apply find_some in E.
        destruct E as [Hin Hn]. apply String.eqb_eq in Hn.
        exists s'. repeat split; assumption.
      * split; [destruct e; reflexivity|left; split; reflexivity].
    + split; [destruct e; reflexivity|left; split; reflexivity].
Qed.

Lemma forEachSequence_frame (a : AudioData) (t : R) (l : list Sequence) :
  forall e e', forEachSequence a t l e = Normal e' ->
  e' = set_active e (activeSequences e') (sequenceHistory e') /\
  (exists started, sequenceHistory e' = sequenceHistory e ++ started) /\
  ((forall x, In x (activeSequences e) ->
      In (name (Active.sequence x), Active.startTime x) (sequenceHistory e)) ->
   forall x, In x (activeSequences e') ->
      In (name (Active.sequence x), Active.startTime x) (sequenceHistory e')) /\
  ((forall n t0, In (n, t0) (sequenceHistory e) -> In n (map name (sequences e))) ->
   forall n t0, In (n, t0) (sequenceHistory e') -> In n (map name (sequences e))).
Proof.
  induction l as [|s l IH]; intros e e' Hrun; simpl in Hrun.
  - injection Hrun as <-. split; [destruct e; reflexivity|].
    split; [exists []; rewrite app_nil_r; reflexivity|]. split; auto.
  - apply bind_normal in Hrun. destruct Hrun as [e1 [H1 Hrest]].
    apply checkTrigger_frame in H1. destruct H1 as [Hf1 Hcase].
    destruct (IH e1 e' Hrest) as [Hf [[started Hs] [Hact Hhist]]].
    assert (Hseq : sequences e1 = sequences e) by (rewrite Hf1; reflexivity).
    split; [rewrite Hf, Hf1; reflexivity|].
    destruct Hcase as [[Ha1 Hh1]|[s' [Hin [Hn [Ha1 Hh1]]]]].
    + rewrite Ha1, Hh1, Hseq in *. split; [exists started; exact Hs|].
      split; assumption.
    + split; [|split].
      * exists ((name s, t) :: started). rewrite Hs, Hh1, <- app_assoc. reflexivity.
      * intros Hold. apply Hact. intros x Hx. rewrite Ha1 in Hx. rewrite Hh1.
        apply in_app_or in Hx. apply in_or_app.
        destruct Hx as [Hx|[<-|[]]]; [left; apply Hold; exact Hx|].
        right. left. simpl. rewrite Hn. reflexivity.
      * intros Hold. rewrite Hseq in Hhist. apply Hhist.
        intros n t0 Hx. rewrite Hh1 in Hx. apply in_app_or in Hx.
        destruct Hx as [Hx|[[= <- <-]|[]]]; [apply Hold in Hx; exact Hx|].
        rewrite <- Hn. apply in_map. exact Hin.
Qed.

Lemma updateActiveSequences_frame (e : Engine.t) (currentTime : R) :
  let e' := updateActiveSequences e currentTime in
  e' = set_active (set_visualizers e (visualizers e'))
         (List.filter (stillRunning currentTime) (activeSequences e))
         (sequenceHistory e).
Proof.
  unfold updateActiveSequences.
  destruct (filterActive_spec currentTime (activeSequences e) e) as [Hf Ho].
  destruct (filterActive currentTime (activeSequences e) e) as [kept e1].
  simpl in *. subst kept. unfold onlyVisualizers in Ho. rewrite Ho. reflexivity.
Qed.

Lemma updateMemory_frame (e : Engine.t) (a : AudioData) (currentTime : R) :
  updateMemory e a currentTime =
  set_memory e (memory (updateMemory e a currentTime)).
Proof.
  unfold updateMemory.
  destruct (trackBassHits (memory e) a currentTime) as [hits predicted].
  destruct (trackEnergy (memory e) a) as [history trend]. reflexivity.
Qed.

Lemma updateBeatTracking_memory (e : Engine.t) (currentTime : R) (a : AudioData) :
  let m := memory e in
  let m' := memory (updateBeatTracking e currentTime a) in
  recentBassHits m' = recentBassHits m /\
  predictedNextBass m' = predictedNextBass m /\
  energyTrend m' = energyTrend m /\
  energyHistory m' = energyHistory m.
Proof.
  unfold updateBeatTracking.
  destruct (currentBeat e <? _)%Z; destruct (onsetEvent a) as [ev|];
    try destruct (detected ev && Rltb 0 (strength ev)); simpl; repeat split.
Qed.

(** The memory after a tick of a running engine is the memory that
    [updateMemory] leaves. *)
Lemma animate_memory (e : Engine.t) (currentTime : R) (a : AudioData) (e' : Engine.t) :
  running e = true ->
  animate e currentTime a = Normal e' ->
  memory e' =
  memory (updateMemory (updateBeatTracking (set_frameTime e currentTime) currentTime a)
            a currentTime).
Proof.
  intros Hrun Han. destruct (animate_phases e currentTime a e' Hrun Han)
    as [e4 [H4 ->]].
  unfold checkTriggers in H4. apply forEachSequence_frame in H4.
  destruct H4 as [Hf _]. rewrite updateActiveSequences_frame. simpl.
  rewrite Hf. reflexivity.
Qed.

Lemma call_cases (e : Engine.t) (c : Call) (e' : Engine.t) :
  call e c = Normal e' ->
  (memory e' = memory e /\ currentBeat e' = currentBeat e /\
   currentMeasure e' = currentMeasure e /\ beatsPerMeasure e' = beatsPerMeasure e /\
   bpm e' = bpm e /\ beatDuration e' = beatDuration e /\
   ((activeSequences e' = activeSequences e /\
     sequenceHistory e' = sequenceHistory e) \/
    (exists s t, In s (sequences e) /\
       activeSequences e' = activeSequences e ++ [Active.mk s t 0] /\
       sequenceHistory e' = sequenceHistory e ++ [(name s, t)])) /\
   forall n, In n (map name (sequences e)) -> In n (map name (sequences e'))) \/
  (exists currentTime a,
     c = CallAnimate currentTime a /\ running e = true /\
     animate e currentTime a = Normal e').
Proof.
  destruct c as [s|now| |currentTime a|n t]; simpl.
  - unfold defineSequence. destruct (String.eqb (name s) ""); [discriminate|].
    intros [= <-]. left. simpl. repeat split; [left; split; reflexivity|].
    intros n Hn. induction (sequences e) as [|x l IH]; simpl in *; [destruct Hn|].
    destruct (String.eqb_spec (name x) (name s)) as [E|E]; simpl.
    + destruct Hn as [<-|Hn]; [left; symmetry; exact E|right; exact Hn].
    + destruct Hn as [<-|Hn]; [left; reflexivity|right; apply IH; exact Hn].
  - intros [= <-]. left. unfold start.
    destruct (running e); simpl; repeat split; auto.
  - intros [= <-]. left. simpl. repeat split; auto.
  - intros Han. destruct (running e) eqn:Hrun.
    + right. exists currentTime, a. repeat split; assumption.
    + unfold animate in Han. rewrite Hrun in Han. injection Han as <-.
      left. repeat split; auto.
  - intros [= <-]. left. unfold startSequence.
    destruct (List.find (fun x => String.eqb (name x) n) (sequences e))
      as [s|] eqn:E; simpl.
    + apply find_some in E. destruct E as [Hin Hn]. apply String.eqb_eq in Hn.
      repeat split; auto. right. exists s, t. rewrite Hn. repeat split. exact Hin.
    + repeat split; auto.
Qed.

(** *** The sizes of the memory *)

Lemma pushCapped_length (cap : nat) (l : list R) (x : R) :
  (length l <= cap)%nat ->
  length (pushCapped cap l x) = Nat.min cap (S (length l)).
Proof.
  intros H. unfold pushCapped.
  assert (Hl : length (l ++ [x]) = S (length l))
    by (rewrite length_app; simpl; lia).
  destruct (cap <? length (l ++ [x]))%nat eqn:E.
  - apply Nat.ltb_lt in E. destruct (l ++ [x]) as [|y r]; simpl in *; lia.
  - apply Nat.ltb_ge in E. lia.
Qed.

Lemma trackBassHits_length (m : Memory) (a : AudioData) (currentTime : R) :
  (length (recentBassHits m) <= 10)%nat ->
  (length (fst (trackBassHits m a currentTime)) <= 10)%nat.
Proof.
  intros H. unfold trackBassHits.
  destruct (above (bandValue a "bass") (7 / 10)); [|exact H].
  pose proof (pushCapped_length 10 (recentBassHits m) currentTime H) as Hl.
  destruct (3 <=? length (pushCapped 10 (recentBassHits m) currentTime))%nat;
    simpl; lia.
Qed.

Lemma trackEnergy_spec (m : Memory) (a : AudioData) :
  (length (energyHistory m) <= 20)%nat ->
  let history := fst (trackEnergy m a) in
  let trend := snd (trackEnergy m a) in
  history = pushCapped 20 (energyHistory m) (orZero (rms a)) /\
  length history = Nat.min 20 (S (length (energyHistory m))) /\
  ((length history < 10)%nat -> trend = energyTrend m) /\
  ((10 <= length history)%nat ->
   In trend ["building"; "releasing"; "stable"]%string).
Proof.
  intros H. unfold trackEnergy.
  pose proof (pushCapped_length 20 (energyHistory m) (orZero (rms a)) H) as Hl.
  set (history := pushCapped 20 (energyHistory m) (orZero (rms a))) in *.
  destruct (10 <=? length history)%nat eqn:E.
  - apply Nat.leb_le in E.
    destruct (Rltb (1 / 100) (calculateSlope history));
      [|destruct (Rltb (calculateSlope history) (- (1 / 100)))];
      simpl; (split; [reflexivity|]); (split; [exact Hl|]);
      (split; [lia|]); intros _; simpl; tauto.
  - apply Nat.leb_gt in E. simpl. split; [reflexivity|]. split; [exact Hl|].
    split; [reflexivity|lia].
Qed.

Lemma updateMemory_fields (e : Engine.t) (a : AudioData) (currentTime : R) :
  let m' := memory (updateMemory e a currentTime) in
  recentBassHits m' = fst (trackBassHits (memory e) a currentTime) /\
  predictedNextBass m' = snd (trackBassHits (memory e) a currentTime) /\
  energyHistory m' = fst (trackEnergy (memory e) a) /\
  energyTrend m' = snd (trackEnergy (memory e) a).
Proof.
  unfold updateMemory.
  destruct (trackBassHits (memory e) a currentTime) as [hits predicted].
  destruct (trackEnergy (memory e) a) as [history trend].
  simpl. repeat split.
Qed.

Lemma reachable_memory_sizes (e : Engine.t) :
  reachable e ->
  (length (recentBassHits (memory e)) <= 10)%nat /\
  (length (energyHistory (memory e)) <= 20)%nat /\
  In (energyTrend (memory e)) ["neutral"; "building"; "releasing"; "stable"]%string /\
  ((length (energyHistory (memory e)) < 10)%nat ->
   energyTrend (memory e) = "neutral"%string).
Proof.
  induction 1 as [vizs configBpm|e0 c e1 Hr IH Hc].
  - simpl. split; [lia|]. split; [lia|]. split; [tauto|reflexivity].
  - destruct IH as [Hb [Hh [Ht Hn]]].
    destruct (call_cases e0 c e1 Hc) as [[Hm _]|[t [a [_ [Hrun Han]]]]].
    + rewrite Hm. repeat split; assumption.
    + rewrite (animate_memory e0 t a e1 Hrun Han).
      set (e2 := updateBeatTracking (set_frameTime e0 t) t a).
      destruct (updateBeatTracking_memory (set_frameTime e0 t) t a)
        as [Hb2 [_ [Ht2 Hh2]]].
      fold e2 in Hb2, Ht2, Hh2. simpl in Hb2, Ht2, Hh2.
      destruct (updateMemory_fields e2 a t) as [Fb [_ [Fh Ft]]].
      rewrite Fb, Fh, Ft.
      assert (Hh' : (length (energyHistory (memory e2)) <= 20)%nat)
        by (rewrite Hh2; exact Hh).
      destruct (trackEnergy_spec (memory e2) a Hh') as [_ [Hlen [Hfew Hmany]]].
      split; [apply trackBassHits_length; rewrite Hb2; exact Hb|].
      split; [rewrite Hlen; lia|]. split.
      * destruct (Nat.lt_ge_cases (length (fst (trackEnergy (memory e2) a))) 10)
          as [Hlt|Hge].
        -- rewrite (Hfew Hlt), Ht2. exact Ht.
        -- specialize (Hmany Hge). simpl in Hmany |- *. tauto.
      * intros Hlt. rewrite (Hfew Hlt), Ht2. apply Hn.
        rewrite Hlen, Hh2 in Hlt. lia.
Qed.

(** X20.  The memory stays small: in every engine a program can reach at most 10
    bass hits and at most 20 energy values are kept, and the energy trend is
    one of "neutral", "building", "releasing" and "stable", "neutral" as long
    as fewer than 10 energy values were recorded.  Every tick of a running
    engine records one energy value, the oldest making room once there are
    20. *)
Theorem memory_stays_small (e : Engine.t) :
  reachable e ->
  (length (recentBassHits (memory e)) <= 10)%nat /\
  (length (energyHistory (memory e)) <= 20)%nat /\
  In (energyTrend (memory e)) ["neutral"; "building"; "releasing"; "stable"]%string /\
  ((length (energyHistory (memory e)) < 10)%nat ->
   energyTrend (memory e) = "neutral"%string) /\
  (forall currentTime audioData e',
     running e = true ->
     animate e currentTime audioData = Normal e' ->
     energyHistory (memory e') =
       pushCapped 20 (energyHistory (memory e)) (orZero (rms audioData)) /\
     length (energyHistory (memory e')) =
       Nat.min 20 (S (length (energyHistory (memory e))))).
Proof.
  intros Hr. destruct (reachable_memory_sizes e Hr) as [Hb [Hh [Ht Hn]]].
  split; [exact Hb|]. split; [exact Hh|]. split; [exact Ht|]. split; [exact Hn|].
  intros t a e' Hrun Han. rewrite (animate_memory e t a e' Hrun Han).
  set (e2 := updateBeatTracking (set_frameTime e t) t a).
  destruct (updateBeatTracking_memory (set_frameTime e t) t a) as [_ [_ [_ Hh2]]].
  fold e2 in Hh2. simpl in Hh2.
  destruct (updateMemory_fields e2 a t) as [_ [_ [Fh _]]]. rewrite Fh.
  assert (Hh' : (length (energyHistory (memory e2)) <= 20)%nat)
    by (rewrite Hh2; exact Hh).
  destruct (trackEnergy_spec (memory e2) a Hh') as [Hhist [Hlen _]].
  rewrite Hlen, Hhist, Hh2. split; reflexivity.
Qed.

(** *** The predicted bass hit *)

Lemma fold_left_Rplus (l : list R) (x : R) :
  fold_left Rplus l x = x + fold_right Rplus 0 l.
Proof.
  revert x. induction l as [|y l IH]; intros x; simpl; [rlra|].
  rewrite IH. rlra.
Qed.

Lemma differences_sum (l : list R) (x : R) :
  fold_right Rplus 0 (differences (x :: l)) = List.last l x - x.
Proof.
  revert x. induction l as [|y l IH]; intros x.
  - simpl. rlra.
  - change (fold_right Rplus 0 (differences (x :: y :: l)))
      with ((y - x) + fold_right Rplus 0 (differences (y :: l))).
    rewrite IH.
    assert (E : List.last (y :: l) x = List.last l y).
    { clear. revert x y. induction l as [|z l IHl]; intros x y; [reflexivity|].
      change (List.last (y :: z :: l) x) with (List.last (z :: l) x).
      rewrite (IHl x z). symmetry. apply (IHl y z). }
    rewrite E. rlra.
Qed.

Lemma differences_length (l : list R) :
  length (differences l) = (length l - 1)%nat.
Proof.
  induction l as [|x l IH]; [reflexivity|].
  destruct l as [|y l]; [reflexivity|].
  change (differences (x :: y :: l)) with ((y - x) :: differences (y :: l)).
  simpl length in *. rewrite IH. lia.
Qed.

Lemma reduceSum_differences (l : list R) :
  (2 <= length l)%nat ->
  reduceSum (differences l) = List.last l 0 - List.hd 0 l.
Proof.
  destruct l as [|x [|y l]]; simpl length; try lia. intros _.
  change (differences (x :: y :: l)) with ((y - x) :: differences (y :: l)).
  unfold reduceSum. rewrite fold_left_Rplus, differences_sum.
  change (List.hd 0 (x :: y :: l)) with x.
  change (List.last (x :: y :: l) 0) with (List.last (y :: l) 0).
  assert (E : forall d, List.last (y :: l) d = List.last l y).
  { clear. revert y. induction l as [|z l IHl]; intros y d; [reflexivity|].
    change (List.last (y :: z :: l) d) with (List.last (z :: l) d).
    rewrite (IHl z d). symmetry. apply (IHl z y). }
  rewrite E. rlra.
Qed.

Lemma pushCapped_last (cap : nat) (l : list R) (x : R) :
  (0 < cap)%nat -> List.last (pushCapped cap l x) 0 = x.
Proof.
  intros Hcap. unfold pushCapped.
  destruct (cap <? length (l ++ [x]))%nat eqn:E.
  - apply Nat.ltb_lt in E. rewrite length_app in E. simpl in E.
    destruct l as [|y l]; [simpl in E; lia|].
    simpl. apply last_last.
  - apply last_last.
Qed.

(** X21.  When the bass is above 0.7 the time of the tick joins the (at most 10)
    recent bass hits as the last of them, and with three or more hits the
    next one is predicted one mean gap ahead: the sum of the gaps telescopes,
    so the prediction is the time of the tick plus the time from the oldest
    hit kept to this one, divided by the number of gaps. *)
Theorem predictedNextBass_is_one_mean_gap_ahead
    (m : Memory) (audioData : AudioData) (currentTime : R) :
  above (bandValue audioData "bass") (7 / 10) = true ->
  let hits := fst (trackBassHits m audioData currentTime) in
  let predicted := snd (trackBassHits m audioData currentTime) in
  hits = pushCapped 10 (recentBassHits m) currentTime /\
  List.last hits 0 = currentTime /\
  ((3 <= length hits)%nat ->
   predicted =
   Some (currentTime
         + (currentTime - List.hd 0 hits) / INR (length hits - 1))) /\
  ((length hits < 3)%nat -> predicted = predictedNextBass m).
Proof.
  intros Habove. unfold trackBassHits. rewrite Habove.
  set (hits := pushCapped 10 (recentBassHits m) currentTime).
  pose proof (pushCapped_last 10 (recentBassHits m) currentTime ltac:(lia)) as Hlast.
  fold hits in Hlast.
  destruct (3 <=? length hits)%nat eqn:E; simpl.
  - apply Nat.leb_le in E. split; [reflexivity|]. split; [exact Hlast|].
    split; [|lia]. intros _.
    rewrite reduceSum_differences by lia.
    rewrite differences_length, Hlast. reflexivity.
  - apply Nat.leb_gt in E. split; [reflexivity|]. split; [exact Hlast|].
    split; [lia|reflexivity].
Qed.

Lemma predictedNextBass_is_one_mean_gap_ahead_witness :
  snd (trackBassHits
         (mkMemory [100; 600] None 0 [] (mkMomentum 0 0 0) "neutral" 0 None [])
         loud 1200)
  = Some (1200 + (1200 - 100) / INR 2).
Proof.
  assert (Habove : above (bandValue loud "bass") (7 / 10) = true).
  { unfold loud, bandValue, above. simpl. rewrite lookup_insert_eq.
    apply Rltb_lt. rlra. }
  destruct (predictedNextBass_is_one_mean_gap_ahead
              (mkMemory [100; 600] None 0 [] (mkMomentum 0 0 0) "neutral" 0 None [])
              loud 1200 Habove) as [Hhits [_ [Hmany _]]].
  rewrite Hmany; rewrite Hhits; reflexivity || (simpl; lia).
Defined.

(** *** The slope of the energy *)

Lemma slopeSums_app (l1 l2 : list R) :
  forall (i : nat) (acc : R * R * R * R),
    slopeSums i (l1 ++ l2) acc = slopeSums (i + length l1) l2 (slopeSums i l1 acc).
Proof.
  induction l1 as [|y l1 IH]; intros i acc; simpl.
  - rewrite Nat.add_0_r. reflexivity.
  - destruct acc as [[[sumX sumY] sumXY] sumX2]. rewrite IH.
    replace (S i + length l1)%nat with (i + S (length l1))%nat by lia.
    reflexivity.
Qed.

Lemma line_succ (a b : R) (n : nat) :
  line a b (S n) = line a b n ++ [a * INR n + b].
Proof.
  unfold line. rewrite seq_S, map_app. reflexivity.
Qed.

Lemma line_length (a b : R) (n : nat) : length (line a b n) = n.
Proof. unfold line. rewrite length_map, length_seq. reflexivity. Qed.

Lemma sums_eq (x1 x2 y1 y2 z1 z2 w1 w2 : R) :
  x1 = x2 -> y1 = y2 -> z1 = z2 -> w1 = w2 ->
  (x1, y1, z1, w1) = (x2, y2, z2, w2).
Proof. intros -> -> -> ->. reflexivity. Qed.

Lemma slopeSums_line (a b : R) (n : nat) :
  exists X X2 : R,
    slopeSums 0 (line a b n) (0, 0, 0, 0)
      = (X, a * X + b * INR n, a * X2 + b * X, X2) /\
    2 * X = INR n * (INR n - 1) /\
    6 * X2 = (INR n - 1) * INR n * (2 * INR n - 1).
Proof.
  induction n as [|n [X [X2 [Hsums [HX HX2]]]]].
  - exists 0, 0. simpl. split; [|split; rlra].
    apply sums_eq; rlra.
  - exists (X + INR n), (X2 + INR n * INR n).
    rewrite line_succ, slopeSums_app, Hsums, line_length. simpl slopeSums.
    rewrite S_INR. split; [|split; Lra.nra].
    apply sums_eq; simpl; rlra.
Qed.

Lemma calculateSlope_line (a b : R) (n : nat) :
  (2 <= n)%nat -> calculateSlope (line a b n) = a.
Proof.
  intros Hn. unfold calculateSlope. rewrite line_length.
  replace (n <? 2)%nat with false by (symmetry; apply Nat.ltb_ge; exact Hn).
  destruct (slopeSums_line a b n) as [X [X2 [Hsums [HX HX2]]]]. rewrite Hsums.
  assert (HN : 2 <= INR n).
  { change 2 with (INR 2). apply le_INR. exact Hn. }
  set (N := INR n) in *.
  assert (EX : X = N * (N - 1) / 2) by rlra.
  assert (EX2 : X2 = (N - 1) * N * (2 * N - 1) / 6) by rlra.
  assert (HD : N * X2 - X * X = N * N * (N - 1) * (N + 1) / 12).
  { rewrite EX, EX2. field. }
  assert (Hpos : 0 < N * N * (N - 1) * (N + 1)).
  { repeat apply Rmult_lt_0_compat; rlra. }
  assert (HD0 : N * X2 - X * X <> 0) by (rewrite HD; rlra).
  replace (N * (a * X2 + b * X) - X * (a * X + b * N))
    with (a * (N * X2 - X * X)) by ring.
  field. exact HD0.
Qed.

Lemma line_constant (b : R) (n : nat) : line 0 b n = repeat b n.
Proof.
  unfold line. generalize 0%nat. induction n as [|n IH]; intros i; simpl;
    [reflexivity|].
  rewrite IH. f_equal. rlra.
Qed.

(** X22.  The slope that the energy trend is read from is a least-squares fit: for
    two or more values on a line [a * i + b] it is [a], and 0 for equal
    values.  So an energy history of 10 or more values on such a line makes
    the trend "building" when [a] is above 0.01, "releasing" when it is below
    -0.01 and "stable" otherwise; a steady energy is "stable". *)
Theorem calculateSlope_is_exact_on_a_line (a b : R) (n : nat) :
  (2 <= n)%nat ->
  calculateSlope (line a b n) = a /\
  calculateSlope (repeat b n) = 0 /\
  (forall (m : Memory) (audioData : AudioData),
     (10 <= n)%nat ->
     pushCapped 20 (energyHistory m) (orZero (rms audioData)) = line a b n ->
     snd (trackEnergy m audioData) =
     if Rltb (1 / 100) a then "building"%string
     else if Rltb a (- (1 / 100)) then "releasing"%string
     else "stable"%string) /\
  (forall (m : Memory) (audioData : AudioData),
     (10 <= n)%nat ->
     pushCapped 20 (energyHistory m) (orZero (rms audioData)) = repeat b n ->
     snd (trackEnergy m audioData) = "stable"%string).
Proof.
  intros Hn. split; [apply calculateSlope_line; exact Hn|]. split; [|split].
  - rewrite <- line_constant. apply calculateSlope_line. exact Hn.
  - intros m audioData Hten Hline. unfold trackEnergy. rewrite Hline.
    rewrite line_length.
    replace (10 <=? n)%nat with true by (symmetry; apply Nat.leb_le; exact Hten).
    rewrite calculateSlope_line by exact Hn.
    destruct (Rltb (1 / 100) a); [reflexivity|].
    destruct (Rltb a (- (1 / 100))); reflexivity.
  - intros m audioData Hten Hflat. unfold trackEnergy. rewrite Hflat.
    rewrite repeat_length.
    replace (10 <=? n)%nat with true by (symmetry; apply Nat.leb_le; exact Hten).
    rewrite <- line_constant, calculateSlope_line by exact Hn.
    replace (Rltb (1 / 100) 0) with false by (symmetry; apply Rltb_ge; rlra).
    replace (Rltb 0 (- (1 / 100))) with false by (symmetry; apply Rltb_ge; rlra).
    reflexivity.
Qed.

Lemma calculateSlope_is_exact_on_a_line_witness :
  calculateSlope (line (1 / 50) (1 / 10) 12) = 1 / 50 /\
  calculateSlope (repeat (3 / 10) 12) = 0.
Proof.
  destruct (calculateSlope_is_exact_on_a_line (1 / 50) (1 / 10) 12 ltac:(lia))
    as [Hline _].
  destruct (calculateSlope_is_exact_on_a_line 0 (3 / 10) 12 ltac:(lia))
    as [_ [Hflat _]].
  split; [exact Hline|exact Hflat].
Defined.

(** *** The beat counter *)

Lemma updateBeatTracking_beat (e : Engine.t) (currentTime : R) (a : AudioData) :
  let e' := updateBeatTracking e currentTime a in
  let beatNumber :=
    Int_part ((currentTime - default 0 (startTime e)) / beatDuration e) in
  beatsPerMeasure e' = beatsPerMeasure e /\ bpm e' = bpm e /\
  beatDuration e' = beatDuration e /\
  currentBeat e' = Z.max (currentBeat e) beatNumber /\
  currentMeasure e' =
    (if (currentBeat e <? beatNumber)%Z
     then (beatNumber / beatsPerMeasure e)%Z else currentMeasure e) /\
  activeSequences e' = activeSequences e /\
  sequenceHistory e' = sequenceHistory e /\
  sequences e' = sequences e.
Proof.
  unfold updateBeatTracking.
  set (beatNumber :=
         Int_part ((currentTime - default 0 (startTime e)) / beatDuration e)).
  destruct (currentBeat e <? beatNumber)%Z eqn:E;
    [apply Z.ltb_lt in E|apply Z.ltb_ge in E];
    destruct (onsetEvent a) as [ev|];
    try destruct (detected ev && Rltb 0 (strength ev)); simpl;
    repeat split; lia.
Qed.

Lemma animate_beat (e : Engine.t) (currentTime : R) (a : AudioData) (e' : Engine.t) :
  running e = true ->
  animate e currentTime a = Normal e' ->
  let beatNumber :=
    Int_part ((currentTime - default 0 (startTime e)) / beatDuration e) in
  beatsPerMeasure e' = beatsPerMeasure e /\ bpm e' = bpm e /\
  beatDuration e' = beatDuration e /\
  currentBeat e' = Z.max (currentBeat e) beatNumber /\
  currentMeasure e' =
    (if (currentBeat e <? beatNumber)%Z
     then (beatNumber / beatsPerMeasure e)%Z else currentMeasure e).
Proof.
  intros Hrun Han. destruct (animate_phases e currentTime a e' Hrun Han)
    as [e4 [H4 ->]].
  unfold checkTriggers in H4. apply forEachSequence_frame in H4.
  destruct H4 as [Hf _]. rewrite updateActiveSequences_frame. simpl.
  rewrite Hf. simpl. rewrite updateMemory_frame. simpl.
  destruct (updateBeatTracking_beat (set_frameTime e currentTime) currentTime a)
    as [H1 [H2 [H3 [H4 [H5 _]]]]].
  simpl in H1, H2, H3, H4, H5. repeat split; assumption.
Qed.

Lemma reachable_beat (e : Engine.t) :
  reachable e ->
  beatsPerMeasure e = 4%Z /\ (0 <= currentBeat e)%Z /\
  currentMeasure e = (currentBeat e / 4)%Z /\
  bpm e <> 0 /\ beatDuration e = 60 / bpm e * 1000.
Proof.
  induction 1 as [vizs configBpm|e0 c e1 Hr IH Hc].
  - simpl. split; [reflexivity|]. split; [lia|]. split; [reflexivity|].
    split; [|reflexivity].
    destruct configBpm as [v|]; [|rlra].
    destruct (Reqb v 0) eqn:E; [rlra|]. apply Reqb_neq in E. exact E.
  - destruct IH as [H4 [H0 [Hm [Hb Hd]]]].
    destruct (call_cases e0 c e1 Hc)
      as [[_ [Eb [Em [E4 [Ebpm [Ed _]]]]]]|[t [a [_ [Hrun Han]]]]].
    + rewrite Eb, Em, E4, Ebpm, Ed. repeat split; assumption.
    + destruct (animate_beat e0 t a e1 Hrun Han) as [E4 [Ebpm [Ed [Eb Em]]]].
      rewrite E4, Ebpm, Ed, Eb, Em. split; [exact H4|]. split; [lia|].
      split; [|split; assumption].
      destruct (currentBeat e0 <? _)%Z eqn:E.
      * apply Z.ltb_lt in E. rewrite Z.max_r by lia. rewrite H4. reflexivity.
      * apply Z.ltb_ge in E. rewrite Z.max_l by lia. exact Hm.
Qed.

(** X23.  The beat counter never goes back.  In every engine a program can reach
    there are 4 beats to the measure, the beat counter is not negative and
    the measure counter is the whole part of a quarter of it; the tempo is
    not 0 and a beat lasts 60000 ms over the tempo.  A tick of a running
    engine raises the counter to the number of whole beats since the start
    when that is more, and no call lowers it, a new [start()] after a
    [stop()] included. *)
Theorem beat_counter_never_goes_back (e : Engine.t) :
  reachable e ->
  beatsPerMeasure e = 4%Z /\ (0 <= currentBeat e)%Z /\
  currentMeasure e = (currentBeat e / 4)%Z /\
  bpm e <> 0 /\ beatDuration e = 60 / bpm e * 1000 /\
  (forall c e', call e c = Normal e' -> (currentBeat e <= currentBeat e')%Z) /\
  (forall currentTime audioData e',
     running e = true ->
     animate e currentTime audioData = Normal e' ->
     currentBeat e' =
     Z.max (currentBeat e)
       (Int_part ((currentTime - default 0 (startTime e)) / beatDuration e))).
Proof.
  intros Hr. destruct (reachable_beat e Hr) as [H4 [H0 [Hm [Hb Hd]]]].
  split; [exact H4|]. split; [exact H0|]. split; [exact Hm|].
  split; [exact Hb|]. split; [exact Hd|]. split.
  - intros c e' Hc.
    destruct (call_cases e c e' Hc) as [[_ [Eb _]]|[t [a [_ [Hrun Han]]]]].
    + rewrite Eb. lia.
    + destruct (animate_beat e t a e' Hrun Han) as [_ [_ [_ [Eb _]]]].
      rewrite Eb. lia.
  - intros t a e' Hrun Han.
    destruct (animate_beat e t a e' Hrun Han) as [_ [_ [_ [Eb _]]]]. exact Eb.
Qed.

(** *** The history of started sequences *)

Lemma animate_history (e : Engine.t) (currentTime : R) (a : AudioData) (e' : Engine.t) :
  running e = true ->
  animate e currentTime a = Normal e' ->
  sequences e' = sequences e /\
  (exists started, sequenceHistory e' = sequenceHistory e ++ started) /\
  ((forall x, In x (activeSequences e) ->
      In (name (Active.sequence x), Active.startTime x) (sequenceHistory e)) ->
   forall x, In x (activeSequences e') ->
      In (name (Active.sequence x), Active.startTime x) (sequenceHistory e')) /\
  ((forall n t0, In (n, t0) (sequenceHistory e) -> In n (map name (sequences e))) ->
   forall n t0, In (n, t0) (sequenceHistory e') -> In n (map name (sequences e))).
Proof.
  intros Hrun Han. destruct (animate_phases e currentTime a e' Hrun Han)
    as [e4 [H4 ->]].
  set (e2 := updateBeatTracking (set_frameTime e currentTime) currentTime a) in *.
  destruct (updateBeatTracking_beat (set_frameTime e currentTime) currentTime a)
    as [_ [_ [_ [_ [_ [Ha2 [Hh2 Hs2]]]]]]].
  fold e2 in Ha2, Hh2, Hs2. simpl in Ha2, Hh2, Hs2.
  set (e3 := updateMemory e2 a currentTime) in *.
  assert (Ha3 : activeSequences e3 = activeSequences e)
    by (unfold e3; rewrite updateMemory_frame; simpl; exact Ha2).
  assert (Hh3 : sequenceHistory e3 = sequenceHistory e)
    by (unfold e3; rewrite updateMemory_frame; simpl; exact Hh2).
  assert (Hs3 : sequences e3 = sequences e)
    by (unfold e3; rewrite updateMemory_frame; simpl; exact Hs2).
  unfold checkTriggers in H4. apply forEachSequence_frame in H4.
  destruct H4 as [Hf [Hstarted [Hact Hhist]]].
  rewrite Ha3, Hh3, Hs3 in *.
  assert (Hs4 : sequences e4 = sequences e) by (rewrite Hf; simpl; exact Hs3).
  rewrite updateActiveSequences_frame. simpl.
  split; [exact Hs4|]. split; [exact Hstarted|]. split.
  - intros Hold x Hx. apply filter_In in Hx. destruct Hx as [Hx _].
    apply Hact; assumption.
  - exact Hhist.
Qed.

Lemma reachable_history (e : Engine.t) :
  reachable e ->
  (forall x, In x (activeSequences e) ->
     In (name (Active.sequence x), Active.startTime x) (sequenceHistory e)) /\
  (forall n t0, In (n, t0) (sequenceHistory e) -> In n (map name (sequences e))).
Proof.
  induction 1 as [vizs configBpm|e0 c e1 Hr [IHa IHh] Hc].
  - split; intros ? ; simpl; tauto.
  - destruct (call_cases e0 c e1 Hc)
      as [[_ [_ [_ [_ [_ [_ [Hcase Es]]]]]]]|[t [a [_ [Hrun Han]]]]].
    + destruct Hcase as [[Ea Eh]|[s [t [Hs [Ea Eh]]]]]; rewrite Ea, Eh.
      * split; [exact IHa|].
        intros n t0 Hin. apply Es. apply (IHh n t0). exact Hin.
      * split.
        -- intros x Hx. apply in_or_app. apply in_app_or in Hx.
           destruct Hx as [Hx|[<-|[]]]; [left; apply IHa; exact Hx|].
           right. left. reflexivity.
        -- intros n t0 Hin. apply Es. apply in_app_or in Hin.
           destruct Hin as [Hin|[[= <- <-]|[]]]; [apply (IHh n t0); exact Hin|].
           apply in_map. exact Hs.
    + destruct (animate_history e0 t a e1 Hrun Han) as [Es [_ [Hact Hhist]]].
      rewrite Es. split; [apply Hact; exact IHa|apply Hhist; exact IHh].
Qed.

(** X24.  Every start of a sequence is on record: in every engine a program can
    reach each active instance has its entry, name and start time, in the
    sequence history, and every entry of the history names a sequence that is
    defined.  No call removes or rewrites an entry: the history after a call
    is the history before it with the starts of that call at its end. *)
Theorem every_start_is_in_the_history (e : Engine.t) :
  reachable e ->
  (forall x, In x (activeSequences e) ->
     In (name (Active.sequence x), Active.startTime x) (sequenceHistory e)) /\
  (forall n t0, In (n, t0) (sequenceHistory e) ->
     exists s, sequencesGet e n = Some s /\ name s = n) /\
  (forall c e', call e c = Normal e' ->
     exists started, sequenceHistory e' = sequenceHistory e ++ started).
Proof.
  intros Hr. destruct (reachable_history e Hr) as [Hact Hhist].
  split; [exact Hact|]. split.
  - intros n t0 Hin. specialize (Hhist n t0 Hin).
    apply in_map_iff in Hhist. destruct Hhist as [s [Hn Hs]].
    unfold sequencesGet.
    destruct (List.find (fun x => String.eqb (name x) n) (sequences e))
      as [s'|] eqn:E.
    + exists s'. split; [reflexivity|]. apply find_some in E.
      destruct E as [_ E]. apply String.eqb_eq in E. exact E.
    + exfalso. apply (find_none _ _ E) in Hs. rewrite Hn in Hs.
      rewrite String.eqb_refl in Hs. discriminate.
  - intros c e' Hc.
    destruct (call_cases e c e' Hc)
      as [[_ [_ [_ [_ [_ [_ [Hcase _]]]]]]]|[t [a [_ [Hrun Han]]]]].
    + destruct Hcase as [[_ Eh]|[s [t [_ [_ Eh]]]]].
      * exists []. rewrite Eh, app_nil_r. reflexivity.
      * exists [(name s, t)]. exact Eh.
    + destruct (animate_history e t a e' Hrun Han) as [_ [Hstarted _]].
      exact Hstarted.
Qed.

(** *** The last onset *)

Lemma updateBeatTracking_onset (e : Engine.t) (currentTime : R) (a : AudioData) :
  let m' := memory (updateBeatTracking e currentTime a) in
  (forall ev, onsetEvent a = Some ev -> detected ev = true -> 0 < strength ev ->
     lastOnsetTime m' = currentTime /\ lastOnsetEvent m' = Some ev) /\
  ((forall ev, onsetEvent a = Some ev -> detected ev = false \/ strength ev <= 0) ->
     lastOnsetTime m' = lastOnsetTime (memory e) /\
     lastOnsetEvent m' = lastOnsetEvent (memory e)).
Proof.
  unfold updateBeatTracking.
  destruct (onsetEvent a) as [ev|]; split.
  - intros ev' [= <-] Hd Hs. rewrite Hd.
    replace (Rltb 0 (strength ev)) with true by (symmetry; apply Rltb_lt; exact Hs).
    destruct (currentBeat e <? _)%Z; simpl; split; reflexivity.
  - intros Hno. destruct (Hno ev eq_refl) as [Hd|Hs].
    + rewrite Hd. destruct (currentBeat e <? _)%Z; simpl; split; reflexivity.
    + replace (Rltb 0 (strength ev)) with false
        by (symmetry; apply Rltb_ge; exact Hs).
      rewrite andb_false_r. destruct (currentBeat e <? _)%Z; simpl; split; reflexivity.
  - intros ev' [=].
  - intros _. destruct (currentBeat e <? _)%Z; simpl; split; reflexivity.
Qed.

Lemma updateMemory_onset (e : Engine.t) (a : AudioData) (currentTime : R) :
  lastOnsetTime (memory (updateMemory e a currentTime)) = lastOnsetTime (memory e) /\
  lastOnsetEvent (memory (updateMemory e a currentTime)) = lastOnsetEvent (memory e).
Proof.
  unfold updateMemory.
  destruct (trackBassHits (memory e) a currentTime) as [hits predicted].
  destruct (trackEnergy (memory e) a) as [history trend]. split; reflexivity.
Qed.

Lemma animate_onset (e : Engine.t) (currentTime : R) (a : AudioData) (e' : Engine.t) :
  running e = true ->
  animate e currentTime a = Normal e' ->
  (forall ev, onsetEvent a = Some ev -> detected ev = true -> 0 < strength ev ->
     lastOnsetTime (memory e') = currentTime /\
     lastOnsetEvent (memory e') = Some ev) /\
  ((forall ev, onsetEvent a = Some ev -> detected ev = false \/ strength ev <= 0) ->
     lastOnsetTime (memory e') = lastOnsetTime (memory e) /\
     lastOnsetEvent (memory e') = lastOnsetEvent (memory e)).
Proof.
  intros Hrun Han. rewrite (animate_memory e currentTime a e' Hrun Han).
  destruct (updateMemory_onset
              (updateBeatTracking (set_frameTime e currentTime) currentTime a)
              a currentTime) as [Ht Hev].
  rewrite Ht, Hev.
  apply (updateBeatTracking_onset (set_frameTime e currentTime) currentTime a).
Qed.

Lemma reachable_onset (e : Engine.t) :
  reachable e ->
  (forall ev, lastOnsetEvent (memory e) = Some ev ->
     detected ev = true /\ 0 < strength ev) /\
  (lastOnsetEvent (memory e) = None -> lastOnsetTime (memory e) = 0).
Proof.
  induction 1 as [vizs configBpm|e0 c e1 Hr [IHev IHt] Hc].
  - simpl. split; [intros ev [=]|reflexivity].
  - destruct (call_cases e0 c e1 Hc) as [[Hm _]|[t [a [_ [Hrun Han]]]]].
    + rewrite Hm. split; assumption.
    + destruct (animate_onset e0 t a e1 Hrun Han) as [Hyes Hno].
      destruct (onsetEvent a) as [ev|] eqn:Eev.
      * destruct (detected ev) eqn:Ed.
        -- destruct (Rlt_dec 0 (strength ev)) as [Hs|Hs].
           ++ destruct (Hyes ev eq_refl Ed Hs) as [_ Hev]. rewrite Hev.
              split; [intros ev' [= <-]; split; assumption|discriminate].
           ++ destruct Hno as [Ht Hev];
                [intros ev' [= <-]; right; rlra|].
              rewrite Ht, Hev. split; assumption.
        -- destruct Hno as [Ht Hev]; [intros ev' [= <-]; left; exact Ed|].
           rewrite Ht, Hev. split; assumption.
      * destruct Hno as [Ht Hev]; [intros ev' [=]|].
        rewrite Ht, Hev. split; assumption.
Qed.

(** X25.  The onset the memory holds is one that was detected: in every engine a
    program can reach [memory.lastOnsetEvent], once set, is an event with
    [detected] true and a positive strength, and until then
    [memory.lastOnsetTime] is 0.  A tick of a running engine whose audio data
    carries such an event stores the event, and the time of the tick (not the
    event's own time) as [lastOnsetTime]; any other tick leaves both. *)
Theorem last_onset_is_a_detected_one (e : Engine.t) :
  reachable e ->
  (forall ev, lastOnsetEvent (memory e) = Some ev ->
     detected ev = true /\ 0 < strength ev) /\
  (lastOnsetEvent (memory e) = None -> lastOnsetTime (memory e) = 0) /\
  (forall currentTime audioData e',
     running e = true ->
     animate e currentTime audioData = Normal e' ->
     (forall ev, onsetEvent audioData = Some ev ->
        detected ev = true -> 0 < strength ev ->
        lastOnsetTime (memory e') = currentTime /\
        lastOnsetEvent (memory e') = Some ev) /\
     ((forall ev, onsetEvent audioData = Some ev ->
         detected ev = false \/ strength ev <= 0) ->
        lastOnsetTime (memory e') = lastOnsetTime (memory e) /\
        lastOnsetEvent (memory e') = lastOnsetEvent (memory e))).
Proof.
  intros Hr. destruct (reachable_onset e Hr) as [Hev Ht].
  split; [exact Hev|]. split; [exact Ht|].
  intros t a e' Hrun Han. apply (animate_onset e t a e' Hrun Han).
Qed.

End EngineMemory.

(** ** Trigger texts: the replacement of the names *)

Section TriggerTexts.
Import Engine.
Context {host : Host}.

(** X26.  The replacement of a name by a number in a trigger text works from
    the left: a text that starts with the name gives the number followed by
    the result for the rest of the text (the number put in is not searched),
    and a text without the name stays as it is.  So a trigger text in which
    none of "bass", "mid", "high", "energy" and "onset" occurs is handed to
    [eval] as it was written. *)
Theorem trigger_names_are_replaced_from_the_left
    (pat : string) (value : R) (e : Engine.t) (audioData : AudioData)
    (expression : string) :
  pat <> ""%string ->
  let rep := numberToString value in
  (forall s, replaceAll pat rep (String.append pat s)
             = String.append rep (replaceAll pat rep s)) /\
  (forall s, ~ occursIn pat s -> replaceAll pat rep s = s) /\
  ((forall n, In n triggerNames -> ~ occursIn n expression) ->
   safeExpr expression audioData = expression /\
   evaluateTrigger e expression (Some audioData) =
   tryCatch (js_eval (mkScope e expression audioData) expression) (JsBool false)).
Proof.
  intros Hpat rep. split; [intros s; apply replaceAll_match; exact Hpat|].
  split; [intros s; apply replaceAll_absent|].
  intros Hnone.
  assert (Hsafe : safeExpr expression audioData = expression).
  { unfold safeExpr.
    rewrite (replaceAll_absent "bass") by (apply Hnone; simpl; tauto).
    rewrite (replaceAll_absent "mid") by (apply Hnone; simpl; tauto).
    rewrite (replaceAll_absent "high") by (apply Hnone; simpl; tauto).
    rewrite (replaceAll_absent "energy") by (apply Hnone; simpl; tauto).
    rewrite (replaceAll_absent "onset") by (apply Hnone; simpl; tauto).
    reflexivity. }
  split; [exact Hsafe|].
  unfold evaluateTrigger, evaluateBody. fold (safeExpr expression audioData).
  rewrite Hsafe. reflexivity.
Qed.

End TriggerTexts.

(** ** Instances of the further statements about the engine *)

Section FurtherInstances.
Import Engine.
Local Open Scope R_scope.

Lemma startedEngine_reachable : reachable (H := strictHost) startedEngine.
Proof.
  apply (reachable_call (H := strictHost) (new [] None) (CallStart 0));
    [apply reachable_new|reflexivity].
Qed.

Lemma memory_stays_small_witness :
  exists e',
    animate (H := strictHost) startedEngine 16 silence = Normal e' /\
    length (energyHistory (memory e')) = 1%nat.
Proof.
  destruct (animate_normal (host := strictHost) startedEngine 16 silence)
    as [e' He'].
  destruct (memory_stays_small (host := strictHost) startedEngine
              startedEngine_reachable) as [_ [_ [_ [_ Htick]]]].
  destruct (Htick 16 silence e' eq_refl He') as [_ Hlen].
  exists e'. split; [exact He'|exact Hlen].
Defined.

Lemma beat_counter_never_goes_back_witness :
  currentMeasure startedEngine = (currentBeat startedEngine / 4)%Z /\
  (currentBeat startedEngine <= currentBeat (stop startedEngine))%Z.
Proof.
  destruct (beat_counter_never_goes_back (host := strictHost) startedEngine
              startedEngine_reachable) as [_ [_ [Hm [_ [_ [Hcall _]]]]]].
  split; [exact Hm|]. apply (Hcall CallStop). reflexivity.
Defined.

Lemma every_start_is_in_the_history_witness :
  exists started,
    sequenceHistory (stop startedEngine) = sequenceHistory startedEngine ++ started.
Proof.
  destruct (every_start_is_in_the_history (host := strictHost) startedEngine
              startedEngine_reachable) as [_ [_ Hcall]].
  apply (Hcall CallStop). reflexivity.
Defined.

Lemma trigger_names_are_replaced_from_the_left_witness :
  replaceAll "bass" (numberToString (Host := comparingHost) (9 / 10))
    (String.append "bass" " > 0.8")
  = String.append (numberToString (Host := comparingHost) (9 / 10))
      (replaceAll "bass" (numberToString (Host := comparingHost) (9 / 10)) " > 0.8") /\
  safeExpr (H := comparingHost) "1 < 2" loud = "1 < 2"%string.
Proof.
  destruct (trigger_names_are_replaced_from_the_left (host := comparingHost)
              "bass" (9 / 10) startedEngine loud "1 < 2" ltac:(discriminate))
    as [Hmatch [_ Hnone]].
  split; [apply Hmatch|].
  apply Hnone. intros n Hn Hocc. apply occursIn_occursb in Hocc.
  unfold triggerNames in Hn. simpl in Hn.
  destruct Hn as [<-|[<-|[<-|[<-|[<-|[]]]]]]; vm_compute in Hocc; discriminate.
Defined.

Lemma last_onset_is_a_detected_one_witness :
  lastOnsetEvent (memory startedEngine) = None /\
  lastOnsetTime (memory startedEngine) = 0.
Proof.
  destruct (last_onset_is_a_detected_one (host := strictHost) startedEngine
              startedEngine_reachable) as [_ [Ht _]].
  split; [reflexivity|apply Ht; reflexivity].
Defined.

End FurtherInstances.

(** ** The analyzer: the loudness *)

Section AnalyzerLoudness.
Import Loudness.
Local Open Scope R_scope.

Local Ltac rlra := Lra.lra.

Lemma sumSquares_from (timeData : list Z) (acc : R) :
  fold_left (fun acc sample => acc + normalized sample * normalized sample)
    timeData acc
  = acc + sumSquares timeData.
Proof.
  unfold sumSquares. revert acc.
  induction timeData as [|x l IH]; intros acc; simpl; [rlra|].
  rewrite (IH (acc + _)), (IH (0 + _)). rlra.
Qed.

Lemma sumSquares_cons (x : Z) (l : list Z) :
  sumSquares (x :: l) = normalized x * normalized x + sumSquares l.
Proof.
  unfold sumSquares at 1. simpl. rewrite sumSquares_from. rlra.
Qed.

Lemma normalized_byte (x : Z) :
  Analyzer.isByte x ->
  -1 <= normalized x <= 1 /\ (normalized x = 0 <-> x = 128%Z).
Proof.
  intros [H0 H255]. unfold normalized.
  apply IZR_le in H0, H255. split; [split; rlra|]. split.
  - intros H. apply eq_IZR. rlra.
  - intros ->. rlra.
Qed.

Lemma sumSquares_bytes (l : list Z) :
  Forall Analyzer.isByte l ->
  0 <= sumSquares l <= INR (length l) /\
  (sumSquares l = 0 <-> Forall (fun x => x = 128%Z) l).
Proof.
  induction 1 as [|x l Hx Hl [[IH0 IH1] IHz]].
  - unfold sumSquares. simpl. split; [rlra|]. split; [constructor|reflexivity].
  - rewrite sumSquares_cons.
    change (length (x :: l)) with (S (length l)). rewrite S_INR.
    destruct (normalized_byte x Hx) as [[Hlo Hhi] Hz].
    assert (Hsq : 0 <= normalized x * normalized x <= 1) by (split; Lra.nra).
    split; [rlra|]. split.
    + intros Hsum.
      assert (Hn : normalized x * normalized x = 0) by rlra.
      assert (Hs : sumSquares l = 0) by rlra.
      constructor; [|apply IHz; exact Hs].
      apply Hz. Lra.nra.
    + intros Hall. apply Forall_cons in Hall. destruct Hall as [Hx128 Hrest].
      apply Hz in Hx128. apply IHz in Hrest. rewrite Hx128, Hrest. rlra.
Qed.

Lemma sumSquares_repeat (c : Z) (n : nat) :
  sumSquares (repeat c n) = INR n * (normalized c * normalized c).
Proof.
  induction n as [|n IH].
  - unfold sumSquares. simpl. rlra.
  - change (repeat c (S n)) with (c :: repeat c n).
    rewrite sumSquares_cons, IH, S_INR. rlra.
Qed.

(** X9.  The loudness of a buffer of byte samples that is not empty is a number
    between 0 and 1; it is 0 exactly when every sample is 128, the level of
    silence, and for a buffer that holds one value throughout it is the
    distance of that value from 128, over 128 (so 1 for a buffer of zeros). *)
Theorem rms_of_bytes_is_in_the_unit_interval (timeData : list Z) :
  timeData <> [] -> Forall Analyzer.isByte timeData ->
  exists r,
    calcRMS timeData = Some r /\
    0 <= r <= 1 /\
    (r = 0 <-> Forall (fun sample => sample = 128%Z) timeData) /\
    (forall c, timeData = repeat c (length timeData) ->
               r = Rabs (IZR c - 128) / 128).
Proof.
  intros Hne Hbytes.
  destruct (sumSquares_bytes timeData Hbytes) as [[H0 H1] Hz].
  assert (Hn : 0 < INR (length timeData)).
  { apply lt_0_INR. destruct timeData; [congruence|simpl; lia]. }
  set (q := sumSquares timeData / INR (length timeData)).
  assert (Hq : 0 <= q <= 1).
  { unfold q. split.
    - apply Rmult_le_pos; [exact H0|]. apply Rlt_le. apply Rinv_0_lt_compat. exact Hn.
    - apply (Rmult_le_reg_r (INR (length timeData))); [exact Hn|].
      unfold Rdiv. rewrite Rmult_assoc, Rinv_l by rlra. rlra. }
  exists (sqrt q). split; [destruct timeData; [congruence|reflexivity]|].
  split; [|split].
  - split; [apply sqrt_pos|]. rewrite <- sqrt_1. apply sqrt_le_1_alt. apply Hq.
  - rewrite <- Hz. split.
    + intros Hs. apply sqrt_eq_0 in Hs; [|apply Hq].
      unfold q in Hs. apply (Rmult_eq_compat_r (INR (length timeData))) in Hs.
      unfold Rdiv in Hs. rewrite Rmult_assoc, Rinv_l in Hs by rlra. rlra.
    + intros Hs. unfold q. rewrite Hs. unfold Rdiv. rewrite Rmult_0_l.
      apply sqrt_0.
  - intros c Hc. apply sqrt_lem_1; [apply Hq| |].
    + apply Rmult_le_pos; [apply Rabs_pos|rlra].
    + unfold q. rewrite Hc, sumSquares_repeat, repeat_length. unfold normalized.
      assert (Habs : Rabs (IZR c - 128) * Rabs (IZR c - 128)
                     = (IZR c - 128) * (IZR c - 128)).
      { unfold Rabs. destruct (Rcase_abs (IZR c - 128)); ring. }
      replace (Rabs (IZR c - 128) / 128 * (Rabs (IZR c - 128) / 128))
        with (Rabs (IZR c - 128) * Rabs (IZR c - 128) / (128 * 128)) by field.
      rewrite Habs. field. rlra.
Qed.

Lemma rms_of_bytes_is_in_the_unit_interval_witness :
  exists r, calcRMS [0; 0; 0; 0]%Z = Some r /\ r = Rabs (0 - 128) / 128.
Proof.
  assert (Hb : Forall Analyzer.isByte [0; 0; 0; 0]%Z).
  { repeat constructor; unfold Analyzer.isByte; lia. }
  destruct (rms_of_bytes_is_in_the_unit_interval [0; 0; 0; 0]%Z
              ltac:(discriminate) Hb) as [r [Hr [_ [_ Hconst]]]].
  exists r. split; [exact Hr|]. apply (Hconst 0%Z). reflexivity.
Defined.

End AnalyzerLoudness.

(** ** The holographic visualizer: what [updateParameter] stores *)

Section HolographicFacts.
Import Holographic.
Local Open Scope Q_scope.

(** X27.  With its variant parameters in place, the holographic visualizer stores a
    grid density rescaled from the range 5 to 100 onto the range 0.3 to 2.5,
    in order, under "density"; each other name of its parameter map has its
    value stored as it is under the mapped name; the three colour settings go
    to their own fields and leave the variant parameters alone, as every
    other name leaves the colour settings. *)
Theorem holographic_updateParameter_stores_mapped_values
    (v : Holographic.t) (vp : gmap string Q) (value : Q) :
  variantParams v = Some vp ->
  variantParams (updateParameter v "gridDensity" value)
    = Some (<["density"%string := scaledGridDensity value]> vp) /\
  scaledGridDensity 5 == 3 # 10 /\
  scaledGridDensity 100 == 25 # 10 /\
  (forall value', value <= value' ->
     scaledGridDensity value <= scaledGridDensity value') /\
  (5 <= value <= 100 -> 3 # 10 <= scaledGridDensity value <= 25 # 10) /\
  (forall name mapped,
     In (name, mapped) paramMap -> name <> "gridDensity"%string ->
     variantParams (updateParameter v name value) = Some (<[mapped := value]> vp)) /\
  (forall name,
     In name colorNames ->
     variantParams (updateParameter v name value) = variantParams v) /\
  (forall name,
     ~ In name colorNames ->
     colorStyle (updateParameter v name value) = colorStyle v /\
     colorProfile (updateParameter v name value) = colorProfile v /\
     colorVibrance (updateParameter v name value) = colorVibrance v).
Proof.
  intros Hvp.
  split; [unfold updateParameter; simpl; rewrite Hvp; reflexivity|].
  split; [reflexivity|]. split; [reflexivity|].
  assert (Hscale : forall x, scaledGridDensity x == (3 # 10) + (x - 5) * (22 # 950))
    by (intros x; unfold scaledGridDensity; field).
  split; [intros value' Hle; rewrite !Hscale; lra|].
  split; [intros [H5 H100]; rewrite !Hscale; split; lra|].
  split; [|split].
  - intros name mapped Hin Hne. unfold paramMap in Hin. simpl in Hin.
    destruct Hin as [[= <- <-]|Hin]; [congruence|].
    repeat (destruct Hin as [[= <- <-]|Hin];
            [unfold updateParameter; simpl; rewrite Hvp; reflexivity|]).
    destruct Hin.
  - intros name Hin. unfold colorNames in Hin. simpl in Hin.
    destruct Hin as [<-|[<-|[<-|[]]]]; reflexivity.
  - intros name Hnot. unfold updateParameter.
    destruct (String.eqb_spec name "colorStyle") as [->|_];
      [exfalso; apply Hnot; simpl; tauto|].
    destruct (String.eqb_spec name "colorProfile") as [->|_];
      [exfalso; apply Hnot; simpl; tauto|].
    destruct (String.eqb_spec name "colorVibrance") as [->|_];
      [exfalso; apply Hnot; simpl; tauto|].
    destruct (mapParameterName name), (variantParams v); repeat split.
Qed.

Lemma holographic_updateParameter_stores_mapped_values_witness :
  variantParams
    (updateParameter (mk 0 0 1 (Some (<["density"%string := 1]> ∅))) "gridDensity" 100)
  = Some (<["density"%string := scaledGridDensity 100]>
            (<["density"%string := 1]> ∅)) /\
  scaledGridDensity 100 == 25 # 10.
Proof.
  destruct (holographic_updateParameter_stores_mapped_values
              (mk 0 0 1 (Some (<["density"%string := 1]> ∅)))
              (<["density"%string := 1]> ∅) 100 eq_refl) as [H [_ [H100 _]]].
  split; [exact H|exact H100].
Defined.

End HolographicFacts.
